(** * Transformations over a shared term DAG: traversal, naming, printing

    A shallow embedding of [alive/transform.py].  Terms are Python objects
    compared by reference; here a term is a finite tree whose nodes carry the
    identity of the object they stand for, so that a shared sub-object shows
    up as several occurrences of one identity.  Mutable dictionaries, sets
    and counters keyed by objects become [gmap]/[gset] keyed by identity and
    are threaded explicitly through the walks. *)

From Stdlib Require Import ZArith Lia Ascii String.
From stdpp Require Import base option list gmap strings pretty.

Set Warnings "-clear-no-such-hyp".

Open Scope string_scope.
Open Scope list_scope.
Open Scope nat_scope.

(* ===================================================================== *)
(** * Part I: definitions                                                 *)
(* ===================================================================== *)

(** ** Terms ([alive.language], as far as [transform.py] looks at it) *)

(** The identity of a Python object. *)
Abbreviation ident := nat.

(** The runtime class of a term together with the attributes the printers
    read ([name], [code], [flags], [ty], [val], [pred], [op]); type
    annotations are kept in their [str] form, [None] standing for an absent
    annotation.  [Unregistered] stands for a class that no printer is
    registered for. *)
Inductive label :=
| Input (name : string)
| Symbol (name : string)
| BinaryOperator (name code : string) (flags : list string) (ty : option string)
| ConversionInst (name code : string) (src_ty ty : option string)
| IcmpInst (name pred : string) (ty : option string)
| FcmpInst (name : string) (flags : list string) (pred : string)
           (ty : option string)
| SelectInst (name : string) (ty1 ty2 : option string)
| Literal (val : string)
| FLiteral (val : string)
| UndefValue
| PoisonValue
| BinaryCnxp (code : string)
| UnaryCnxp (code : string)
| FunCnxp (code : string)
| FunPred (code : string)
| AndPred
| OrPred
| NotPred
| Comparison (op : string)
| Unregistered (cls : string).

(** A term: the object's identity, its class and attributes, and its
    operands in the order of [args()]. *)
Inductive term :=
| Node (i : ident) (l : label) (args : list term).

Definition id_of (t : term) : ident := let 'Node i _ _ := t in i.
Definition label_of (t : term) : label := let 'Node _ l _ := t in l.
Definition args (t : term) : list term := let 'Node _ _ a := t in a.

Module L.

(** Modelled from the spec: the class hierarchy of [language.py], which is
    not among the sources.  Instructions are the operations with operand
    slots; constants are literals, undef, poison, symbolic constants and the
    constant expressions that hoisting names; a symbolic constant is also an
    input. *)
Definition isinstance_Instruction (t : term) : bool :=
  match label_of t with
  | BinaryOperator _ _ _ _ | ConversionInst _ _ _ _ | IcmpInst _ _ _
  | FcmpInst _ _ _ _ | SelectInst _ _ _ => true
  | _ => false
  end.

Definition isinstance_Input (t : term) : bool :=
  match label_of t with
  | Input _ | Symbol _ => true
  | _ => false
  end.

Definition isinstance_Symbol (t : term) : bool :=
  match label_of t with
  | Symbol _ => true
  | _ => false
  end.

Definition isinstance_Constant (t : term) : bool :=
  match label_of t with
  | Symbol _ | Literal _ | FLiteral _ | UndefValue | PoisonValue
  | BinaryCnxp _ | UnaryCnxp _ | FunCnxp _ => true
  | _ => false
  end.

Definition isinstance_Comparison_or_FunPred (t : term) : bool :=
  match label_of t with
  | Comparison _ | FunPred _ => true
  | _ => false
  end.

(** [term.name] of an Input or Instruction; the empty string when the object
    carries no name. *)
Definition name_attr (t : term) : string :=
  match label_of t with
  | Input n | Symbol n => n
  | BinaryOperator n _ _ _ | ConversionInst n _ _ _ | IcmpInst n _ _
  | FcmpInst n _ _ _ | SelectInst n _ _ => n
  | _ => ""
  end.

(** Modelled from the spec: [L.subterms(term, seen)], the generator of
    [language.py] (not among the sources): every distinct term reachable
    from the root, operands first, each yielded once per [seen] set, the set
    being shared by the caller across several roots.  The result is the
    yielded sequence and the [seen] set afterwards. *)
Fixpoint subterms (t : term) (seen : gset ident) : list term * gset ident :=
  match t with
  | Node i _ ts =>
      if decide (i ∈ seen) then ([], seen)
      else
        let st := foldl (fun st a =>
                           let r := subterms a st.2 in (st.1 ++ r.1, r.2))
                        ([], seen) ts in
        (st.1 ++ [t], {[ i ]} ∪ st.2)
  end.

End L.

(** ** Term DAG utilities *)

(** [get_insts]: the inner [walk(v, insts, seen)], with the two mutable
    arguments threaded as a pair. *)
Fixpoint get_insts_walk (v : term) (st : list term * gset ident)
  : list term * gset ident :=
  match v with
  | Node i _ ts =>
      if decide (i ∈ st.2) then st
      else if negb (L.isinstance_Instruction v) then st
      else
        let st1 := foldl (fun st a => get_insts_walk a st)
                         (st.1, {[ i ]} ∪ st.2) ts in
        (st1.1 ++ [v], st1.2)
  end.

Definition get_insts (v : term) : list term := (get_insts_walk v ([], ∅)).1.

(** A [collections.Counter] keyed by object: a missing key reads as 0 and
    [uses[a] += 1] creates it. *)
Definition counter_get (uses : gmap ident Z) (i : ident) : Z :=
  default 0%Z (uses !! i).
Definition counter_incr (i : ident) (uses : gmap ident Z) : gmap ident Z :=
  <[ i := (counter_get uses i + 1)%Z ]> uses.

(** [count_uses]: the inner [walk(v)] over the shared counter. *)
Fixpoint count_uses_walk (v : term) (uses : gmap ident Z) : gmap ident Z :=
  match v with
  | Node _ _ ts =>
      foldl (fun uses a =>
               let uses1 := if decide (id_of a ∈ dom uses) then uses
                            else count_uses_walk a uses in
               counter_incr (id_of a) uses1)
            uses ts
  end.

(** [count_uses(dag, uses)]; [None] is the default [uses=None]. *)
Definition count_uses (dag : term) (uses : option (gmap ident Z))
  : gmap ident Z :=
  count_uses_walk dag (default ∅ uses).

(** The same walk with a ghost log of the terms [walk] is entered on, in
    call order.  It only observes the walk. *)
Fixpoint count_uses_walk_log (v : term) (st : gmap ident Z * list term)
  : gmap ident Z * list term :=
  match v with
  | Node _ _ ts =>
      foldl (fun st a =>
               let st1 := if decide (id_of a ∈ dom st.1) then st
                          else count_uses_walk_log a (st.1, st.2 ++ [a]) in
               (counter_incr (id_of a) st1.1, st1.2))
            st ts
  end.

Definition count_uses_log (dag : term) (uses : option (gmap ident Z))
  : gmap ident Z * list term :=
  count_uses_walk_log dag (default ∅ uses, [dag]).

(** [constant_defs(tgt, terms)]: the generator's yielded sequence. *)
Definition constant_defs (tgt : term) (terms : list term) : list term :=
  let uses := count_uses tgt None in
  let uses := foldl (fun uses t => count_uses t (Some uses)) uses terms in
  filter (fun t => (1 <? counter_get uses (id_of t))%Z
                   && L.isinstance_Constant t
                   && negb (L.isinstance_Symbol t) = true)
         (L.subterms tgt ∅).1.

(** ** Reachability and sharing in the term graph *)

(** [subterm u t]: the object [u] is reachable from [t] along operand
    edges (in zero or more steps). *)
Inductive subterm : term → term → Prop :=
| subterm_refl t : subterm t t
| subterm_arg u a t : a ∈ args t → subterm u a → subterm u t.

(** [u] is reachable from [t] in at least one step: a proper descendant. *)
Definition strict_subterm (u t : term) : Prop :=
  ∃ a, a ∈ args t ∧ subterm u a.

(** Every occurrence of an object under [t], as a list. *)
Fixpoint occurrences (t : term) : list term :=
  match t with
  | Node _ _ ts => t :: mjoin (occurrences <$> ts)
  end.

Fixpoint term_size (t : term) : nat :=
  match t with
  | Node _ _ ts => S (sum_list (term_size <$> ts))
  end.

(** [occurs roots u]: [u] is reachable from one of the roots. *)
Definition occurs (roots : list term) (u : term) : Prop :=
  ∃ r, r ∈ roots ∧ subterm u r.

(** Reference identity: within the graphs under [roots], one identity is one
    object, with one class, one set of attributes and one operand tuple.
    This is what makes a tree with identities stand for a DAG. *)
Definition consistent (roots : list term) : Prop :=
  ∀ u w, occurs roots u → occurs roots w → id_of u = id_of w → u = w.

#[global] Instance label_eq_dec : EqDecision label.
Proof. solve_decision. Defined.

Fixpoint term_eqb (a b : term) : bool :=
  match a, b with
  | Node i l xs, Node j k ys =>
      bool_decide (i = j) && bool_decide (l = k)
      && (fix go (xs ys : list term) : bool :=
            match xs, ys with
            | [], [] => true
            | x :: xs', y :: ys' => term_eqb x y && go xs' ys'
            | _, _ => false
            end) xs ys
  end.

(** A decision procedure for [consistent], for concrete graphs. *)
Definition consistentb (roots : list term) : bool :=
  let occs := mjoin (occurrences <$> roots) in
  forallb (fun u =>
    forallb (fun w => implb (bool_decide (id_of u = id_of w)) (term_eqb u w))
            occs) occs.

(** [ireach v u]: [u] is reachable from [v] along a path made of
    Instructions only, both ends included. *)
Inductive ireach : term → term → Prop :=
| ireach_here v : L.isinstance_Instruction v = true → ireach v v
| ireach_arg v a u :
    L.isinstance_Instruction v = true → a ∈ args v → ireach a u → ireach v u.

(** [fresh_reach d v u]: [u] is reachable from [v] along a path none of
    whose nodes after [v] has its identity in [d]. *)
Inductive fresh_reach (d : gset ident) : term → term → Prop :=
| fresh_reach_here v : fresh_reach d v v
| fresh_reach_arg v a u :
    a ∈ args v → id_of a ∉ d → fresh_reach d a u → fresh_reach d v u.

(** The number of operand edges into the object [i] leaving the objects of
    [parents], an edge being counted with its multiplicity. *)
Definition edges_into (i : ident) (parents : list term) : Z :=
  Z.of_nat (sum_list ((fun p =>
    length (filter (fun a => id_of a = i) (args p))) <$> parents)).

(** ** Exceptions *)

(** The exceptions that cross function boundaries in [transform.py];
    [TypingError] is [typing.Error].  [LoopBound] is not a Python
    exception: it marks a [while] loop of the model that ran out of its
    iteration bound, and is shown not to occur. *)
Inductive exn :=
| NotImplementedError (msg : string)
| KeyError (key : string)
| AttributeError
| TypingError (msg : string)
| TypeError (msg : string)
| LoopBound.

Inductive result (A : Type) :=
| Ok (a : A)
| Raise (e : exn).
Arguments Ok {A} a.
Arguments Raise {A} e.

(** ** Documents ([alive.util.pretty]) *)

(** Modelled from the spec: the document algebra of [pretty.py], which is
    not among the sources: literal text, soft line, hard break, sequence,
    group and nest.  [Formatted] is the one document class [transform.py]
    adds: a suspended [format_doc(term, fmt, prec)] that runs when the
    document is sent to a renderer. *)
Inductive Doc :=
| text (s : string)
| line
| lbreak
| seq (ds : list Doc)
| group (d : Doc)
| nest (n : Z) (d : Doc)
| Formatted (t : term) (prec : Z).

(** [sep.join(docs)] *)
Fixpoint join (sep : Doc) (ds : list Doc) : list Doc :=
  match ds with
  | [] => []
  | [d] => [d]
  | d :: ds' => d :: sep :: join sep ds'
  end.

(** ** The Formatter *)

Record Formatter := mkFormatter {
  ids : gmap ident string;
  names : gset string;
  fresh : nat
}.

(** [Formatter.__init__] *)
Definition Formatter_init : Formatter :=
  {| ids := ∅; names := ∅; fresh := 0 |}.

(** Code that runs against one mutable Formatter and may raise. *)
Definition M (A : Type) : Type := Formatter → result (A * Formatter).

Definition ret {A} (a : A) : M A := fun fmt => Ok (a, fmt).
Definition raise {A} (e : exn) : M A := fun _ => Raise e.
Definition bind {A B} (m : M A) (k : A → M B) : M B :=
  fun fmt => match m fmt with
             | Ok (a, fmt') => k a fmt'
             | Raise e => Raise e
             end.

Declare Scope fmt_scope.
Delimit Scope fmt_scope with fmt.
Notation "'let*' x := m 'in' k" := (bind m (fun x => k))
  (at level 10, x pattern, m at level 100, k at level 200) : fmt_scope.
Open Scope fmt_scope.

(** [for x in xs: f(x)], collecting the results. *)
Fixpoint mapM {A B} (f : A → M B) (xs : list A) : M (list B) :=
  match xs with
  | [] => ret []
  | x :: xs' => let* y := f x in let* ys := mapM f xs' in ret (y :: ys)
  end.

(** The [while name in self.names] loop of [Formatter.name]; [bound] limits
    the number of iterations. *)
Fixpoint name_loop (bound : nat) (prefix : string) (names : gset string)
    (name : string) (fresh : nat) : option (string * nat) :=
  if decide (name ∈ names) then
    match bound with
    | 0 => None
    | S bound' =>
        name_loop bound' prefix names (prefix +:+ pretty fresh) (S fresh)
    end
  else Some (name, fresh).

(** [Formatter.name] *)
Definition name (term : term) : M string := fun fmt =>
  match ids fmt !! id_of term with
  | Some n => Ok (n, fmt)
  | None =>
      let prefix := if L.isinstance_Constant term then "C" else "%" in
      let '(name0, fresh0) :=
        if (L.isinstance_Input term || L.isinstance_Instruction term)
           && negb (String.eqb (L.name_attr term) "")
        then (L.name_attr term, fresh fmt)
        else (prefix +:+ pretty (fresh fmt), S (fresh fmt)) in
      match name_loop (S (size (names fmt))) prefix (names fmt) name0 fresh0
      with
      | None => Raise LoopBound
      | Some (n, fresh1) =>
          Ok (n, {| ids := <[ id_of term := n ]> (ids fmt);
                    names := {[ n ]} ∪ names fmt;
                    fresh := fresh1 |})
      end
  end.

(** [Formatter.operand(term, prec, ty)] *)
Definition operand (term : term) (prec : Z) (ty : option string) : M Doc :=
  let* d := (fun fmt =>
         if bool_decide (id_of term ∈ dom (ids fmt))
            || L.isinstance_Instruction term
         then (let* n := name term in ret (text n)) fmt
         else ret (Formatted term prec) fmt) in
  match ty with
  | None => ret d
  | Some ty => ret (seq [text ty; text " "; d])
  end.

(** A sequence of [name] calls on one Formatter, with the strings returned. *)
Definition name_calls (ts : list term) : M (list string) := mapM name ts.

(** ** The printers *)

Definition _bin_cnxp_prec : list (string * Z) :=
  [ ("*", 9); ("/", 9); ("/u", 9); ("%", 9); ("%u", 9);
    ("+", 8); ("-", 8);
    (">>", 7); ("<<", 7); ("u>>", 7);
    ("&", 6);
    ("^", 5);
    ("|", 4);
    ("&&", 2);
    ("||", 1) ]%Z.

Definition _bin_cnxp_lassoc : list string :=
  ["-"; "/"; "/u"; "%"; "%u"; "<<"; ">>"; "u>>"].

Definition _cmp_codes : list (string * string) :=
  [ ("eq", "=="); ("ne", "!="); ("slt", "<"); ("sle", "<="); ("sgt", ">");
    ("sge", ">="); ("ult", "u<"); ("ule", "u<="); ("ugt", "u>");
    ("uge", "u>=") ].

(** [table[key]] of a Python dict literal. *)
Fixpoint dict_get {V} (table : list (string * V)) (key : string) : option V :=
  match table with
  | [] => None
  | (k, v) :: table' => if String.eqb k key then Some v else dict_get table' key
  end.

Definition subscript {V} (table : list (string * V)) (key : string) : M V :=
  match dict_get table key with
  | Some v => ret v
  | None => raise (KeyError key)
  end.

Definition in_lassoc (code : string) : bool :=
  bool_decide (code ∈ _bin_cnxp_lassoc).

Definition len (s : string) : Z := Z.of_nat (String.length s).

(** The local [gather] of the [BinaryCnxp] printer. *)
Fixpoint gather (op_prec : Z) (t : term) : M Doc :=
  match t with
  | Node _ (BinaryCnxp code) ts =>
      let* p := subscript _bin_cnxp_prec code in
      if negb (op_prec =? p)%Z then operand t op_prec None
      else
        match ts with
        | [x; y] =>
            let* dx := gather op_prec x in
            let* dy := (if in_lassoc code then operand y op_prec None
                   else gather op_prec y) in
            ret (seq [dx; line; text code; text " "; dy])
        | _ => raise AttributeError
        end
  | _ => operand t op_prec None
  end.

Definition parens (d : Doc) : Doc := seq [text "("; d; text ")"].

(** [format_doc(term, fmt, prec)], dispatched on the runtime class.  A
    printer that reads [term.x], [term.y], ... takes them from [args()]. *)
Definition format_doc (t : term) (prec : Z) : M Doc :=
  match label_of t, args t with
  | (Input _ | Symbol _), _ => let* n := name t in ret (text n)
  | BinaryOperator _ code flags ty, [x; y] =>
      let fl := match flags with
                | [] => seq []
                | _ => seq [seq (join (text " ") (text <$> flags)); text " "]
                end in
      let* dx := operand x 0 ty in
      let* dy := operand y 0 None in
      ret (nest (len code + 1)
             (group (seq [text code; text " "; fl; dx; text ","; line; dy])))
  | ConversionInst _ code src_ty ty, [arg] =>
      let* _ := name t in
      let* da := operand arg 0 src_ty in
      let body := seq [text code; text " "; da] in
      let body := match ty with
                  | Some ty => seq [body; line; text "to "; text ty]
                  | None => body
                  end in
      ret (nest (len code + 1) (group body))
  | IcmpInst _ pred ty, [x; y] =>
      let* dx := operand x 0 ty in
      let* dy := operand y 0 None in
      ret (nest 5 (group (seq [text "icmp "; text pred; line; dx; text ",";
                               line; dy])))
  | FcmpInst _ flags pred ty, [x; y] =>
      let has_pred := negb (String.eqb pred "") in
      let* dx := operand x 0 ty in
      let* dy := operand y 0 None in
      ret (nest 5 (group (seq [
        text "fcmp";
        seq ((fun f => seq [text " "; text f]) <$> flags);
        (if has_pred then seq [text " "; text pred] else text "");
        (match flags with
         | [] => if has_pred then line else text " "
         | _ => line
         end);
        dx; text ","; line; dy])))
  | SelectInst _ ty1 ty2, [sel; arg1; arg2] =>
      let* _ := name t in
      let* ds := operand sel 0 None in
      let* d1 := operand arg1 0 ty1 in
      let* d2 := operand arg2 0 ty2 in
      ret (nest 7 (group (seq [text "select "; ds; text ","; line; d1;
                               text ","; line; d2])))
  | (Literal val | FLiteral val), _ => ret (text val)
  | UndefValue, _ => ret (text "undef")
  | PoisonValue, _ => ret (text "poison")
  | BinaryCnxp code, _ =>
      let* op_prec := subscript _bin_cnxp_prec code in
      let* body := gather op_prec t in
      let body := if (op_prec <=? prec)%Z || ((0 <? prec)%Z && (prec <? 8)%Z)
                  then parens body else body in
      ret (nest 2 (group body))
  | UnaryCnxp code, [x] =>
      let* dx := operand x 10 None in
      ret (seq [text code; dx])
  | (FunCnxp code | FunPred code), _args =>
      let* ds := mapM (fun a => operand a 0 None) _args in
      ret (nest 2 (group (seq [
        text code; text "(";
        (match _args with [] => seq [] | _ => lbreak end);
        seq (join (seq [text ","; line]) ds);
        text ")"])))
  | AndPred, clauses =>
      match clauses with
      | [] => ret (text "true")
      | _ =>
          let* ds := mapM (fun a => let* d := operand a 2 None in
                                    ret (nest 3 d)) clauses in
          let body := seq (join (seq [line; text "&& "]) ds) in
          let body := if (2 <? prec)%Z then parens body else body in
          ret (group body)
      end
  | OrPred, clauses =>
      match clauses with
      | [] => ret (text "!true")
      | _ =>
          let* ds := mapM (fun a => let* d := operand a 1 None in
                                    ret (nest 3 d)) clauses in
          let body := seq (join (seq [line; text "|| "]) ds) in
          let body := if (1 <? prec)%Z then parens body else body in
          ret (group body)
      end
  | NotPred, [p] =>
      let* dp := operand p 10 None in
      ret (seq [text "!"; dp])
  | Comparison op, [x; y] =>
      let* dx := operand x 3 None in
      let* code := subscript _cmp_codes op in
      let* dy := operand y 3 None in
      let body := seq [nest 3 dx; line; text code; text " "; nest 3 dy] in
      let body := if (3 <? prec)%Z then parens body else body in
      ret (group body)
  | Unregistered cls, _ => raise (NotImplementedError ("Can't format " +:+ cls))
  | _, _ => raise AttributeError
  end.

(** ** Transform and [format_parts] *)

(** [class Transform]; [Model] is the type of the abstract type model that
    [abstract_type_model] caches in the [_model] attribute. *)
Record Transform (Model : Type) := mkTransform {
  t_name : string;
  t_pre : option term;
  t_src : term;
  t_tgt : term;
  t_model : option Model     (* the [_model] attribute, once set *)
}.
Arguments mkTransform {Model}.
Arguments t_name {Model}.
Arguments t_pre {Model}.
Arguments t_src {Model}.
Arguments t_tgt {Model}.
Arguments t_model {Model}.

(** [' ' * n] *)
Definition spaces (n : Z) : string :=
  String.concat "" (replicate (Z.to_nat n) " ").

(** [(fmt.name(i), format_doc(i, fmt, 0))] *)
Definition named_doc (t : term) : M (string * Doc) :=
  let* n := name t in
  let* d := format_doc t 0 in
  ret (n, d).

(** [[(fmt.name(i), format_doc(i, fmt, 0)) for i in insts
      if i not in fmt.ids]]: the test is made when [i] comes up. *)
Fixpoint unnamed_docs (insts : list term) : M (list (string * Doc)) :=
  match insts with
  | [] => ret []
  | i :: rest => fun fmt =>
      if bool_decide (id_of i ∈ dom (ids fmt)) then unnamed_docs rest fmt
      else (let* d := named_doc i in
            let* ds := unnamed_docs rest in
            ret (d :: ds)) fmt
  end.

(** [fmt.ids[t] = n] *)
Definition set_id (t : term) (n : string) : M unit := fun fmt =>
  Ok (tt, {| ids := <[ id_of t := n ]> (ids fmt);
             names := names fmt;
             fresh := fresh fmt |}).

Record parts := mkParts {
  srci : list (string * Doc);
  cdefs : list (string * Doc);
  heads : list Doc;
  tgti : list (string * Doc)
}.

(** The first half of [format_parts]: the four lists it builds, in the
    order it builds them ([pretty.iter_seq] is taken to run its generator
    when it is called). *)
Definition format_parts_lists (headers : list (string * term))
    (src tgt : term) : M parts :=
  let* srci := mapM named_doc (get_insts src) in
  let* cdefs := mapM named_doc (constant_defs tgt (snd <$> headers)) in
  let* heads := mapM (fun ht : string * term =>
                        let* d := format_doc ht.2 0 in
                        ret (seq [text ht.1; text " ";
                                  nest (len ht.1 + 1) d; line])) headers in
  let* _ := (if L.isinstance_Instruction tgt
             then (let* n := name src in set_id tgt n)
             else ret tt) in
  let* tgti := unnamed_docs (get_insts tgt) in
  let* n := name src in
  let* d := format_doc tgt 0 in
  ret {| srci := srci; cdefs := cdefs; heads := heads;
         tgti := tgti ++ [(n, d)] |}.

(** The second half: the layout of the lists. *)
Definition layout_parts (name : string) (p : parts) : Doc :=
  let name_width :=
    foldr Z.max 0%Z ((fun d : string * Doc => len d.1)
                     <$> (srci p ++ cdefs p ++ tgti p)) in
  let fmt_decl (d : string * Doc) :=
    nest (name_width + 3)
         (seq [text d.1; text (spaces (name_width - len d.1)); text " = ";
               d.2]) in
  seq [ (if String.eqb name "" then seq []
         else seq [text "Name: "; text name; line]);
        seq (heads p);
        text "  ";
        nest 2 (seq (join line (fmt_decl <$> srci p)));
        line;
        text "=>";
        line;
        text "  ";
        nest 2 (seq (join line (fmt_decl <$> (cdefs p ++ tgti p))));
        line ].

(** [format_parts(name, headers, src, tgt, fmt)] on the Formatter at hand. *)
Definition format_parts (name : string) (headers : list (string * term))
    (src tgt : term) : M Doc :=
  let* p := format_parts_lists headers src tgt in
  ret (layout_parts name p).

(** The [Transform] case of [format_doc]. *)
Definition format_doc_Transform {Model} (opt : Transform Model) : M Doc :=
  format_parts (t_name opt)
    (match t_pre opt with Some pre => [("Pre:", pre)] | None => [] end)
    (t_src opt) (t_tgt opt).

(** ** Well-formed expressions and the shape of printed documents *)

(** Every binary connective expression under [t] has two operands and an
    operator of the precedence table. *)
Fixpoint cnxp_ok (t : term) : bool :=
  match t with
  | Node _ (BinaryCnxp code) ts =>
      bool_decide (is_Some (dict_get _bin_cnxp_prec code))
      && bool_decide (length ts = 2)
      && forallb cnxp_ok ts
  | Node _ _ ts => forallb cnxp_ok ts
  end.

Definition is_text (s : string) (d : Doc) : bool :=
  match d with
  | text s' => String.eqb s' s
  | _ => false
  end.

(** The document is a parenthesised body, as the [BinaryCnxp] printer
    builds it. *)
Definition parenthesized (d : Doc) : bool :=
  match d with
  | nest n (group (seq [l; _; r])) =>
      (n =? 2)%Z && is_text "(" l && is_text ")" r
  | _ => false
  end.

(** ** The line-continuation renderer *)

Module Render.

(** Modelled from the spec: the events of the streaming protocol of
    [pretty.py] (not among the sources), with the fields the renderer
    reads: [event[1]] is a horizontal position ([None] in a group-begin whose
    end is not known), [event[2]] the text or the indentation. *)
Inductive event :=
| Text (hp : Z) (s : string)
| Line (hp : Z) (indent : Z)
| Break (hp : Z) (indent : Z)
| GBegin (hp : option Z)
| GEnd.

(** The local variables of the generator that change. *)
Record state := mkState {
  fits : Z;
  broken : Z;
  hp_eol : Z
}.

(** The call of [out] a piece of output comes from. *)
Inductive site := OText | OSpace | OSuffix | ONewline | OIndent.

(** One call of [out]: the string written, and as ghost fields the call site
    and the value of [broken] at the call. *)
Record chunk := mkChunk {
  c_site : site;
  c_broken : Z;
  c_str : string
}.

Section renderer.
(** [text_events_line_continue(width, out, prefix, suffix, start_at)] *)
Variables (width : Z) (prefix suffix : string) (start_at : Z).

Definition width' : Z := (width - len prefix)%Z.
Definition newline : string := String "010"%char prefix.

Definition init : state :=
  {| fits := 0; broken := 0; hp_eol := (width' - start_at)%Z |}.

(** One iteration of the [while True] loop: the event received at
    [yield], the calls of [out] and the new state. *)
Definition step (st : state) (ev : event) : state * list chunk :=
  let emit s str := mkChunk s (broken st) str in
  let break_line hp indent :=
    let hp_eol1 := (hp + width' - indent)%Z in
    if bool_decide (broken st ≠ 0%Z) then
      ({| fits := fits st; broken := broken st;
          hp_eol := (hp_eol1 - len suffix)%Z |},
       [emit OSuffix suffix; emit ONewline newline;
        emit OIndent (spaces indent)])
    else
      ({| fits := fits st; broken := broken st; hp_eol := hp_eol1 |},
       [emit ONewline newline; emit OIndent (spaces indent)]) in
  match ev with
  | Text _ s => (st, [emit OText s])
  | Line hp indent =>
      if bool_decide (fits st ≠ 0%Z) then (st, [emit OSpace " "])
      else break_line hp indent
  | Break hp indent =>
      if bool_decide (fits st ≠ 0%Z) then (st, [])
      else break_line hp indent
  | GBegin hp =>
      if bool_decide (fits st ≠ 0%Z) then
        ({| fits := (fits st + 1)%Z; broken := broken st;
            hp_eol := hp_eol st |}, [])
      else if match hp with
              | Some h => (h <=? hp_eol st)%Z
              | None => false
              end then
        ({| fits := 1; broken := broken st; hp_eol := hp_eol st |}, [])
      else if bool_decide (broken st ≠ 0%Z) then
        ({| fits := fits st; broken := (broken st + 1)%Z;
            hp_eol := hp_eol st |}, [])
      else
        ({| fits := fits st; broken := 1;
            hp_eol := (hp_eol st - len suffix)%Z |}, [])
  | GEnd =>
      if bool_decide (fits st ≠ 0%Z) then
        ({| fits := (fits st - 1)%Z; broken := broken st;
            hp_eol := hp_eol st |}, [])
      else
        ({| fits := fits st; broken := (broken st - 1)%Z;
            hp_eol := hp_eol st |}, [])
  end.

(** The calls of [out] made while the events [evs] are sent, from [st]. *)
Fixpoint run_from (st : state) (evs : list event) : list chunk :=
  match evs with
  | [] => []
  | ev :: evs' => (step st ev).2 ++ run_from (step st ev).1 evs'
  end.

Definition run (evs : list event) : list chunk := run_from init evs.

(** What the sink has received. *)
Definition written (evs : list event) : string :=
  String.concat "" (c_str <$> run evs).
End renderer.

Section traces.
Variables (prefix suffix : string).

(** What one event can make the renderer write. *)
Inductive block : list chunk → Prop :=
| block_none : block []
| block_text b s : block [mkChunk OText b s]
| block_space b s : block [mkChunk OSpace b s]
| block_continued b ind :
    b ≠ 0%Z →
    block [mkChunk OSuffix b suffix; mkChunk ONewline b (newline prefix);
           mkChunk OIndent b ind]
| block_plain ind :
    block [mkChunk ONewline 0 (newline prefix); mkChunk OIndent 0 ind].

(** In a trace, every newline written with [broken] set comes right after
    the continuation marker, every other newline comes after something
    else, and the marker is written only with [broken] set and right
    before a newline. *)
Definition marked (tr : list chunk) : Prop :=
  ∀ l1 c l2, tr = l1 ++ c :: l2 →
    (c_site c = ONewline →
       c_str c = newline prefix ∧
       (c_broken c ≠ 0%Z →
          ∃ c', last l1 = Some c' ∧ c_site c' = OSuffix ∧ c_str c' = suffix) ∧
       (c_broken c = 0%Z →
          ∀ c', last l1 = Some c' → c_site c' ≠ OSuffix)) ∧
    (c_site c = OSuffix →
       c_broken c ≠ 0%Z ∧
       ∃ c', head l2 = Some c' ∧ c_site c' = ONewline).

End traces.

End Render.

(** ** Type constraints and validation *)

Definition rbind {A B} (m : result A) (k : A → result B) : result B :=
  match m with
  | Ok a => k a
  | Raise e => Raise e
  end.

Notation "'let+' x := m 'in' k" := (rbind m (fun x => k))
  (at level 10, x pattern, m at level 100, k at level 200).

(** [for x in xs: acc = f(acc, x)], stopping at the first exception. *)
Fixpoint foldlM {A B} (f : A → B → result A) (a : A) (xs : list B)
  : result A :=
  match xs with
  | [] => Ok a
  | x :: xs' => let+ a' := f a x in foldlM f a' xs'
  end.

(** What [transform.py] takes from modules that are not among the sources:
    the constraint collector and the validator of [typing.py], the
    [type_constraints] method of the terms in its two modes, and whether the
    text documents of [pretty.py] are strings.  The collector and the
    validator are mutable objects; their methods are state transformers that
    may raise. *)
Class Environment := {
  TypeConstraints : Type;
  TypeModel : Type;
  TypeVector : Type;
  Validator : Type;
  (** [typing.TypeConstraints()] *)
  new_constraints : TypeConstraints;
  (** [term.type_constraints(t)], [t] a collector *)
  collect : term → TypeConstraints → result TypeConstraints;
  (** [t.eq_types(a, b)] *)
  eq_types : term → term → TypeConstraints → result TypeConstraints;
  (** [t.sets.reps()] and [t.sets.rep(term)] *)
  sets_reps : TypeConstraints → list term;
  sets_rep : TypeConstraints → term → term;
  (** [r in t.specifics] *)
  in_specifics : TypeConstraints → term → bool;
  (** [t.constraints[r] != typing.BOOL] *)
  constraint_not_BOOL : TypeConstraints → term → bool;
  (** [t.default(r)] *)
  default_type : term → TypeConstraints → result TypeConstraints;
  (** [t.get_type_model()] *)
  get_type_model : TypeConstraints → result TypeModel;
  (** [typing.Validator(model, type_vector)] *)
  new_validator : TypeModel → TypeVector → result Validator;
  (** [V.eq_types(a, b)] *)
  validator_eq_types : term → term → Validator → result Validator;
  (** [term.type_constraints(V)], [V] a validator *)
  check : term → Validator → result Validator;
  (** whether the document [pretty.text(s)] is an instance of [str], so
      that [str.join] takes it for the string [s] *)
  text_is_str : bool
}.

(** A Python [set] of objects: its elements, one per identity. *)
Definition set_add (r : term) (s : list term) : list term :=
  if bool_decide (id_of r ∈ id_of <$> s) then s else s ++ [r].
Definition set_of (rs : list term) : list term :=
  foldl (fun s r => set_add r s) [] rs.
Definition set_discard (r : term) (s : list term) : list term :=
  filter (fun x => id_of x ≠ id_of r) s.
Definition set_mem (r : term) (s : list term) : bool :=
  bool_decide (id_of r ∈ id_of <$> s).

Section transform.
Context {E : Environment}.

(** The order in which [for term in reps] visits a set. *)
Variable iter_order : list term → list term.

Abbreviation Transform := (Transform TypeModel).

(** [Transform.subterms] *)
Definition Transform_subterms (self : Transform) : list term :=
  let seen : gset ident := ∅ in
  let '(from_src, seen) := L.subterms (t_src self) seen in
  let '(from_tgt, seen) := L.subterms (t_tgt self) seen in
  let from_pre := match t_pre self with
                  | None => []
                  | Some pre => (L.subterms pre seen).1
                  end in
  from_src ++ from_tgt ++ from_pre.

(** [type_constraints], down to [t.eq_types(self.src, self.tgt)]: the
    collector, [src_reps] and [defaultable]. *)
Definition gather_constraints (self : Transform)
  : result (TypeConstraints * list term * list term) :=
  let t := new_constraints in
  let seen : gset ident := ∅ in
  let '(from_src, seen) := L.subterms (t_src self) seen in
  let+ t := foldlM (fun t term => collect term t) t from_src in
  let src_reps := sets_reps t in
  let+ (t, defaultable, seen) :=
    match t_pre self with
    | Some pre =>
        let '(from_pre, seen) := L.subterms pre seen in
        let+ (t, defaultable) :=
          foldlM (fun '(t, defaultable) term =>
                    let+ t := collect term t in
                    Ok (t, if L.isinstance_Comparison_or_FunPred term
                           then defaultable ++ args term
                           else defaultable))
                 (t, []) from_pre in
        Ok (t, defaultable, seen)
    | None => Ok (t, [], seen)
    end in
  let '(from_tgt, seen) := L.subterms (t_tgt self) seen in
  let+ t := foldlM (fun t term => collect term t) t from_tgt in
  let+ t := eq_types (t_src self) (t_tgt self) t in
  Ok (t, src_reps, defaultable).

(** The type variables not unified with a variable from the source. *)
Definition new_reps (t : TypeConstraints) (src_reps : list term)
  : list term :=
  let reps := set_of (filter (fun r => negb (in_specifics t r)
                                       && constraint_not_BOOL t r = true)
                             (sets_reps t)) in
  foldl (fun reps r => set_discard (sets_rep t r) reps) reps src_reps.

(** The defaulting step. *)
Definition apply_defaults (t : TypeConstraints) (reps defaultable : list term)
  : result (TypeConstraints * list term) :=
  match reps with
  | [] => Ok (t, reps)
  | _ =>
      foldlM (fun '(t, reps) term =>
                let r := sets_rep t term in
                if set_mem r reps then
                  let+ t := default_type r t in
                  Ok (t, set_discard r reps)
                else Ok (t, reps))
             (t, reps) defaultable
  end.

(** [type_constraints] down to the defaulting step: the collector and what
    is left in [reps]. *)
Definition constraints_and_reps (self : Transform)
  : result (TypeConstraints * list term) :=
  let+ (t, src_reps, defaultable) := gather_constraints self in
  apply_defaults t (new_reps t src_reps) defaultable.

(** [[fmt.operand(term) for term in reps]] on a new Formatter. *)
Definition ambiguous_docs (reps : list term) : result (list Doc) :=
  match mapM (fun term => operand term 0 None) (iter_order reps)
             Formatter_init with
  | Ok (docs, _) => Ok docs
  | Raise e => Raise e
  end.

(** An item of [str.join], as a string if it is one.  A [Formatted] is an
    object of the class this file defines, with slots and an [__init__] of
    its own, and is no string; the operand routine gives nothing but
    [Formatted] and [pretty.text] documents when it is called without a
    type. *)
Definition as_str (d : Doc) : option string :=
  match d with
  | text s => if text_is_str then Some s else None
  | _ => None
  end.

(** [sep.join(items)] of Python 2: every item has to be a string, or the
    call raises [TypeError] at the first that is not. *)
Fixpoint join_items (k : nat) (items : list Doc) : result (list string) :=
  match items with
  | [] => Ok []
  | d :: items' =>
      match as_str d with
      | None => Raise (TypeError ("sequence item " +:+ pretty k
                                  +:+ ": expected string"))
      | Some s => let+ ss := join_items (S k) items' in Ok (s :: ss)
      end
  end.

Definition str_join (sep : string) (items : list Doc) : result string :=
  let+ ss := join_items 0 items in Ok (String.concat sep ss).

(** [Transform.type_constraints] *)
Definition type_constraints (self : Transform) : result TypeConstraints :=
  let+ (t, reps) := constraints_and_reps self in
  match reps with
  | [] => Ok t
  | _ =>
      let+ docs := ambiguous_docs reps in
      let+ joined := str_join ", " docs in
      Raise (TypingError ("Ambiguous type for " +:+ joined))
  end.

(** [Transform.abstract_type_model]; the Transform comes back with its
    [_model] attribute set. *)
Definition abstract_type_model (self : Transform)
  : result (TypeModel * Transform) :=
  match t_model self with
  | Some model => Ok (model, self)
  | None =>
      let+ t := type_constraints self in
      let+ model := get_type_model t in
      Ok (model, mkTransform (t_name self) (t_pre self) (t_src self)
                             (t_tgt self) (Some model))
  end.

(** The body of the [try] block of [validate_model]. *)
Definition validation_checks (self : Transform) (V : Validator)
  : result Validator :=
  let+ V := validator_eq_types (t_src self) (t_tgt self) V in
  foldlM (fun V t => check t V) V (Transform_subterms self).

(** [Transform.validate_model] *)
Definition validate_model (self : Transform) (type_vector : TypeVector)
  : result (bool * Transform) :=
  let+ (model, self) := abstract_type_model self in
  let+ V := new_validator model type_vector in
  match validation_checks self V with
  | Ok _ => Ok (true, self)
  | Raise (TypingError _) => Ok (false, self)
  | Raise e => Raise e
  end.
End transform.

(** [s] occurs in [msg]. *)
Definition occurs_in (s msg : string) : Prop :=
  ∃ before after, msg = before +:+ s +:+ after.

(** The class of an exception, its message left out. *)
Definition exn_class (e : exn) : string :=
  match e with
  | NotImplementedError _ => "NotImplementedError"
  | KeyError _ => "KeyError"
  | AttributeError => "AttributeError"
  | TypingError _ => "typing.Error"
  | TypeError _ => "TypeError"
  | LoopBound => "LoopBound"
  end.

(** The outcome of a call with messages left out: the value returned, or
    the class of the exception raised. *)
Inductive verdict (T : Type) :=
| Returned (t : T)
| Raised (cls : string).
Arguments Returned {T} t.
Arguments Raised {T} cls.

Definition verdict_of {T} (r : result T) : verdict T :=
  match r with
  | Ok t => Returned t
  | Raise e => Raised (exn_class e)
  end.

(** ** Concrete graphs used as examples *)

Module Ex.

Definition x : term := Node 1 (Input "%x") [].
Definition y : term := Node 2 (Input "%y") [].

(** [%a = add %x, %y], reachable from the root only through [width(%a)]. *)
Definition hidden : term := Node 3 (BinaryOperator "%a" "add" [] None) [x; y].
Definition width_of_hidden : term := Node 4 (FunCnxp "width") [hidden].
(** [%r = shl %x, width(%a)] *)
Definition shl_root : term :=
  Node 5 (BinaryOperator "%r" "shl" [] None) [x; width_of_hidden].

(** [%m = mul %x, %y]; [%r = add %m, %m]: a shared instruction operand. *)
Definition m : term := Node 3 (BinaryOperator "%m" "mul" [] None) [x; y].
Definition add_mm : term := Node 4 (BinaryOperator "%r" "add" [] None) [m; m].

(** Target [%r = add %x, C1 + 1] with precondition [C1 + 1 != 0], the
    expression [C1 + 1] being one shared object. *)
Definition C1 : term := Node 10 (Symbol "C1") [].
Definition one : term := Node 11 (Literal "1") [].
Definition C1_plus_1 : term := Node 12 (BinaryCnxp "+") [C1; one].
Definition tgt_add : term :=
  Node 13 (BinaryOperator "%r" "add" [] None) [x; C1_plus_1].
Definition zero : term := Node 14 (Literal "0") [].
Definition pre_ne : term := Node 15 (Comparison "ne") [C1_plus_1; zero].

(** Source [%r = add %x, 0], target [%t = or %x, 0] with the instruction
    [%t] as its root. *)
Definition src_add0 : term :=
  Node 20 (BinaryOperator "%r" "add" [] None) [x; zero].
Definition tgt_or0 : term :=
  Node 21 (BinaryOperator "%t" "or" [] None) [x; zero].

End Ex.

Module ExCnxp.

Definition a : term := Node 1 (Symbol "C1") [].
Definition b : term := Node 2 (Symbol "C2") [].
Definition c : term := Node 3 (Symbol "C3") [].
(** [C1 + C2] and [C1 * C2] *)
Definition sum : term := Node 4 (BinaryCnxp "+") [a; b].
Definition prod : term := Node 5 (BinaryCnxp "*") [a; b].
(** [C1 * C2 + C3] and [(C1 + C2) * C3] *)
Definition sum_of_prod : term := Node 6 (BinaryCnxp "+") [prod; c].
Definition prod_of_sum : term := Node 7 (BinaryCnxp "*") [sum; c].
(** The precondition [C1 + C2 == C3] *)
Definition sum_eq : term := Node 8 (Comparison "eq") [sum; c].

End ExCnxp.

Module ExRender.
Import Render.

(** A group that does not fit and holds one line, then a line outside of
    every group. *)
Definition broken_then_top : list event :=
  [GBegin None; Line 0 2; GEnd; Line 0 0].

End ExRender.

(** ** A small constraint collector, for the examples *)

Module SimpleTyping.

(** Modelled from the spec: a collector with the interface the spec lists
    for [typing.py] (which is not among the sources): a union-find over the
    terms seen, a set of representatives marked specific and a set of
    representatives constrained to boolean.  Only the examples use it; the
    theorems hold for every [Environment]. *)
Record collector := mkCollector {
  members : list term;
  rep_of : gmap ident term;
  specifics : gset ident;
  bools : gset ident
}.

Definition empty : collector :=
  {| members := []; rep_of := ∅; specifics := ∅; bools := ∅ |}.

Definition rep (t : collector) (x : term) : term :=
  default x (rep_of t !! id_of x).

Definition add (x : term) (t : collector) : collector :=
  if decide (id_of x ∈ dom (rep_of t)) then t
  else {| members := members t ++ [x];
          rep_of := <[ id_of x := x ]> (rep_of t);
          specifics := specifics t;
          bools := bools t |}.

(** Unify the classes of [a] and [b]; the representative of [a] stays. *)
Definition union (a b : term) (t : collector) : collector :=
  let t := add b (add a t) in
  let ra := rep t a in
  let rb := rep t b in
  if decide (id_of ra = id_of rb) then t
  else {| members := members t;
          rep_of := (fun r => if decide (id_of r = id_of rb) then ra else r)
                    <$> rep_of t;
          specifics := if decide (id_of rb ∈ specifics t)
                       then {[ id_of ra ]} ∪ specifics t else specifics t;
          bools := if decide (id_of rb ∈ bools t)
                   then {[ id_of ra ]} ∪ bools t else bools t |}.

Definition set_bool (x : term) (t : collector) : collector :=
  let t := add x t in
  {| members := members t; rep_of := rep_of t; specifics := specifics t;
     bools := {[ id_of (rep t x) ]} ∪ bools t |}.

Definition set_specific (x : term) (t : collector) : collector :=
  let t := add x t in
  {| members := members t; rep_of := rep_of t;
     specifics := {[ id_of (rep t x) ]} ∪ specifics t;
     bools := bools t |}.

Definition reps (t : collector) : list term :=
  foldl (fun s r => if bool_decide (id_of r ∈ id_of <$> s) then s
                    else s ++ [r])
        [] (rep t <$> members t).

(** The constraints a term records: operands of an arithmetic operation
    share the type of the result, a comparison is boolean and its operands
    share a type, a select has a boolean selector. *)
Definition constraints_of (x : term) (t : collector) : collector :=
  match label_of x, args x with
  | BinaryOperator _ _ _ ty, [a; b] =>
      let t := union x b (union x a t) in
      match ty with Some _ => set_specific x t | None => t end
  | ConversionInst _ _ _ _, [a] => add a (add x t)
  | (IcmpInst _ _ _ | FcmpInst _ _ _ _ | Comparison _), [a; b] =>
      union a b (set_bool x t)
  | SelectInst _ _ _, [s; a; b] => union x b (union x a (set_bool s t))
  | BinaryCnxp _, [a; b] => union x b (union x a t)
  | UnaryCnxp _, [a] => union x a t
  | (FunPred _ | AndPred | OrPred | NotPred), _ => set_bool x t
  | _, _ => add x t
  end.

(** A type vector gives a type name to representatives; the validator
    holds the model and the vector. *)
Definition vector := gmap ident string.
Definition validator : Type := collector * vector.

Definition type_of (V : validator) (x : term) : option string :=
  V.2 !! id_of (rep V.1 x).

Definition same_type (a b : term) (V : validator) : result validator :=
  if decide (type_of V a = type_of V b) then Ok V
  else Raise (TypingError "type mismatch").

Definition has_type (x : term) (V : validator) : result validator :=
  match type_of V x with
  | Some _ => Ok V
  | None => Raise (TypingError "no type")
  end.

Definition check_term (x : term) (V : validator) : result validator :=
  match label_of x, args x with
  | BinaryOperator _ _ _ _, [a; b] =>
      let+ V := has_type x V in
      let+ V := same_type x a V in
      same_type x b V
  | (IcmpInst _ _ _ | FcmpInst _ _ _ _ | Comparison _), [a; b] =>
      same_type a b V
  | _, _ => Ok V
  end.

(** Unifying the roots: a class marked specific does not unify with a
    boolean one. *)
Definition unify_roots (a b : term) (t : collector) : result collector :=
  let t := add b (add a t) in
  let specific x := bool_decide (id_of (rep t x) ∈ specifics t) in
  let boolean x := bool_decide (id_of (rep t x) ∈ bools t) in
  if (specific a && boolean b) || (boolean a && specific b)
  then Raise (TypingError "cannot unify")
  else Ok (union a b t).

#[global] Instance environment : Environment := {|
  TypeConstraints := collector;
  TypeModel := collector;
  TypeVector := vector;
  Validator := validator;
  new_constraints := empty;
  collect := fun x t => Ok (constraints_of x t);
  eq_types := unify_roots;
  sets_reps := reps;
  sets_rep := rep;
  in_specifics := fun t r => bool_decide (id_of r ∈ specifics t);
  constraint_not_BOOL := fun t r => bool_decide (id_of r ∉ bools t);
  default_type := fun r t => Ok (set_specific r t);
  get_type_model := fun t => Ok t;
  new_validator := fun model vec => Ok (model, vec);
  validator_eq_types := same_type;
  check := check_term;
  text_is_str := false
|}.

(** [for term in reps] in the order the elements were added. *)
Definition insertion_order (l : list term) : list term := l.

(** [%r = add %x, 0  =>  %t = or %x, 0] *)
Definition well_typed : Transform collector :=
  mkTransform "add-zero" None Ex.src_add0 Ex.tgt_or0 None.

(** [%r = add %x, %y  =>  %t = select (icmp eq %p, %q), %x, %y]: the
    target compares two inputs that the source does not mention. *)
Definition p : term := Node 30 (Input "%p") [].
Definition q : term := Node 31 (Input "%q") [].
Definition src_add : term :=
  Node 32 (BinaryOperator "%r" "add" [] None) [Ex.x; Ex.y].
Definition cmp_pq : term := Node 33 (IcmpInst "%c" "eq" None) [p; q].
Definition tgt_select : term :=
  Node 34 (SelectInst "%t" None None) [cmp_pq; Ex.x; Ex.y].
Definition ambiguous : Transform collector :=
  mkTransform "fresh-compare" None src_add tgt_select None.

(** [%r = add i8 %x, %y  =>  %c = icmp eq %x, %y]: an integer source and a
    boolean target. *)
Definition src_add_i8 : term :=
  Node 35 (BinaryOperator "%r" "add" [] (Some "i8")) [Ex.x; Ex.y].
Definition tgt_icmp : term := Node 36 (IcmpInst "%c" "eq" None) [Ex.x; Ex.y].
Definition mismatch : Transform collector :=
  mkTransform "int-to-bool" None src_add_i8 tgt_icmp None.

End SimpleTyping.

(** ** Invariants of the walks and of the Formatter *)

(** The state of the [get_insts] walk while the objects of [P] are being
    expanded: [seen] is [P] plus the listed instructions, and every listed
    instruction comes after all that it reaches. *)
Record insts_inv (roots : list term) (P : gset ident)
    (st : list term * gset ident) : Prop := {
  ii_seen : st.2 = P ∪ list_to_set (id_of <$> st.1);
  ii_disj : ∀ x, x ∈ st.1 → id_of x ∉ P;
  ii_nodup : NoDup (id_of <$> st.1);
  ii_occ : ∀ x, x ∈ st.1 → occurs roots x;
  ii_topo : ∀ l1 w l2, st.1 = l1 ++ w :: l2 →
              ∀ x, ireach w x → x ∈ l1 ++ [w]
}.

(** The state of the [count_uses] walk while the objects of [P] are being
    expanded: [d] holds the keys of the counter when [count_uses] was
    called, [st.2] logs the expansions so far. *)
Record uses_inv (roots : list term) (d P : gset ident)
    (st : gmap ident Z * list term) : Prop := {
  ui_nodup : NoDup (id_of <$> st.2);
  ui_occ : ∀ x, x ∈ st.2 → occurs roots x;
  ui_d : d ⊆ dom st.1;
  ui_log_dom : ∀ x, x ∈ st.2 → id_of x ∈ P ∨ id_of x ∈ dom st.1;
  ui_dom_log : ∀ i, i ∈ dom st.1 → i ∈ d ∨ ∃ x, x ∈ st.2 ∧ id_of x = i;
  ui_closed : ∀ w x, w ∈ st.2 → id_of w ∉ P → fresh_reach d w x → x ∈ st.2
}.

(** A [seen] set that contains, with every object, all that it reaches. *)
Definition down_closed (roots : list term) (S : gset ident) : Prop :=
  ∀ u w, occurs roots u → id_of u ∈ S → subterm w u → id_of w ∈ S.

(** The naming state is sound: every assigned name is recorded as used, and
    no name is assigned to two identities. *)
Record names_ok (fmt : Formatter) : Prop := {
  no_recorded : ∀ i n, ids fmt !! i = Some n → n ∈ names fmt;
  no_inj : ∀ i j n, ids fmt !! i = Some n → ids fmt !! j = Some n → i = j
}.

(** Assignments are permanent. *)
Definition ids_extend (fmt fmt' : Formatter) : Prop :=
  ∀ i n, ids fmt !! i = Some n → ids fmt' !! i = Some n.

(** A computation only adds assignments to the Formatter and keeps it
    sound. *)
Definition preserves {A} (m : M A) : Prop :=
  ∀ fmt a fmt', m fmt = Ok (a, fmt') →
    ids_extend fmt fmt' ∧ (names_ok fmt → names_ok fmt').

(** A computation that returns. *)
Definition total {A} (m : M A) : Prop :=
  ∀ fmt, ∃ a fmt', m fmt = Ok (a, fmt').

(** The document the operand routine gives for [x] when called without a
    type on a Formatter that has not named [x]. *)
Definition operand_shape (x : term) (d : Doc) : Prop :=
  if L.isinstance_Instruction x then ∃ n, d = text n else d = Formatted x 0.

(** ** Further notions used in the statements below *)

(** The state of the [L.subterms] walk started on the [seen] set [S0]:
    [seen] is [S0] plus the yielded terms, and every yielded term comes
    after all that it reaches, as far as [S0] does not hold it already. *)
Record post_inv (roots : list term) (S0 : gset ident)
    (st : list term * gset ident) : Prop := {
  pi_seen : st.2 = S0 ∪ list_to_set (id_of <$> st.1);
  pi_occ : ∀ x, x ∈ st.1 → occurs roots x;
  pi_post : ∀ l1 w l2, st.1 = l1 ++ w :: l2 →
              ∀ u, subterm u w → id_of u ∈ S0 ∨ u ∈ l1 ++ [w]
}.

(** The identities of the operands of the objects of [ps]. *)
Definition operand_ids (ps : list term) : gset ident :=
  list_to_set (id_of <$> mjoin (args <$> ps)).

(** [itertools.chain(L.subterms(r1, seen), L.subterms(r2, seen), ...)] over
    one shared [seen] set. *)
Fixpoint subterms_chain (rs : list term) (seen : gset ident)
  : list term * gset ident :=
  match rs with
  | [] => ([], seen)
  | r :: rs' =>
      let a := L.subterms r seen in
      let b := subterms_chain rs' a.2 in
      (a.1 ++ b.1, b.2)
  end.

(** The roots of a Transform. *)
Definition Transform_roots {Model} (self : Transform Model) : list term :=
  t_src self :: t_tgt self
  :: match t_pre self with Some pre => [pre] | None => [] end.

Module ExShared.

(** [%a = add K + 1, (K + 1) * 2]; [%r = mul %a, (K + 1) * 2]: the
    expression [K + 1] is shared by [%a] and by [(K + 1) * 2], which is
    shared by [%a] and [%r]. *)
Definition k : term := Node 30 (Symbol "K") [].
Definition one : term := Node 31 (Literal "1") [].
Definition two : term := Node 32 (Literal "2") [].
Definition inner : term := Node 33 (BinaryCnxp "+") [k; one].
Definition outer : term := Node 34 (BinaryCnxp "*") [inner; two].
Definition a : term :=
  Node 36 (BinaryOperator "%a" "add" [] None) [inner; outer].
Definition tgt : term :=
  Node 37 (BinaryOperator "%r" "mul" [] None) [a; outer].

End ExShared.

(** A computation raises nothing but exceptions that satisfy [P]. *)
Definition raises_only {A} (P : exn → Prop) (m : M A) : Prop :=
  ∀ fmt e, m fmt = Raise e → P e.

(** The document is a group around a parenthesised body, as the printers of
    the predicates build it. *)
Definition parenthesized_group (d : Doc) : bool :=
  match d with
  | group (seq [l; _; r]) => is_text "(" l && is_text ")" r
  | _ => false
  end.

(** [visited p t u]: the local [gather] of the [BinaryCnxp] printer, called
    on [t] for the precedence [p], comes to call itself on [u]: it goes
    through expressions of the precedence [p], into [term.x] always and into
    [term.y] unless the operator is left-associative only. *)
Inductive visited (p : Z) : term → term → Prop :=
| visited_here t : visited p t t
| visited_x i code x y u :
    dict_get _bin_cnxp_prec code = Some p → visited p x u →
    visited p (Node i (BinaryCnxp code) [x; y]) u
| visited_y i code x y u :
    dict_get _bin_cnxp_prec code = Some p → in_lassoc code = false →
    visited p y u →
    visited p (Node i (BinaryCnxp code) [x; y]) u.

(** The exceptions of [gather]: the [KeyError] of an expression of the
    chain whose operator is not in the precedence table, and the
    [AttributeError] of an expression of the chain, of the precedence [p],
    that does not have the two operands [term.x] and [term.y]. *)
Definition gather_exn (p : Z) (t : term) (e : exn) : Prop :=
  (∃ key u, e = KeyError key ∧ visited p t u ∧
            label_of u = BinaryCnxp key ∧
            dict_get _bin_cnxp_prec key = None) ∨
  (e = AttributeError ∧
   ∃ u cu, visited p t u ∧ label_of u = BinaryCnxp cu ∧
           dict_get _bin_cnxp_prec cu = Some p ∧ length (args u) ≠ 2).

(** The number of operands the printer of a class reads by name ([term.x],
    [term.y], [term.arg], ...); [None] for a printer that reads none or
    takes them all. *)
Definition operands_read (l : label) : option nat :=
  match l with
  | BinaryOperator _ _ _ _ | IcmpInst _ _ _ | FcmpInst _ _ _ _
  | BinaryCnxp _ | Comparison _ => Some 2
  | ConversionInst _ _ _ _ | UnaryCnxp _ | NotPred => Some 1
  | SelectInst _ _ _ => Some 3
  | _ => None
  end.

(** The exceptions of the printers, class by class: the fallback of the
    dispatch raises [NotImplementedError] with the class name; the
    [BinaryCnxp] printer raises the [KeyError] of its own operator, or what
    [gather] raises; the [Comparison] printer raises the [KeyError] of its
    operator; every other printer raises nothing but the [AttributeError]
    of an operand it reads and the object does not have. *)
Definition printer_exn (t : term) (e : exn) : Prop :=
  match label_of t with
  | Unregistered cls => e = NotImplementedError ("Can't format " +:+ cls)
  | BinaryCnxp code =>
      match dict_get _bin_cnxp_prec code with
      | None => e = KeyError code
      | Some p => gather_exn p t e
      end
  | Comparison op =>
      (length (args t) = 2 ∧ dict_get _cmp_codes op = None ∧ e = KeyError op)
      ∨ (length (args t) ≠ 2 ∧ e = AttributeError)
  | l => ∃ k, operands_read l = Some k ∧ length (args t) ≠ k ∧
              e = AttributeError
  end.

(** The terms the local [gather] hands to [fmt.operand], in the order of
    the calls, and the documents of these operands within the chain that
    [gather] returns. *)
Fixpoint chain_operands (op_prec : Z) (t : term) : list term :=
  match t with
  | Node _ (BinaryCnxp code) ts =>
      match dict_get _bin_cnxp_prec code with
      | Some p =>
          if negb (op_prec =? p)%Z then [t]
          else
            match ts with
            | [x; y] =>
                chain_operands op_prec x
                ++ (if in_lassoc code then [y] else chain_operands op_prec y)
            | _ => []
            end
      | None => []
      end
  | _ => [t]
  end.

Fixpoint chain_docs (d : Doc) : list Doc :=
  match d with
  | seq [dx; line; text _; text _; dy] => chain_docs dx ++ chain_docs dy
  | _ => [d]
  end.

(** What [fmt.operand(leaf, op_prec)] gives: the suspended [leaf], which
    is then no Instruction, or the name the Formatter holds for it. *)
Definition leaf_doc (op_prec : Z) (fmt' : Formatter) (leaf : term)
    (dl : Doc) : Prop :=
  (dl = Formatted leaf op_prec ∧ L.isinstance_Instruction leaf = false) ∨
  (∃ n, dl = text n ∧ ids fmt' !! id_of leaf = Some n).

Module ExChain.

(** [C3 * (C1 + C2)] and [C3 + C1 * C2]: a nested expression as the right
    operand. *)
Definition prod_right : term :=
  Node 9 (BinaryCnxp "*") [ExCnxp.c; ExCnxp.sum].
Definition sum_right : term :=
  Node 10 (BinaryCnxp "+") [ExCnxp.c; ExCnxp.prod].

End ExChain.

(** ** Event sequences of the renderer *)

#[global] Instance site_eq_dec : EqDecision Render.site.
Proof. solve_decision. Defined.

(** The local variables of the generator after the events [evs]. *)
Definition state_after (width : Z) (prefix suffix : string)
    (st : Render.state) (evs : list Render.event) : Render.state :=
  foldl (fun st ev => (Render.step width prefix suffix st ev).1) st evs.

(** The strings of the text events, in order. *)
Fixpoint texts (evs : list Render.event) : list string :=
  match evs with
  | [] => []
  | Render.Text _ s :: evs' => s :: texts evs'
  | _ :: evs' => texts evs'
  end.

(** The calls of [out] that put the events on the line at hand: a text
    event its text, a line one space, a break and the ends of groups
    nothing; [b] is the value of [broken] at the calls. *)
Fixpoint one_line (b : Z) (evs : list Render.event) : list Render.chunk :=
  match evs with
  | [] => []
  | Render.Text _ s :: evs' => Render.mkChunk Render.OText b s :: one_line b evs'
  | Render.Line _ _ :: evs' =>
      Render.mkChunk Render.OSpace b " " :: one_line b evs'
  | _ :: evs' => one_line b evs'
  end.

(** The number of groups that are open after [evs], [depth] of them being
    open before; [None] if a group-end comes with no group open. *)
Fixpoint depth_after (depth : nat) (evs : list Render.event) : option nat :=
  match evs with
  | [] => Some depth
  | Render.GBegin _ :: evs' => depth_after (S depth) evs'
  | Render.GEnd :: evs' =>
      match depth with
      | 0 => None
      | S depth' => depth_after depth' evs'
      end
  | _ :: evs' => depth_after depth evs'
  end.

(** ** The layout of [format_parts] *)

(** [name_width] and [fmt_decl] of [format_parts]. *)
Definition name_width (p : parts) : Z :=
  foldr Z.max 0%Z ((fun d : string * Doc => len d.1)
                   <$> (srci p ++ cdefs p ++ tgti p)).

Definition fmt_decl (name_width : Z) (d : string * Doc) : Doc :=
  nest (name_width + 3)
       (seq [text d.1; text (spaces (name_width - len d.1)); text " = ";
             d.2]).

(** ** The walk of [type_constraints] *)

(** The terms [Transform.type_constraints] calls [term.type_constraints(t)]
    on, in the order of the calls: the source, the precondition if there is
    one, the target, over one [seen] set. *)
Definition constraint_walk {Model} (self : Transform Model) : list term :=
  let '(from_src, seen) := L.subterms (t_src self) ∅ in
  let '(from_pre, seen) := match t_pre self with
                           | Some pre => L.subterms pre seen
                           | None => ([], seen)
                           end in
  let '(from_tgt, seen) := L.subterms (t_tgt self) seen in
  from_src ++ from_pre ++ from_tgt.

Module ExPre.

(** [Pre: C1 + 1 != 0;  %r = add %x, 0  =>  %r = add %x, C1 + 1] *)
Definition with_pre : Transform SimpleTyping.collector :=
  mkTransform "add-const" (Some Ex.pre_ne) Ex.src_add0 Ex.tgt_add None.

End ExPre.

Module ExTarget.

(** [%n = mul %x, %y]; [%t = sub %n, %x]: a target with an instruction of
    its own below the root. *)
Definition n : term := Node 40 (BinaryOperator "%n" "mul" [] None) [Ex.x; Ex.y].
Definition tgt : term := Node 41 (BinaryOperator "%t" "sub" [] None) [n; Ex.x].


End ExTarget.

(** ** The walk of [validate_model] *)

(** [for x in xs: a = f(a, x)] runs through with no exception, from [a] to
    [a']. *)
Inductive folds {A B} (f : A → B → result A) : A → list B → A → Prop :=
| folds_nil a : folds f a [] a
| folds_cons a x a' xs a'' :
    f a x = Ok a' → folds f a' xs a'' → folds f a (x :: xs) a''.

Section validation.
Context {E : Environment}.

(** Every check of [ts] goes through, one after the other on the validator
    as the one before has left it. *)
Definition checked (V : Validator) (ts : list term) (V' : Validator) : Prop :=
  folds (fun V t => check t V) V ts V'.

(** The first check of [ts] that raises, raises [e]. *)
Definition check_raises (V : Validator) (ts : list term) (e : exn) : Prop :=
  ∃ l1 t l2 V', ts = l1 ++ t :: l2 ∧ checked V l1 V' ∧ check t V' = Raise e.

(** The unification of source and target, or else the first check that
    raises among those of the terms of [Transform.subterms], raises [e]. *)
Definition validation_raises (self : Transform TypeModel) (V : Validator)
    (e : exn) : Prop :=
  validator_eq_types (t_src self) (t_tgt self) V = Raise e ∨
  ∃ V1, validator_eq_types (t_src self) (t_tgt self) V = Ok V1 ∧
        check_raises V1 (Transform_subterms self) e.

End validation.

(** ** Two runs of [type_constraints] *)

(** Two calls end alike: both return, with results that [R] relates, or
    both raise an exception of the same class. *)
Definition same_outcome {A B} (R : A → B → Prop)
    (r1 : result A) (r2 : result B) : Prop :=
  match r1, r2 with
  | Ok a, Ok b => R a b
  | Raise e1, Raise e2 => exn_class e1 = exn_class e2
  | _, _ => False
  end.

(** The collectors of two runs hold structurally equivalent partitions, as
    far as [transform.py] can tell them apart: every term has the same
    representative, so the classes are the same; [sets.reps()] yields the
    same representatives, each once, in an order of its own in either run;
    and a representative carries the same constraints, read through
    [r in t.specifics] and [t.constraints[r] != typing.BOOL]. *)
Definition same_partition (E1 E2 : Environment)
    (t1 : @TypeConstraints E1) (t2 : @TypeConstraints E2) : Prop :=
  (∀ x, @sets_rep E1 t1 x = @sets_rep E2 t2 x) ∧
  @sets_reps E1 t1 ≡ₚ @sets_reps E2 t2 ∧
  NoDup (id_of <$> @sets_reps E1 t1) ∧
  (∀ r, @in_specifics E1 t1 r = @in_specifics E2 t2 r) ∧
  (∀ r, @constraint_not_BOOL E1 t1 r = @constraint_not_BOOL E2 t2 r).

(** The classes of two collectors are the same sets of terms. *)
Definition same_classes (E1 E2 : Environment)
    (t1 : @TypeConstraints E1) (t2 : @TypeConstraints E2) : Prop :=
  ∀ x y, id_of (@sets_rep E1 t1 x) = id_of (@sets_rep E1 t1 y) ↔
         id_of (@sets_rep E2 t2 x) = id_of (@sets_rep E2 t2 y).

(** The collectors are alike and the sets of type variables hold the same
    elements; the collectors are alike, [src_reps] holds the same elements
    and [defaultable] is the same list. *)
Definition alike2 (E1 E2 : Environment)
    (R : @TypeConstraints E1 → @TypeConstraints E2 → Prop)
    (a1 : @TypeConstraints E1 * list term)
    (a2 : @TypeConstraints E2 * list term) : Prop :=
  R a1.1 a2.1 ∧ a1.2 ≡ₚ a2.2.

Definition alike3 (E1 E2 : Environment)
    (R : @TypeConstraints E1 → @TypeConstraints E2 → Prop)
    (a1 : @TypeConstraints E1 * list term * list term)
    (a2 : @TypeConstraints E2 * list term * list term) : Prop :=
  R a1.1.1 a2.1.1 ∧ a1.1.2 ≡ₚ a2.1.2 ∧ a1.2 = a2.2.

(** One Transform in two runs: the cached model apart, the attributes are
    the same objects. *)
Definition same_transform {M1 M2} (s1 : Transform M1) (s2 : Transform M2)
  : Prop :=
  t_name s1 = t_name s2 ∧ t_pre s1 = t_pre s2 ∧
  t_src s1 = t_src s2 ∧ t_tgt s1 = t_tgt s2.

(** The run gets to [raise typing.Error('Ambiguous type for ' ...)]: type
    variables are left in [reps] after the defaulting. *)
Definition ambiguous {E : Environment} (self : Transform TypeModel) : Prop :=
  ∃ t reps, constraints_and_reps self = Ok (t, reps) ∧ reps ≠ [].

Module ExRuns.

(** The collector of the examples in a run where [sets.reps()] yields the
    representatives in the opposite order. *)
Definition reversed : Environment := {|
  TypeConstraints := SimpleTyping.collector;
  TypeModel := SimpleTyping.collector;
  TypeVector := SimpleTyping.vector;
  Validator := SimpleTyping.validator;
  new_constraints := SimpleTyping.empty;
  collect := fun x t => Ok (SimpleTyping.constraints_of x t);
  eq_types := SimpleTyping.unify_roots;
  sets_reps := fun t => reverse (SimpleTyping.reps t);
  sets_rep := SimpleTyping.rep;
  in_specifics := fun t r => bool_decide (id_of r ∈ SimpleTyping.specifics t);
  constraint_not_BOOL :=
    fun t r => bool_decide (id_of r ∉ SimpleTyping.bools t);
  default_type := fun r t => Ok (SimpleTyping.set_specific r t);
  get_type_model := fun t => Ok t;
  new_validator := fun model vec => Ok (model, vec);
  validator_eq_types := SimpleTyping.same_type;
  check := SimpleTyping.check_term;
  text_is_str := false
|}.

(** [Pre: C2 != C3;  %r = add %x, 0  =>  %t = or %x, 0]: the precondition
    compares two constants that nothing ties to the source, so their type
    variable is new and is defaulted. *)
Definition C2 : term := Node 50 (Symbol "C2") [].
Definition C3 : term := Node 51 (Symbol "C3") [].
Definition pre_ne : term := Node 52 (Comparison "ne") [C2; C3].
Definition defaulted : Transform SimpleTyping.collector :=
  mkTransform "defaulted" (Some pre_ne) Ex.src_add0 Ex.tgt_or0 None.

End ExRuns.

(* ===================================================================== *)
(** * Part II: lemmas and theorems                                        *)
(* ===================================================================== *)

(** ** Terms: induction, equality, reachability *)

Lemma term_ind_args (P : term → Prop) :
  (∀ i l ts, Forall P ts → P (Node i l ts)) → ∀ t, P t.
Proof.
  intros Hnode. fix IH 1. intros [i l ts]. apply Hnode.
  induction ts as [|a ts IHts]; constructor; [apply IH | exact IHts].
Qed.

Lemma term_eqb_eq a b : term_eqb a b = true ↔ a = b.
Proof.
  revert b. induction a as [i l xs IH] using term_ind_args.
  intros [j k ys]. simpl.
  rewrite !andb_true_iff, !bool_decide_eq_true.
  assert (Hgo : ∀ ys,
    (fix go (xs ys : list term) : bool :=
       match xs, ys with
       | [], [] => true
       | x :: xs', y :: ys' => term_eqb x y && go xs' ys'
       | _, _ => false
       end) xs ys = true ↔ xs = ys).
  { clear -IH. induction IH as [|x xs Hx _ IHxs]; intros [|y ys].
    - split; reflexivity.
    - split; discriminate.
    - split; discriminate.
    - rewrite andb_true_iff, Hx, IHxs. split; [intros [-> ->]; reflexivity|].
      intros [= -> ->]. split; reflexivity. }
  rewrite Hgo. split; [intros [[-> ->] ->]; reflexivity|].
  intros [= -> -> ->]. repeat split.
Qed.

Lemma subterm_trans u v t : subterm u v → subterm v t → subterm u t.
Proof.
  intros Huv Hvt. induction Hvt as [t|v a t Ha Hva IH]; [exact Huv|].
  eapply subterm_arg; [exact Ha|]. apply IH, Huv.
Qed.

Lemma subterm_inv u t : subterm u t → u = t ∨ strict_subterm u t.
Proof.
  intros [t'|u' a t' Ha Hu]; [left; reflexivity|].
  right. exists a. split; assumption.
Qed.

Lemma strict_subterm_subterm u t : strict_subterm u t → subterm u t.
Proof. intros (a & Ha & Hu). eapply subterm_arg; eassumption. Qed.

Lemma term_size_arg a ts : a ∈ ts → term_size a ≤ sum_list (term_size <$> ts).
Proof.
  induction 1 as [a ts|a b ts _ IH]; rewrite fmap_cons; cbn [sum_list_with];
    unfold id at 1; lia.
Qed.

Lemma term_size_Node i l ts :
  term_size (Node i l ts) = S (sum_list (term_size <$> ts)).
Proof. reflexivity. Qed.

Lemma subterm_size u t : subterm u t → term_size u ≤ term_size t.
Proof.
  induction 1 as [t|u a t Ha Hu IH]; [lia|].
  destruct t as [i l ts]. rewrite term_size_Node.
  cbn [args] in Ha. apply term_size_arg in Ha. lia.
Qed.

Lemma strict_subterm_size u t : strict_subterm u t → term_size u < term_size t.
Proof.
  intros (a & Ha & Hu). apply subterm_size in Hu.
  destruct t as [i l ts]. rewrite term_size_Node.
  cbn [args] in Ha. apply term_size_arg in Ha. lia.
Qed.

Lemma subterm_occurrences u t : subterm u t ↔ u ∈ occurrences t.
Proof.
  split.
  - induction 1 as [[i l ts]|u a [i l ts] Ha Hu IH]; simpl.
    + left.
    + right. simpl in Ha. apply list_elem_of_join.
      exists (occurrences a). split; [exact IH|].
      apply list_elem_of_fmap. exists a. split; [reflexivity|exact Ha].
  - revert u. induction t as [i l ts IH] using term_ind_args. intros u Hu.
    simpl in Hu. apply elem_of_cons in Hu as [->|Hu]; [constructor|].
    apply list_elem_of_join in Hu as (os & Hu & Hos).
    apply list_elem_of_fmap in Hos as (a & -> & Ha).
    eapply subterm_arg; [exact Ha|].
    rewrite Forall_forall in IH. apply IH; assumption.
Qed.

Lemma consistentb_sound roots : consistentb roots = true → consistent roots.
Proof.
  unfold consistentb, consistent. intros Hb u w Hu Hw Hid.
  rewrite forallb_forall in Hb.
  assert (Hin : ∀ x, occurs roots x →
                     In x (mjoin (occurrences <$> roots))).
  { intros x (r & Hr & Hx). apply list_elem_of_In, list_elem_of_join.
    exists (occurrences r). split; [apply subterm_occurrences, Hx|].
    apply list_elem_of_fmap. exists r. split; [reflexivity|exact Hr]. }
  specialize (Hb u (Hin u Hu)). rewrite forallb_forall in Hb.
  specialize (Hb w (Hin w Hw)).
  rewrite bool_decide_eq_true_2 in Hb by exact Hid. simpl in Hb.
  apply term_eqb_eq, Hb.
Qed.

Lemma occurs_subterm roots u w : occurs roots u → subterm w u → occurs roots w.
Proof.
  intros (r & Hr & Hu) Hw. exists r. split; [exact Hr|].
  eapply subterm_trans; eassumption.
Qed.

(** Under reference identity no object is its own proper descendant. *)
Lemma consistent_acyclic roots u w :
  consistent roots → occurs roots u → strict_subterm w u → id_of w ≠ id_of u.
Proof.
  intros Hc Hu Hw Hid.
  assert (w = u) as ->.
  { apply Hc; [|exact Hu|exact Hid].
    eapply occurs_subterm; [exact Hu|apply strict_subterm_subterm, Hw]. }
  apply strict_subterm_size in Hw. lia.
Qed.

(** ** [get_insts] *)

Lemma get_insts_walk_eq v st :
  get_insts_walk v st =
  if decide (id_of v ∈ st.2) then st
  else if negb (L.isinstance_Instruction v) then st
  else
    let st1 := foldl (fun st a => get_insts_walk a st)
                     (st.1, {[ id_of v ]} ∪ st.2) (args v) in
    (st1.1 ++ [v], st1.2).
Proof. destruct v; reflexivity. Qed.

Lemma ireach_inst v u : ireach v u → L.isinstance_Instruction u = true.
Proof. induction 1; assumption. Qed.

Lemma ireach_source_inst v u : ireach v u → L.isinstance_Instruction v = true.
Proof. destruct 1; assumption. Qed.

Lemma ireach_subterm v u : ireach v u → subterm u v.
Proof.
  induction 1 as [v _|v a u _ Ha _ IH]; [constructor|].
  eapply subterm_arg; eassumption.
Qed.

Lemma ireach_inv v u :
  ireach v u → u = v ∨ ∃ a, a ∈ args v ∧ ireach a u.
Proof. destruct 1; [left; reflexivity|right; eauto]. Qed.

Section get_insts_walk.
Variable roots : list term.
Hypothesis Hc : consistent roots.

Abbreviation insts_inv := (insts_inv roots).

Lemma insts_inv_closed P st w x :
  insts_inv P st → w ∈ st.1 → ireach w x → x ∈ st.1.
Proof.
  intros Hinv Hw Hx. apply list_elem_of_split in Hw as (l1 & l2 & Heq).
  pose proof (ii_topo _ _ _ Hinv _ _ _ Heq _ Hx) as Hin.
  rewrite Heq. rewrite (assoc_L (++) l1 [w] l2) || rewrite cons_middle.
  all: set_solver.
Qed.

Lemma get_insts_walk_inv v :
  occurs roots v → ∀ P st,
  insts_inv P st → (∀ x, ireach v x → id_of x ∉ P) →
  insts_inv P (get_insts_walk v st) ∧
  (∃ new, (get_insts_walk v st).1 = st.1 ++ new ∧ Forall (ireach v) new) ∧
  (∀ x, ireach v x → x ∈ (get_insts_walk v st).1).
Proof.
  induction v as [i l ts IH] using term_ind_args.
  intros Hocc P st Hinv HP. rewrite get_insts_walk_eq. cbn [id_of args].
  set (v := Node i l ts) in *.
  destruct (decide (i ∈ st.2)) as [Hseen|Hseen].
  { split; [exact Hinv|]. split; [exists []; rewrite app_nil_r; auto|].
    intros x Hx.
    assert (Hi : i ∉ P) by (apply (HP v); constructor;
                            eapply ireach_source_inst, Hx).
    rewrite (ii_seen _ _ _ Hinv) in Hseen.
    apply elem_of_union in Hseen as [?|Hseen]; [tauto|].
    apply elem_of_list_to_set, list_elem_of_fmap in Hseen as (w & Hid & Hw).
    assert (w = v) as ->.
    { apply Hc; [apply (ii_occ _ _ _ Hinv), Hw|exact Hocc|symmetry; exact Hid]. }
    eapply insts_inv_closed; eassumption. }
  destruct (L.isinstance_Instruction v) eqn:Hinst; cbn [negb].
  2:{ split; [exact Hinv|]. split; [exists []; rewrite app_nil_r; auto|].
      intros x Hx. apply ireach_source_inst in Hx. congruence. }
  (* the operands, walked with [v] pending *)
  assert (Hloop : ∀ ts', Forall (λ a, a ∈ ts) ts' → ∀ st0,
    insts_inv ({[ i ]} ∪ P) st0 →
    let st1 := foldl (λ st a, get_insts_walk a st) st0 ts' in
    insts_inv ({[ i ]} ∪ P) st1 ∧
    (∃ new, st1.1 = st0.1 ++ new ∧
            Forall (λ x, ∃ a, a ∈ ts' ∧ ireach a x) new) ∧
    (∀ a x, a ∈ ts' → ireach a x → x ∈ st1.1)).
  { induction ts' as [|a ts' IHts]; intros Hsub st0 Hinv0; cbn [foldl].
    - split; [exact Hinv0|]. split; [exists []; rewrite app_nil_r; auto|].
      intros a x Ha. inversion Ha.
    - apply Forall_cons in Hsub as [Ha Hsub].
      rewrite Forall_forall in IH.
      assert (Hocca : occurs roots a).
      { eapply occurs_subterm; [exact Hocc|].
        eapply subterm_arg; [exact Ha|constructor]. }
      destruct (IH a Ha Hocca ({[ i ]} ∪ P) st0 Hinv0)
        as (Hinv1 & (new1 & Hnew1 & Hall1) & Hcov1).
      { intros x Hx. apply not_elem_of_union. split.
        - rewrite not_elem_of_singleton. change i with (id_of v).
          eapply consistent_acyclic; [exact Hc|exact Hocc|].
          exists a. split; [exact Ha|apply ireach_subterm, Hx].
        - apply HP. eapply ireach_arg; eassumption. }
      destruct (IHts Hsub _ Hinv1) as (Hinv2 & (new2 & Hnew2 & Hall2) & Hcov2).
      split; [exact Hinv2|]. split.
      + exists (new1 ++ new2). split.
        * rewrite Hnew2, Hnew1, (assoc_L (++)). reflexivity.
        * apply Forall_app. split.
          -- eapply Forall_impl; [exact Hall1|]. intros x Hx.
             exists a. split; [left|exact Hx].
          -- eapply Forall_impl; [exact Hall2|]. intros x (b & Hb & Hx).
             exists b. split; [right; exact Hb|exact Hx].
      + intros b x Hb Hx. apply elem_of_cons in Hb as [->|Hb].
        * rewrite Hnew2. apply elem_of_app. left. apply Hcov1, Hx.
        * eapply Hcov2; eassumption. }
  assert (Hinv0 : insts_inv ({[ i ]} ∪ P) (st.1, {[ i ]} ∪ st.2)).
  { destruct Hinv as [Hs Hd Hn Ho Ht]. split; cbn [fst snd]; auto.
    - rewrite Hs. set_solver.
    - intros x Hx. apply not_elem_of_union. split; [|auto].
      rewrite not_elem_of_singleton. intros Hid. apply Hseen.
      rewrite Hs. apply elem_of_union. right.
      apply elem_of_list_to_set, list_elem_of_fmap. eauto. }
  destruct (Hloop ts (proj2 (Forall_forall _ _) (λ _ H, H)) _ Hinv0)
    as (Hinv1 & (new & Hnew & Hall) & Hcov).
  cbn [fst snd] in *.
  set (st1 := foldl (λ st a, get_insts_walk a st) (st.1, {[ i ]} ∪ st.2) ts)
    in *.
  assert (Hreach : ∀ x, ireach v x → x ∈ st1.1 ++ [v]).
  { intros x Hx. apply elem_of_app.
    apply ireach_inv in Hx as [->|(a & Ha & Hx)].
    - right. left.
    - left. eapply Hcov; eassumption. }
  destruct Hinv1 as [Hs Hd Hn Ho Ht].
  assert (Hiv : i ∉ (list_to_set (id_of <$> st1.1) : gset ident)).
  { rewrite elem_of_list_to_set, list_elem_of_fmap. intros (x & Hid & Hx).
    apply (Hd x Hx). rewrite <- Hid. set_solver. }
  split; [|split].
  - split; cbn [fst snd].
    + rewrite Hs, fmap_app, list_to_set_app_L. cbn. set_solver.
    + intros x Hx. apply elem_of_app in Hx as [Hx|Hx].
      * specialize (Hd x Hx). set_solver.
      * apply list_elem_of_singleton in Hx as ->. apply (HP v).
        constructor. exact Hinst.
    + rewrite fmap_app. apply NoDup_app. split; [exact Hn|]. split.
      * intros j Hj Hj'. apply list_elem_of_singleton in Hj' as ->.
        apply Hiv, elem_of_list_to_set, Hj.
      * apply NoDup_singleton.
    + intros x Hx. apply elem_of_app in Hx as [Hx|Hx]; [auto|].
      apply list_elem_of_singleton in Hx as ->. exact Hocc.
    + intros l1 w l2 Heq x Hx.
      destruct l2 as [|w' l2 _] using rev_ind.
      * apply app_inj_tail in Heq as [<- <-]. apply Hreach, Hx.
      * rewrite app_comm_cons, (assoc_L (++)) in Heq.
        apply app_inj_tail in Heq as [Heq _].
        eapply Ht; eassumption.
  - exists (new ++ [v]). split.
    + rewrite Hnew, (assoc_L (++)). reflexivity.
    + apply Forall_app. split.
      * eapply Forall_impl; [exact Hall|]. intros x (a & Ha & Hx).
        eapply ireach_arg; eassumption.
      * apply Forall_singleton. constructor. exact Hinst.
  - exact Hreach.
Qed.
End get_insts_walk.

(** C5 (as amended).  Over a graph with reference identity, [get_insts]
    lists exactly the Instructions reachable from the root along paths made
    of Instructions only, each once, every Instruction after all the
    Instructions it reaches in that way, and nothing that is not an
    Instruction. *)
Theorem get_insts_instruction_paths (root : term) :
  consistent [root] →
  (∀ u, u ∈ get_insts root ↔ ireach root u) ∧
  NoDup (id_of <$> get_insts root) ∧
  (∀ l1 v l2, get_insts root = l1 ++ v :: l2 →
     ∀ u, ireach v u → u ≠ v → u ∈ l1) ∧
  Forall (λ u, L.isinstance_Instruction u = true) (get_insts root).
Proof.
  intros Hc.
  assert (Hocc : occurs [root] root).
  { exists root. split; [left|constructor]. }
  assert (Hinv0 : insts_inv [root] ∅ ([], ∅)).
  { split; cbn [fst snd fmap list_fmap].
    - set_solver.
    - intros x Hx. inversion Hx.
    - constructor.
    - intros x Hx. inversion Hx.
    - intros [|? ?] ? ? Heq; inversion Heq. }
  destruct (get_insts_walk_inv [root] Hc root Hocc ∅ _ Hinv0)
    as (Hinv & (new & Hnew & Hall) & Hcov).
  { intros x _. apply not_elem_of_empty. }
  fold (get_insts root) in Hinv, Hnew, Hcov. cbn [fst app] in Hnew.
  rewrite Forall_forall in Hall.
  split; [|split; [|split]].
  - intros u. split; [rewrite Hnew; apply Hall|apply Hcov].
  - apply (ii_nodup _ _ _ Hinv).
  - intros l1 v l2 Heq u Hu Hne.
    pose proof (ii_topo _ _ _ Hinv l1 v l2 Heq u Hu) as Hin.
    apply elem_of_app in Hin as [Hin|Hin]; [exact Hin|].
    apply list_elem_of_singleton in Hin. contradiction.
  - apply Forall_forall. intros u Hu. rewrite Hnew in Hu.
    eapply ireach_inst, Hall, Hu.
Qed.

Lemma get_insts_instruction_paths_witness :
  consistent [Ex.add_mm] ∧ get_insts Ex.add_mm = [Ex.m; Ex.add_mm] ∧
  (∀ u, u ∈ get_insts Ex.add_mm ↔ ireach Ex.add_mm u).
Proof.
  assert (Hc : consistent [Ex.add_mm]).
  { apply consistentb_sound. vm_compute. reflexivity. }
  split; [exact Hc|]. split; [vm_compute; reflexivity|].
  apply (get_insts_instruction_paths Ex.add_mm Hc).
Defined.

(** C5 as stated fails: an Instruction that the root reaches only through a
    term that is not an Instruction is reachable and is not listed. *)
Lemma get_insts_skips_instruction_behind_expression :
  consistent [Ex.shl_root] ∧
  subterm Ex.hidden Ex.shl_root ∧
  L.isinstance_Instruction Ex.hidden = true ∧
  get_insts Ex.shl_root = [Ex.shl_root] ∧
  Ex.hidden ∉ get_insts Ex.shl_root.
Proof.
  split; [apply consistentb_sound; vm_compute; reflexivity|].
  split; [apply subterm_occurrences; vm_compute; set_solver|].
  split; [reflexivity|].
  assert (Heq : get_insts Ex.shl_root = [Ex.shl_root])
    by (vm_compute; reflexivity).
  split; [exact Heq|]. rewrite Heq. intros Hin.
  apply list_elem_of_singleton in Hin. discriminate Hin.
Qed.

(** ** [count_uses] *)

Lemma count_uses_walk_eq v uses :
  count_uses_walk v uses =
  foldl (fun uses a =>
           let uses1 := if decide (id_of a ∈ dom uses) then uses
                        else count_uses_walk a uses in
           counter_incr (id_of a) uses1)
        uses (args v).
Proof. destruct v; reflexivity. Qed.

Lemma count_uses_walk_log_eq v st :
  count_uses_walk_log v st =
  foldl (fun st a =>
           let st1 := if decide (id_of a ∈ dom st.1) then st
                      else count_uses_walk_log a (st.1, st.2 ++ [a]) in
           (counter_incr (id_of a) st1.1, st1.2))
        st (args v).
Proof. destruct v; reflexivity. Qed.

(** The log is a ghost: erasing it gives the walk of the source. *)
Lemma count_uses_walk_log_erase v :
  ∀ st, (count_uses_walk_log v st).1 = count_uses_walk v st.1.
Proof.
  induction v as [i l ts IH] using term_ind_args. intros st.
  rewrite count_uses_walk_log_eq, count_uses_walk_eq. cbn [args].
  revert st. induction IH as [|a ts Ha _ IHts]; intros st; [reflexivity|].
  cbn [foldl]. rewrite IHts. cbn [fst]. f_equal.
  destruct (decide (id_of a ∈ dom st.1)); [reflexivity|].
  rewrite Ha. reflexivity.
Qed.

Lemma counter_get_incr i j uses :
  counter_get (counter_incr i uses) j =
  (counter_get uses j + if decide (i = j) then 1 else 0)%Z.
Proof.
  unfold counter_incr, counter_get at 1.
  destruct (decide (i = j)) as [->|Hne].
  - rewrite lookup_insert_eq. reflexivity.
  - rewrite lookup_insert_ne by exact Hne. unfold counter_get. lia.
Qed.

Lemma dom_counter_incr i uses :
  dom (counter_incr i uses) = {[ i ]} ∪ dom uses.
Proof. unfold counter_incr. apply dom_insert_L. Qed.

Lemma edges_into_nil i : edges_into i [] = 0%Z.
Proof. reflexivity. Qed.

Lemma edges_into_app i ps qs :
  edges_into i (ps ++ qs) = (edges_into i ps + edges_into i qs)%Z.
Proof.
  unfold edges_into. rewrite fmap_app, sum_list_with_app. lia.
Qed.

Lemma edges_into_leaf i j l : edges_into i [Node j l []] = 0%Z.
Proof. reflexivity. Qed.

Lemma edges_into_cons_arg i j l a ts :
  edges_into i [Node j l (a :: ts)] =
  ((if decide (id_of a = i) then 1 else 0) + edges_into i [Node j l ts])%Z.
Proof.
  unfold edges_into. cbn [fmap list_fmap sum_list_with args].
  rewrite filter_cons. destruct (decide (id_of a = i)); cbn [length]; unfold id; lia.
Qed.

(** Every expansion counts each of its operand edges once, whatever the
    graph and the counter it starts from. *)
Lemma count_uses_walk_log_edges v :
  ∀ st, ∃ new,
    (count_uses_walk_log v st).2 = st.2 ++ new ∧
    ∀ i, counter_get (count_uses_walk_log v st).1 i =
         (counter_get st.1 i + edges_into i (v :: new))%Z.
Proof.
  induction v as [j l ts IH] using term_ind_args. intros st.
  rewrite count_uses_walk_log_eq. cbn [args].
  change (Node j l ts :: ?n) with ([Node j l ts] ++ n).
  setoid_rewrite edges_into_app.
  revert st. induction IH as [|a ts Ha _ IHts]; intros st; cbn [foldl].
  { exists []. rewrite app_nil_r. split; [reflexivity|]. intros i.
    rewrite edges_into_leaf, edges_into_nil. lia. }
  set (st1 := if decide (id_of a ∈ dom st.1) then st
              else count_uses_walk_log a (st.1, st.2 ++ [a])).
  assert (H1 : ∃ new1, st1.2 = st.2 ++ new1 ∧
            ∀ i, counter_get st1.1 i =
                 (counter_get st.1 i + edges_into i new1)%Z).
  { subst st1. destruct (decide (id_of a ∈ dom st.1)).
    - exists []. rewrite app_nil_r. split; [reflexivity|].
      intros i. rewrite edges_into_nil. lia.
    - destruct (Ha (st.1, st.2 ++ [a])) as (new & Hnew & Hcnt).
      exists (a :: new). split.
      + rewrite Hnew. cbn [snd]. rewrite <- (assoc_L (++)). reflexivity.
      + intros i. rewrite Hcnt. reflexivity. }
  destruct H1 as (new1 & Hnew1 & Hcnt1).
  destruct (IHts (counter_incr (id_of a) st1.1, st1.2))
    as (new2 & Hnew2 & Hcnt2).
  exists (new1 ++ new2). split.
  - rewrite Hnew2. cbn [snd]. rewrite Hnew1, (assoc_L (++)). reflexivity.
  - intros i. rewrite Hcnt2. cbn [fst]. rewrite counter_get_incr, Hcnt1.
    rewrite edges_into_cons_arg, edges_into_app. lia.
Qed.

Lemma count_uses_log_erase root uses0 :
  (count_uses_log root uses0).1 = count_uses root uses0.
Proof. unfold count_uses_log, count_uses. apply count_uses_walk_log_erase. Qed.

Lemma count_uses_log_head root uses0 :
  ∃ new, (count_uses_log root uses0).2 = root :: new.
Proof.
  unfold count_uses_log.
  destruct (count_uses_walk_log_edges root (default ∅ uses0, [root]))
    as (new & Hnew & _).
  exists new. exact Hnew.
Qed.

Lemma count_uses_log_edges root uses0 i :
  counter_get (count_uses root uses0) i =
  (counter_get (default ∅ uses0) i
   + edges_into i (count_uses_log root uses0).2)%Z.
Proof.
  rewrite <- count_uses_log_erase. unfold count_uses_log.
  destruct (count_uses_walk_log_edges root (default ∅ uses0, [root]))
    as (new & Hnew & Hcnt).
  rewrite Hcnt, Hnew. reflexivity.
Qed.

Lemma fresh_reach_subterm d v u : fresh_reach d v u → subterm u v.
Proof.
  induction 1 as [v|v a u Ha _ _ IH]; [constructor|].
  eapply subterm_arg; eassumption.
Qed.

Lemma fresh_reach_inv d v u :
  fresh_reach d v u →
  u = v ∨ ∃ a, a ∈ args v ∧ (id_of a ∉ d) ∧ fresh_reach d a u.
Proof. destruct 1; [left; reflexivity|right; eauto]. Qed.

Lemma fresh_reach_empty v u : fresh_reach ∅ v u ↔ subterm u v.
Proof.
  split; [apply fresh_reach_subterm|].
  induction 1 as [v|u a v Ha _ IH]; [constructor|].
  eapply fresh_reach_arg; [exact Ha|apply not_elem_of_empty|exact IH].
Qed.

Section count_uses_walk.
Variable roots : list term.
Hypothesis Hc : consistent roots.
(** The keys of the counter when [count_uses] is called. *)
Variable d : gset ident.

Abbreviation uses_inv := (uses_inv roots d).

Lemma count_uses_walk_log_inv v :
  occurs roots v → ∀ P st,
  uses_inv P st → (∀ x, strict_subterm x v → id_of x ∉ P) →
  uses_inv P (count_uses_walk_log v st) ∧
  (∃ new, (count_uses_walk_log v st).2 = st.2 ++ new ∧
          Forall (λ x, ∃ a, a ∈ args v ∧ (id_of a ∉ d) ∧ fresh_reach d a x)
                 new) ∧
  (∀ a x, a ∈ args v → id_of a ∉ d → fresh_reach d a x →
          x ∈ (count_uses_walk_log v st).2).
Proof.
  induction v as [j l ts IH] using term_ind_args.
  intros Hocc P st Hinv HP. rewrite count_uses_walk_log_eq. cbn [args].
  set (v := Node j l ts) in *.
  set (step := λ (st : gmap ident Z * list term) (a : term),
         let st1 := if decide (id_of a ∈ dom st.1) then st
                    else count_uses_walk_log a (st.1, st.2 ++ [a]) in
         (counter_incr (id_of a) st1.1, st1.2)).
  enough (Hloop : ∀ ts', Forall (λ a, a ∈ ts) ts' → ∀ st,
    uses_inv P st →
    uses_inv P (foldl step st ts') ∧
    (∃ new, (foldl step st ts').2 = st.2 ++ new ∧
            Forall (λ x, ∃ a, a ∈ ts' ∧ (id_of a ∉ d) ∧ fresh_reach d a x)
                   new) ∧
    (∀ a x, a ∈ ts' → id_of a ∉ d → fresh_reach d a x →
            x ∈ (foldl step st ts').2)).
  { apply Hloop; [apply Forall_forall; auto|exact Hinv]. }
  clear st Hinv.
  induction ts' as [|a ts' IHts]; intros Hsub st Hinv; cbn [foldl].
  { split; [exact Hinv|]. split; [exists []; rewrite app_nil_r; auto|].
    intros a x Ha. inversion Ha. }
  apply Forall_cons in Hsub as [Ha Hsub]. rewrite Forall_forall in IH.
  assert (Hstrict : strict_subterm a v).
  { exists a. split; [exact Ha|constructor]. }
  assert (Hocca : occurs roots a).
  { eapply occurs_subterm; [exact Hocc|apply strict_subterm_subterm, Hstrict]. }
  set (st1 := if decide (id_of a ∈ dom st.1) then st
              else count_uses_walk_log a (st.1, st.2 ++ [a])).
  change (step st a) with (counter_incr (id_of a) st1.1, st1.2).
  (* after the operand [a] is dealt with and counted *)
  assert (H1 : uses_inv P (counter_incr (id_of a) st1.1, st1.2) ∧
            (∃ new, st1.2 = st.2 ++ new ∧
               Forall (λ x, (id_of a ∉ d) ∧ fresh_reach d a x) new) ∧
            (∀ x, id_of a ∉ d → fresh_reach d a x → x ∈ st1.2)).
  { subst st1. destruct (decide (id_of a ∈ dom st.1)) as [Hin|Hnin].
    - destruct Hinv as [Hn Ho Hd Hld Hdl Hcl].
      split; [|split].
      + split; cbn [fst snd]; auto.
        * rewrite dom_counter_incr. set_solver.
        * intros x Hx. rewrite dom_counter_incr.
          destruct (Hld x Hx); [left|right]; set_solver.
        * intros i. rewrite dom_counter_incr, elem_of_union, elem_of_singleton.
          intros [->|Hi]; auto.
      + exists []. rewrite app_nil_r. auto.
      + intros x Had Hx. destruct (Hdl _ Hin) as [?|(w & Hw & Hid)]; [tauto|].
        assert (w = a) as -> by (apply Hc; auto).
        eapply Hcl; [exact Hw|apply HP, Hstrict|exact Hx].
    - assert (HaP : id_of a ∉ P) by apply HP, Hstrict.
      assert (Had : id_of a ∉ d).
      { intros Hd. apply Hnin. apply (ui_d _ _ _ _ Hinv), Hd. }
      assert (Hnlog : ∀ x, x ∈ st.2 → id_of x ≠ id_of a).
      { intros x Hx Hid. destruct (ui_log_dom _ _ _ _ Hinv x Hx) as [Hp|Hp];
          rewrite Hid in Hp; tauto. }
      assert (Hinv0 : uses_inv ({[ id_of a ]} ∪ P) (st.1, st.2 ++ [a])).
      { destruct Hinv as [Hn Ho Hd Hld Hdl Hcl]. split; cbn [fst snd]; auto.
        - rewrite fmap_app. apply NoDup_app. split; [exact Hn|]. split.
          + intros i Hi Hi'. apply list_elem_of_singleton in Hi' as ->.
            apply list_elem_of_fmap in Hi as (x & Hid & Hx).
            apply (Hnlog x Hx). symmetry. exact Hid.
          + apply NoDup_singleton.
        - intros x Hx. apply elem_of_app in Hx as [Hx|Hx]; [auto|].
          apply list_elem_of_singleton in Hx as ->. exact Hocca.
        - intros x Hx. apply elem_of_app in Hx as [Hx|Hx].
          + destruct (Hld x Hx); [left|right]; set_solver.
          + apply list_elem_of_singleton in Hx as ->. left. set_solver.
        - intros i Hi. destruct (Hdl i Hi) as [?|(x & Hx & Hid)]; [auto|].
          right. exists x. split; [apply elem_of_app; auto|exact Hid].
        - intros w x Hw HwP Hx. apply elem_of_app. left.
          apply elem_of_app in Hw as [Hw|Hw].
          + eapply Hcl; [exact Hw| |exact Hx]. set_solver.
          + apply list_elem_of_singleton in Hw as ->. set_solver. }
      destruct (IH a Ha Hocca _ _ Hinv0) as (Hinv1 & (new & Hnew & Hall) & Hcov).
      { intros x Hx. apply not_elem_of_union. split.
        - rewrite not_elem_of_singleton.
          eapply consistent_acyclic; [exact Hc|exact Hocca|exact Hx].
        - apply HP. destruct Hx as (b & Hb & Hx). exists a. split; [exact Ha|].
          eapply subterm_arg; eassumption. }
      cbn [fst snd] in *.
      set (st1 := count_uses_walk_log a (st.1, st.2 ++ [a])) in *.
      assert (Hain : a ∈ st1.2).
      { rewrite Hnew. apply elem_of_app. left. apply elem_of_app. right. left. }
      assert (Hcova : ∀ x, fresh_reach d a x → x ∈ st1.2).
      { intros x Hx. apply fresh_reach_inv in Hx as [->|(b & Hb & Hbd & Hx)];
          [exact Hain|]. eapply Hcov; eassumption. }
      destruct Hinv1 as [Hn Ho Hd Hld Hdl Hcl].
      split; [|split].
      + split; cbn [fst snd]; auto.
        * rewrite dom_counter_incr. set_solver.
        * intros x Hx. rewrite dom_counter_incr.
          destruct (Hld x Hx) as [Hp|Hp]; [|right; set_solver].
          apply elem_of_union in Hp as [Hp|Hp]; [right|left]; set_solver.
        * intros i. rewrite dom_counter_incr, elem_of_union, elem_of_singleton.
          intros [->|Hi]; [|auto]. right. eauto.
        * intros w x Hw HwP Hx.
          destruct (decide (id_of w = id_of a)) as [Hid|Hid].
          -- assert (w = a) as -> by (apply Hc; auto). apply Hcova, Hx.
          -- eapply Hcl; [exact Hw| |exact Hx]. set_solver.
      + exists (a :: new). split.
        * rewrite Hnew, <- (assoc_L (++)). reflexivity.
        * apply Forall_cons. split; [split; [exact Had|constructor]|].
          eapply Forall_impl; [exact Hall|]. intros x (b & Hb & Hbd & Hx).
          split; [exact Had|]. eapply fresh_reach_arg; eassumption.
      + intros x _ Hx. apply Hcova, Hx. }
  destruct H1 as (Hinv1 & (new1 & Hnew1 & Hall1) & Hcov1).
  destruct (IHts Hsub _ Hinv1) as (Hinv2 & (new2 & Hnew2 & Hall2) & Hcov2).
  cbn [fst snd] in *.
  split; [exact Hinv2|]. split.
  - exists (new1 ++ new2). split.
    + rewrite Hnew2, Hnew1, (assoc_L (++)). reflexivity.
    + apply Forall_app. split.
      * eapply Forall_impl; [exact Hall1|]. intros x [Had Hx].
        exists a. split; [left|auto].
      * eapply Forall_impl; [exact Hall2|]. intros x (b & Hb & Hx).
        exists b. split; [right; exact Hb|exact Hx].
  - intros b x Hb Hbd Hx. apply elem_of_cons in Hb as [->|Hb].
    + rewrite Hnew2. apply elem_of_app. left. apply Hcov1; assumption.
    + eapply Hcov2; eassumption.
Qed.
End count_uses_walk.

Lemma count_uses_log_inv roots root uses0 :
  consistent roots → occurs roots root →
  let st := count_uses_log root uses0 in
  uses_inv roots (dom (default ∅ uses0)) {[ id_of root ]} st ∧
  (∀ x, x ∈ st.2 ↔ fresh_reach (dom (default ∅ uses0)) root x).
Proof.
  intros Hc Hocc. cbn zeta. unfold count_uses_log.
  set (before := default ∅ uses0).
  assert (Hinv0 : uses_inv roots (dom before) {[ id_of root ]} (before, [root])).
  { split; cbn [fst snd fmap list_fmap].
    - apply NoDup_singleton.
    - intros x Hx. apply list_elem_of_singleton in Hx as ->. exact Hocc.
    - reflexivity.
    - intros x Hx. apply list_elem_of_singleton in Hx as ->. left. set_solver.
    - auto.
    - intros w x Hw HwP. apply list_elem_of_singleton in Hw as ->. set_solver. }
  destruct (count_uses_walk_log_inv roots Hc (dom before) root Hocc _ _ Hinv0)
    as (Hinv & (new & Hnew & Hall) & Hcov).
  { intros x Hx. rewrite not_elem_of_singleton.
    eapply consistent_acyclic; eassumption. }
  split; [exact Hinv|]. cbn [snd] in Hnew. intros x. split.
  - rewrite Hnew. intros Hx. apply elem_of_app in Hx as [Hx|Hx].
    + apply list_elem_of_singleton in Hx as ->. constructor.
    + rewrite Forall_forall in Hall. destruct (Hall x Hx) as (a & Ha & Had & Hr).
      eapply fresh_reach_arg; eassumption.
  - intros Hx. apply fresh_reach_inv in Hx as [->|(a & Ha & Had & Hx)].
    + rewrite Hnew. apply elem_of_app. left. left.
    + eapply Hcov; eassumption.
Qed.

(** On a fresh counter: every object under the root is entered, and a count
    is the number of operand edges into the object within the graph. *)
Lemma count_uses_once_per_edge_aux root :
  consistent [root] →
  (∀ i, counter_get (count_uses root None) i =
        edges_into i (count_uses_log root None).2) ∧
  (∀ x, subterm x root → x ∈ (count_uses_log root None).2).
Proof.
  intros Hc.
  assert (Hocc : occurs [root] root).
  { exists root. split; [left|constructor]. }
  destruct (count_uses_log_inv [root] root None Hc Hocc) as [_ Hlog].
  split.
  - intros i. rewrite count_uses_log_edges. cbn [from_option id].
    unfold counter_get. rewrite lookup_empty. cbn. lia.
  - intros x Hx. apply Hlog. cbn [from_option id]. rewrite dom_empty_L.
    apply fresh_reach_empty, Hx.
Qed.

(** C7.  [count_uses(root, counter)] enters [walk] at most once per object;
    the objects it enters are the root and whatever the root reaches along
    objects that are not yet keys of the counter; and every object's count
    grows by one for each operand edge leaving an entered object, so also
    for the edges into objects that were keys already. *)
Theorem count_uses_once_per_edge (root : term) (uses0 : option (gmap ident Z)) :
  consistent [root] →
  let before := default ∅ uses0 in
  let expanded := (count_uses_log root uses0).2 in
  (count_uses_log root uses0).1 = count_uses root uses0 ∧
  (∀ i, counter_get (count_uses root uses0) i =
        (counter_get before i + edges_into i expanded)%Z) ∧
  NoDup (id_of <$> expanded) ∧
  (∀ x, x ∈ expanded ↔ fresh_reach (dom before) root x).
Proof.
  intros Hc. cbn zeta.
  assert (Hocc : occurs [root] root).
  { exists root. split; [left|constructor]. }
  destruct (count_uses_log_inv [root] root uses0 Hc Hocc) as [Hinv Hlog].
  split; [apply count_uses_log_erase|]. split; [|split].
  - apply count_uses_log_edges.
  - apply (ui_nodup _ _ _ _ Hinv).
  - exact Hlog.
Qed.

Lemma count_uses_once_per_edge_witness :
  consistent [Ex.add_mm] ∧
  counter_get (count_uses Ex.add_mm None) (id_of Ex.m) = 2%Z ∧
  (∀ i, counter_get (count_uses Ex.add_mm None) i =
        (counter_get ∅ i + edges_into i (count_uses_log Ex.add_mm None).2)%Z).
Proof.
  assert (Hc : consistent [Ex.add_mm]).
  { apply consistentb_sound. vm_compute. reflexivity. }
  split; [exact Hc|]. split; [vm_compute; reflexivity|].
  apply (count_uses_once_per_edge Ex.add_mm None Hc).
Defined.

(** ** [L.subterms] and [constant_defs] *)

Lemma subterms_eq t seen :
  L.subterms t seen =
  if decide (id_of t ∈ seen) then ([], seen)
  else
    let st := foldl (fun st a =>
                       let r := L.subterms a st.2 in (st.1 ++ r.1, r.2))
                    ([], seen) (args t) in
    (st.1 ++ [t], {[ id_of t ]} ∪ st.2).
Proof. destruct t; reflexivity. Qed.

Section subterms_walk.
Variable roots : list term.
Hypothesis Hc : consistent roots.

Abbreviation down_closed := (down_closed roots).

Lemma subterms_inv t :
  occurs roots t → ∀ S, down_closed S →
  let r := L.subterms t S in
  r.2 = S ∪ list_to_set (id_of <$> r.1) ∧
  down_closed r.2 ∧
  NoDup (id_of <$> r.1) ∧
  (∀ x, x ∈ r.1 → (id_of x ∉ S) ∧ subterm x t) ∧
  (∀ x, subterm x t → id_of x ∈ r.2).
Proof.
  induction t as [i l ts IH] using term_ind_args.
  intros Hocc S Hdc. cbn zeta. rewrite subterms_eq. cbn [id_of args].
  set (t := Node i l ts) in *.
  destruct (decide (i ∈ S)) as [Hseen|Hseen]; cbn [fst snd].
  { split; [set_solver|]. split; [exact Hdc|]. split; [constructor|].
    split; [intros x Hx; inversion Hx|].
    intros x Hx. eapply Hdc; [exact Hocc|exact Hseen|exact Hx]. }
  set (step := λ (st : list term * gset ident) (a : term),
         let r := L.subterms a st.2 in (st.1 ++ r.1, r.2)).
  assert (Hloop : ∀ ts', Forall (λ a, a ∈ ts) ts' → ∀ st,
    down_closed st.2 →
    let st' := foldl step st ts' in
    ∃ new, st'.1 = st.1 ++ new ∧
      st'.2 = st.2 ∪ list_to_set (id_of <$> new) ∧
      down_closed st'.2 ∧
      NoDup (id_of <$> new) ∧
      (∀ x, x ∈ new → (id_of x ∉ st.2) ∧ ∃ a, a ∈ ts' ∧ subterm x a) ∧
      (∀ a x, a ∈ ts' → subterm x a → id_of x ∈ st'.2)).
  { induction ts' as [|a ts' IHts]; intros Hsub st Hdc0; cbn [foldl].
    - exists []. rewrite app_nil_r. cbn. split; [reflexivity|].
      split; [set_solver|]. split; [exact Hdc0|]. split; [constructor|].
      split; [intros x Hx; inversion Hx|intros a x Ha; inversion Ha].
    - apply Forall_cons in Hsub as [Ha Hsub]. rewrite Forall_forall in IH.
      assert (Hocca : occurs roots a).
      { eapply occurs_subterm; [exact Hocc|].
        eapply subterm_arg; [exact Ha|constructor]. }
      destruct (IH a Ha Hocca st.2 Hdc0) as (Hs1 & Hdc1 & Hn1 & Hnew1 & Hcov1).
      set (r := L.subterms a st.2) in *.
      change (step st a) with (st.1 ++ r.1, r.2).
      destruct (IHts Hsub (st.1 ++ r.1, r.2) Hdc1)
        as (new2 & Hl2 & Hs2 & Hdc2 & Hn2 & Hnew2 & Hcov2).
      cbn [fst snd] in *.
      exists (r.1 ++ new2). split; [rewrite Hl2, (assoc_L (++)); reflexivity|].
      split; [rewrite Hs2, Hs1, fmap_app, list_to_set_app_L; set_solver|].
      split; [exact Hdc2|]. split; [|split].
      + rewrite fmap_app. apply NoDup_app. split; [exact Hn1|].
        split; [|exact Hn2]. intros j Hj Hj'.
        apply list_elem_of_fmap in Hj' as (x & -> & Hx).
        destruct (Hnew2 x Hx) as [Hnin _]. apply Hnin. rewrite Hs1.
        apply elem_of_union. right. apply elem_of_list_to_set, Hj.
      + intros x Hx. apply elem_of_app in Hx as [Hx|Hx].
        * destruct (Hnew1 x Hx). split; [assumption|].
          exists a. split; [left|assumption].
        * destruct (Hnew2 x Hx) as [Hnin (b & Hb & Hxb)]. split.
          -- intros Hin. apply Hnin. rewrite Hs1. set_solver.
          -- exists b. split; [right; exact Hb|exact Hxb].
      + intros b x Hb Hx. apply elem_of_cons in Hb as [->|Hb].
        * rewrite Hs2. apply elem_of_union. left. apply Hcov1, Hx.
        * eapply Hcov2; eassumption. }
  destruct (Hloop ts (proj2 (Forall_forall _ _) (λ _ H, H)) ([], S) Hdc)
    as (new & Hl & Hs & Hdc' & Hn & Hnew & Hcov).
  cbn [fst snd app] in *.
  set (st := foldl step ([], S) ts) in *. rewrite Hl.
  assert (Hstrict : ∀ x, x ∈ new → strict_subterm x t).
  { intros x Hx. destruct (Hnew x Hx) as [_ (a & Ha & Hxa)].
    exists a. split; assumption. }
  split; [|split; [|split; [|split]]].
  - rewrite Hs, fmap_app, list_to_set_app_L. cbn. set_solver.
  - intros u w Hu Hin Hw. apply elem_of_union in Hin as [Hin|Hin].
    + apply elem_of_singleton in Hin.
      assert (u = t) as -> by (apply Hc; auto).
      apply subterm_inv in Hw as [->|(a & Ha & Hw)]; [set_solver|].
      apply elem_of_union. right. eapply Hcov; eassumption.
    + apply elem_of_union. right. eapply Hdc'; eassumption.
  - rewrite fmap_app. apply NoDup_app. split; [exact Hn|]. split.
    + intros j Hj Hj'. apply list_elem_of_singleton in Hj' as ->.
      apply list_elem_of_fmap in Hj as (x & Hid & Hx).
      eapply consistent_acyclic; [exact Hc|exact Hocc|apply Hstrict, Hx|].
      symmetry. exact Hid.
    + apply NoDup_singleton.
  - intros x Hx. apply elem_of_app in Hx as [Hx|Hx].
    + destruct (Hnew x Hx) as [Hnin _]. split; [exact Hnin|].
      apply strict_subterm_subterm, Hstrict, Hx.
    + apply list_elem_of_singleton in Hx as ->. split; [exact Hseen|constructor].
  - intros x Hx. apply subterm_inv in Hx as [->|(a & Ha & Hx)]; [set_solver|].
    apply elem_of_union. right. eapply Hcov; eassumption.
Qed.
End subterms_walk.

(** Started on a fresh [seen] set, the walk yields every object under the
    root once. *)
Lemma subterms_fresh roots t :
  consistent roots → occurs roots t →
  NoDup (id_of <$> (L.subterms t ∅).1) ∧
  (∀ x, x ∈ (L.subterms t ∅).1 ↔ subterm x t).
Proof.
  intros Hc Hocc.
  destruct (subterms_inv roots Hc t Hocc ∅) as (Hs & _ & Hn & Hnew & Hcov).
  { intros u w _ Hin. set_solver. }
  split; [exact Hn|]. intros x. split; [intros Hx; apply Hnew, Hx|].
  intros Hx. specialize (Hcov x Hx). rewrite Hs in Hcov.
  apply elem_of_union in Hcov as [Hcov|Hcov]; [set_solver|].
  apply elem_of_list_to_set, list_elem_of_fmap in Hcov as (w & Hid & Hw).
  assert (x = w) as ->; [|exact Hw].
  apply Hc; [eapply occurs_subterm; eassumption| |exact Hid].
  eapply occurs_subterm; [exact Hocc|apply Hnew, Hw].
Qed.

Lemma edges_into_nonneg i ps : (0 ≤ edges_into i ps)%Z.
Proof. unfold edges_into. lia. Qed.

Lemma edges_into_arg p c ps :
  p ∈ ps → c ∈ args p → (1 ≤ edges_into (id_of c) ps)%Z.
Proof.
  intros Hp Hc. apply list_elem_of_split in Hp as (l1 & l2 & ->).
  rewrite edges_into_app. change (p :: l2) with ([p] ++ l2).
  rewrite edges_into_app.
  pose proof (edges_into_nonneg (id_of c) l1).
  pose proof (edges_into_nonneg (id_of c) l2).
  enough (1 ≤ edges_into (id_of c) [p])%Z by lia.
  unfold edges_into. cbn [fmap list_fmap sum_list_with].
  assert (Hin : c ∈ filter (λ a, id_of a = id_of c) (args p)).
  { apply list_elem_of_filter. split; [reflexivity|exact Hc]. }
  destruct (filter _ (args p)); [inversion Hin|]. cbn [length]. unfold id. lia.
Qed.

(** A call of [count_uses] never lowers a count, and raises by at least one
    the count of every operand of its root. *)
Lemma count_uses_mono r before i :
  (counter_get before i ≤ counter_get (count_uses r (Some before)) i)%Z.
Proof.
  rewrite count_uses_log_edges. cbn [from_option id].
  pose proof (edges_into_nonneg i (count_uses_log r (Some before)).2). lia.
Qed.

Lemma count_uses_root_arg r before c :
  c ∈ args r →
  (counter_get before (id_of c) + 1
   ≤ counter_get (count_uses r (Some before)) (id_of c))%Z.
Proof.
  intros Hc. rewrite count_uses_log_edges. cbn [from_option id].
  destruct (count_uses_log_head r (Some before)) as (new & ->).
  pose proof (edges_into_arg r c (r :: new) ltac:(left) Hc). lia.
Qed.

Lemma count_uses_fold_mono terms before i :
  (counter_get before i
   ≤ counter_get (foldl (λ uses t, count_uses t (Some uses)) before terms) i)%Z.
Proof.
  revert before. induction terms as [|r terms IH]; intros before; cbn [foldl].
  - lia.
  - specialize (IH (count_uses r (Some before))).
    pose proof (count_uses_mono r before i). lia.
Qed.

Lemma count_uses_fold_root_arg terms before r c :
  r ∈ terms → c ∈ args r →
  (counter_get before (id_of c) + 1
   ≤ counter_get (foldl (λ uses t, count_uses t (Some uses)) before terms)
                 (id_of c))%Z.
Proof.
  intros Hr Hc. revert before.
  induction Hr as [r terms|r r' terms _ IH]; intros before; cbn [foldl].
  - pose proof (count_uses_root_arg r before c Hc).
    pose proof (count_uses_fold_mono terms (count_uses r (Some before))
                  (id_of c)). lia.
  - specialize (IH Hc (count_uses r' (Some before))).
    pose proof (count_uses_mono r' before (id_of c)). lia.
Qed.

Lemma strict_subterm_parent c t :
  strict_subterm c t → ∃ p, subterm p t ∧ c ∈ args p.
Proof.
  intros (a & Ha & Hc). revert t Ha.
  induction Hc as [c|c b a Hb Hc IH]; intros t Ha.
  - exists t. split; [constructor|exact Ha].
  - destruct (IH a Hb) as (p & Hp & Hcp). exists p. split; [|exact Hcp].
    eapply subterm_arg; eassumption.
Qed.

(** After [count_uses(tgt)] on a fresh counter every proper descendant of
    [tgt] has been counted at least once. *)
Lemma count_uses_fresh_descendant tgt c :
  consistent [tgt] → strict_subterm c tgt →
  (1 ≤ counter_get (count_uses tgt None) (id_of c))%Z.
Proof.
  intros Hc Hstrict.
  destruct (count_uses_once_per_edge_aux tgt Hc) as (Hcnt & Hlog).
  rewrite Hcnt. destruct (strict_subterm_parent c tgt Hstrict) as (p & Hp & Hcp).
  apply (edges_into_arg p); [apply Hlog, Hp|exact Hcp].
Qed.

Lemma consistent_head tgt terms : consistent (tgt :: terms) → consistent [tgt].
Proof.
  intros Hc u w (r & Hr & Hu) (r' & Hr' & Hw).
  apply list_elem_of_singleton in Hr as ->.
  apply list_elem_of_singleton in Hr' as ->.
  apply Hc; exists tgt; (split; [left|assumption]).
Qed.

(** C4.  [constant_defs(tgt, terms)] yields, in the order of the subterm
    walk of [tgt] and each once, exactly the objects under [tgt] that are
    Constants, are not Symbols, and whose count in the one counter fed by
    [tgt] and then by every extra root exceeds 1; a constant operand under
    [tgt] that is also an operand of an extra root is among them. *)
Theorem constant_defs_shared_constants (tgt : term) (terms : list term) :
  consistent (tgt :: terms) →
  let uses := foldl (λ uses t, count_uses t (Some uses))
                    (count_uses tgt None) terms in
  let hoisted t := (1 < counter_get uses (id_of t))%Z ∧
                   L.isinstance_Constant t = true ∧
                   L.isinstance_Symbol t = false in
  (∀ t, t ∈ constant_defs tgt terms ↔ subterm t tgt ∧ hoisted t) ∧
  constant_defs tgt terms `sublist_of` (L.subterms tgt ∅).1 ∧
  NoDup (id_of <$> constant_defs tgt terms) ∧
  (∀ c r, strict_subterm c tgt → r ∈ terms → c ∈ args r →
          L.isinstance_Constant c = true → L.isinstance_Symbol c = false →
          c ∈ constant_defs tgt terms).
Proof.
  intros Hc. cbn zeta.
  pose proof (consistent_head _ _ Hc) as Hc1.
  assert (Hocc : occurs [tgt] tgt).
  { exists tgt. split; [left|constructor]. }
  destruct (subterms_fresh [tgt] tgt Hc1 Hocc) as [Hn Hmem].
  assert (Hiff : ∀ t, t ∈ constant_defs tgt terms ↔
    subterm t tgt ∧
    (1 < counter_get (foldl (λ uses t, count_uses t (Some uses))
                            (count_uses tgt None) terms) (id_of t))%Z ∧
    L.isinstance_Constant t = true ∧ L.isinstance_Symbol t = false).
  { intros t. unfold constant_defs. rewrite list_elem_of_filter, Hmem.
    rewrite !andb_true_iff, negb_true_iff, Z.ltb_lt. tauto. }
  split; [exact Hiff|]. split; [apply sublist_filter|]. split.
  - eapply sublist_NoDup; [exact Hn|]. apply fmap_sublist, sublist_filter.
  - intros c r Hstrict Hr Hcr Hconst Hsym. apply Hiff.
    split; [apply strict_subterm_subterm, Hstrict|].
    split; [|split; assumption].
    pose proof (count_uses_fresh_descendant tgt c Hc1 Hstrict).
    pose proof (count_uses_fold_root_arg terms (count_uses tgt None) r c Hr Hcr).
    lia.
Qed.

Lemma constant_defs_shared_constants_witness :
  consistent [Ex.tgt_add; Ex.pre_ne] ∧
  constant_defs Ex.tgt_add [Ex.pre_ne] = [Ex.C1_plus_1] ∧
  constant_defs Ex.tgt_add [] = [] ∧
  NoDup (id_of <$> constant_defs Ex.tgt_add [Ex.pre_ne]).
Proof.
  assert (Hc : consistent [Ex.tgt_add; Ex.pre_ne]).
  { apply consistentb_sound. vm_compute. reflexivity. }
  split; [exact Hc|]. split; [vm_compute; reflexivity|].
  split; [vm_compute; reflexivity|].
  apply (constant_defs_shared_constants Ex.tgt_add [Ex.pre_ne] Hc).
Defined.

(** ** [Formatter.name] *)

(** The [while] loop ends within its bound, on a name that is not in use. *)
Lemma name_loop_generated prefix (names : gset string) :
  ∀ bound fresh (X : gset string),
    (∀ k, fresh ≤ k → prefix +:+ pretty k ∈ names → prefix +:+ pretty k ∈ X) →
    size X ≤ bound →
    ∃ n fresh', name_loop bound prefix names (prefix +:+ pretty fresh) (S fresh)
                = Some (n, fresh') ∧ n ∉ names.
Proof.
  induction bound as [|bound IH]; intros fresh X HX Hsize.
  - cbn [name_loop]. destruct (decide (prefix +:+ pretty fresh ∈ names)) as [Hin|Hnin].
    + apply HX in Hin; [|lia].
      assert (size X ≠ 0) by (apply size_non_empty_iff; set_solver). lia.
    + eauto.
  - cbn [name_loop]. destruct (decide (prefix +:+ pretty fresh ∈ names)) as [Hin|Hnin].
    + apply (IH (S fresh) (X ∖ {[ prefix +:+ pretty fresh ]})).
      * intros k Hk Hkin. apply elem_of_difference. split; [apply HX; [lia|exact Hkin]|].
        rewrite not_elem_of_singleton. intros Heq.
        apply String.app_inj, pretty_nat_inj in Heq. lia.
      * assert (Hx : prefix +:+ pretty fresh ∈ X) by (apply HX; [lia|exact Hin]).
        pose proof (size_difference X {[ prefix +:+ pretty fresh ]}) as Hd.
        rewrite size_singleton in Hd.
        assert ({[ prefix +:+ pretty fresh ]} ⊆ X) by set_solver.
        specialize (Hd ltac:(assumption)). lia.
    + eauto.
Qed.

Lemma name_loop_total prefix (names : gset string) name0 fresh :
  ∃ n fresh', name_loop (S (size names)) prefix names name0 fresh
              = Some (n, fresh') ∧ n ∉ names.
Proof.
  cbn [name_loop]. destruct (decide (name0 ∈ names)); [|eauto].
  apply (name_loop_generated prefix names (size names) fresh names); auto.
Qed.

Lemma name_spec t fmt :
  ∃ n fmt', name t fmt = Ok (n, fmt') ∧
            ids fmt' !! id_of t = Some n ∧
            ids_extend fmt fmt' ∧
            (names_ok fmt → names_ok fmt').
Proof.
  unfold name. destruct (ids fmt !! id_of t) as [n|] eqn:Hid.
  { exists n, fmt. split; [reflexivity|]. split; [exact Hid|].
    split; [intros i m Hm; exact Hm|auto]. }
  set (prefix := if L.isinstance_Constant t then "C" else "%").
  destruct (if (L.isinstance_Input t || L.isinstance_Instruction t)
               && negb (String.eqb (L.name_attr t) "")
            then (L.name_attr t, fresh fmt)
            else (prefix +:+ pretty (fresh fmt), S (fresh fmt)))
    as [name0 fresh0].
  destruct (name_loop_total prefix (names fmt) name0 fresh0)
    as (n & fresh1 & -> & Hnin).
  eexists _, _. split; [reflexivity|]. cbn [ids names].
  split; [apply lookup_insert_eq|]. split.
  - intros i m Hm. cbn [ids]. rewrite lookup_insert_ne; [exact Hm|congruence].
  - intros [Hrec Hinj]. split; cbn [ids names].
    + intros i m. rewrite lookup_insert. case_decide.
      * intros [= <-]. set_solver.
      * intros Hm. apply Hrec in Hm. set_solver.
    + intros i j m. rewrite !lookup_insert.
      repeat case_decide; subst; try congruence.
      * intros [= <-] Hj. apply Hrec in Hj. contradiction.
      * intros Hi [= <-]. apply Hrec in Hi. contradiction.
      * apply Hinj.
Qed.

Lemma names_ok_init : names_ok Formatter_init.
Proof. split; cbn; intros *; rewrite lookup_empty; discriminate. Qed.

Lemma ids_extend_refl fmt : ids_extend fmt fmt.
Proof. intros i n Hn. exact Hn. Qed.

Lemma ids_extend_trans f1 f2 f3 :
  ids_extend f1 f2 → ids_extend f2 f3 → ids_extend f1 f3.
Proof. intros H12 H23 i n Hn. apply H23, H12, Hn. Qed.

Lemma name_calls_spec ts fmt :
  ∃ ns fmt', name_calls ts fmt = Ok (ns, fmt') ∧
             Forall2 (λ t n, ids fmt' !! id_of t = Some n) ts ns ∧
             ids_extend fmt fmt' ∧
             (names_ok fmt → names_ok fmt').
Proof.
  revert fmt. induction ts as [|t ts IH]; intros fmt.
  - exists [], fmt. split; [reflexivity|]. split; [constructor|].
    split; [apply ids_extend_refl|auto].
  - destruct (name_spec t fmt) as (n & fmt1 & Hn & Hid & Hext1 & Hok1).
    destruct (IH fmt1) as (ns & fmt2 & Hns & Hall & Hext2 & Hok2).
    exists (n :: ns), fmt2. split; [|split; [|split]].
    + unfold name_calls in *. cbn [mapM]. unfold bind at 1. rewrite Hn.
      unfold bind at 1. rewrite Hns. reflexivity.
    + constructor; [apply Hext2, Hid|exact Hall].
    + eapply ids_extend_trans; eassumption.
    + auto.
Qed.

(** C6.  However many times and on whatever terms [name] is called on a new
    Formatter, every call returns; two calls return the same string exactly
    when they are on the same identity; and afterwards the term-to-name map
    is injective and every name in it is in the set of used names. *)
Theorem name_stable_and_injective (ts : list term) :
  ∃ ns fmt',
    name_calls ts Formatter_init = Ok (ns, fmt') ∧
    length ns = length ts ∧
    (∀ k1 k2 t1 t2 n1 n2,
       ts !! k1 = Some t1 → ts !! k2 = Some t2 →
       ns !! k1 = Some n1 → ns !! k2 = Some n2 →
       (n1 = n2 ↔ id_of t1 = id_of t2)) ∧
    (∀ i j n, ids fmt' !! i = Some n → ids fmt' !! j = Some n → i = j) ∧
    (∀ i n, ids fmt' !! i = Some n → n ∈ names fmt').
Proof.
  destruct (name_calls_spec ts Formatter_init)
    as (ns & fmt' & Hrun & Hall & _ & Hok).
  destruct (Hok names_ok_init) as [Hrec Hinj].
  exists ns, fmt'. split; [exact Hrun|].
  split; [symmetry; eapply Forall2_length, Hall|].
  split; [|split; [exact Hinj|exact Hrec]].
  intros k1 k2 t1 t2 n1 n2 Ht1 Ht2 Hn1 Hn2.
  pose proof (Forall2_lookup_lr _ _ _ _ _ _ Hall Ht1 Hn1) as H1.
  pose proof (Forall2_lookup_lr _ _ _ _ _ _ Hall Ht2 Hn2) as H2.
  cbn beta in H1, H2. split.
  - intros <-. eapply Hinj; eassumption.
  - intros Hid. rewrite Hid in H1. congruence.
Qed.

(** ** The printers *)

Lemma preserves_ret {A} (a : A) : preserves (ret a).
Proof.
  intros fmt b fmt' [= <- <-]. split; [apply ids_extend_refl|auto].
Qed.

Lemma preserves_raise {A} e : preserves (@raise A e).
Proof. intros fmt b fmt' Heq. discriminate Heq. Qed.

Lemma preserves_bind {A B} (m : M A) (k : A → M B) :
  preserves m → (∀ a, preserves (k a)) → preserves (bind m k).
Proof.
  intros Hm Hk fmt b fmt'. unfold bind.
  destruct (m fmt) as [[a fmt1]|e] eqn:Hmf; [|discriminate].
  intros Hkf. destruct (Hm _ _ _ Hmf) as [He1 Ho1].
  destruct (Hk a _ _ _ Hkf) as [He2 Ho2].
  split; [eapply ids_extend_trans; eassumption|auto].
Qed.

Lemma preserves_mapM {A B} (f : A → M B) xs :
  (∀ x, preserves (f x)) → preserves (mapM f xs).
Proof.
  intros Hf. induction xs as [|x xs IH]; cbn [mapM].
  - apply preserves_ret.
  - apply preserves_bind; [apply Hf|]. intros y.
    apply preserves_bind; [exact IH|]. intros ys. apply preserves_ret.
Qed.

Lemma preserves_name t : preserves (name t).
Proof.
  intros fmt n fmt' Hn.
  destruct (name_spec t fmt) as (n' & fmt'' & Hn' & _ & Hext & Hok).
  rewrite Hn in Hn'. injection Hn' as <- <-. auto.
Qed.

Lemma total_name t : total (name t).
Proof.
  intros fmt. destruct (name_spec t fmt) as (n & fmt' & Hn & _). eauto.
Qed.

Lemma preserves_operand t prec ty : preserves (operand t prec ty).
Proof.
  unfold operand. apply preserves_bind.
  - intros fmt d fmt'.
    destruct (bool_decide _ || _).
    + apply preserves_bind; [apply preserves_name|].
      intros n. apply preserves_ret.
    + apply preserves_ret.
  - intros d. destruct ty; apply preserves_ret.
Qed.

Lemma total_operand t prec ty : total (operand t prec ty).
Proof.
  intros fmt. unfold operand, bind.
  destruct (bool_decide _ || _).
  - destruct (total_name t fmt) as (n & fmt' & ->). cbn.
    destruct ty; cbn; eauto.
  - cbn. destruct ty; cbn; eauto.
Qed.

Lemma preserves_subscript {V} (table : list (string * V)) key :
  preserves (subscript table key).
Proof.
  unfold subscript. destruct (dict_get table key);
    [apply preserves_ret|apply preserves_raise].
Qed.

Lemma gather_eq op_prec t :
  gather op_prec t =
  match label_of t with
  | BinaryCnxp code =>
      let* p := subscript _bin_cnxp_prec code in
      if negb (op_prec =? p)%Z then operand t op_prec None
      else
        match args t with
        | [x; y] =>
            let* dx := gather op_prec x in
            let* dy := (if in_lassoc code then operand y op_prec None
                        else gather op_prec y) in
            ret (seq [dx; line; text code; text " "; dy])
        | _ => raise AttributeError
        end
  | _ => operand t op_prec None
  end.
Proof. destruct t as [i [] ts]; reflexivity. Qed.

Lemma preserves_gather op_prec t : preserves (gather op_prec t).
Proof.
  induction t as [i l ts IH] using term_ind_args.
  rewrite gather_eq. cbn [label_of args].
  destruct l; try apply preserves_operand.
  apply preserves_bind; [apply preserves_subscript|]. intros p.
  destruct (negb _); [apply preserves_operand|].
  destruct ts as [|x [|y [|z ts]]]; try apply preserves_raise.
  apply Forall_cons in IH as [IHx IH]. apply Forall_cons in IH as [IHy _].
  apply preserves_bind; [exact IHx|]. intros dx.
  apply preserves_bind.
  - destruct (in_lassoc code); [apply preserves_operand|exact IHy].
  - intros dy. apply preserves_ret.
Qed.

Lemma cnxp_ok_BinaryCnxp i code ts :
  cnxp_ok (Node i (BinaryCnxp code) ts) = true →
  (∃ p, dict_get _bin_cnxp_prec code = Some p) ∧
  ∃ x y, ts = [x; y] ∧ cnxp_ok x = true ∧ cnxp_ok y = true.
Proof.
  cbn [cnxp_ok]. rewrite !andb_true_iff, !bool_decide_eq_true.
  intros [[[p Hp] Hlen] Hall]. split; [eauto|].
  destruct ts as [|x [|y [|z ts]]]; try discriminate Hlen.
  exists x, y. cbn [forallb] in Hall.
  rewrite !andb_true_iff in Hall. tauto.
Qed.

Lemma total_gather op_prec t : cnxp_ok t = true → total (gather op_prec t).
Proof.
  induction t as [i l ts IH] using term_ind_args. intros Hok.
  rewrite gather_eq. cbn [label_of args].
  destruct l; try apply total_operand.
  apply cnxp_ok_BinaryCnxp in Hok as [[p Hp] (x & y & -> & Hx & Hy)].
  apply Forall_cons in IH as [IHx IH]. apply Forall_cons in IH as [IHy _].
  intros fmt. unfold bind, subscript. rewrite Hp. cbn [ret].
  destruct (negb _); [apply total_operand|].
  destruct (IHx Hx fmt) as (dx & fmt1 & ->).
  destruct (in_lassoc code).
  - destruct (total_operand y op_prec None fmt1) as (dy & fmt2 & ->). eauto.
  - destruct (IHy Hy fmt1) as (dy & fmt2 & ->). eauto.
Qed.

(** On a binary connective expression, at its own precedence, [gather]
    builds the five-part chain. *)
Lemma gather_chain i code x y p fmt :
  dict_get _bin_cnxp_prec code = Some p →
  cnxp_ok (Node i (BinaryCnxp code) [x; y]) = true →
  ∃ dx dy fmt',
    gather p (Node i (BinaryCnxp code) [x; y]) fmt
    = Ok (seq [dx; line; text code; text " "; dy], fmt').
Proof.
  intros Hp Hok.
  apply cnxp_ok_BinaryCnxp in Hok as [_ (x' & y' & [= <- <-] & Hx & Hy)].
  rewrite gather_eq. cbn [label_of args]. unfold bind, subscript.
  rewrite Hp. cbn [ret]. rewrite Z.eqb_refl. cbn [negb].
  destruct (total_gather p x Hx fmt) as (dx & fmt1 & ->).
  destruct (in_lassoc code).
  - destruct (total_operand y p None fmt1) as (dy & fmt2 & ->). eauto.
  - destruct (total_gather p y Hy fmt1) as (dy & fmt2 & ->). eauto.
Qed.

Lemma format_doc_BinaryCnxp i code ts prec :
  format_doc (Node i (BinaryCnxp code) ts) prec =
  (let* op_prec := subscript _bin_cnxp_prec code in
   let* body := gather op_prec (Node i (BinaryCnxp code) ts) in
   let body := if (op_prec <=? prec)%Z || ((0 <? prec)%Z && (prec <? 8)%Z)
               then parens body else body in
   ret (nest 2 (group body))).
Proof. destruct ts as [|x [|y [|z ts]]]; reflexivity. Qed.

(** C1 as stated fails: an additive expression printed as the operand of a
    comparison, at the enclosing precedence 3 < 8, is parenthesised. *)
Lemma additive_under_comparison_is_parenthesized :
  dict_get _bin_cnxp_prec "+" = Some 8%Z ∧
  (∃ rest fmt',
     format_doc ExCnxp.sum_eq 0 Formatter_init
     = Ok (group (seq (nest 3 (Formatted ExCnxp.sum 3) :: rest)), fmt')) ∧
  ∃ d fmt', format_doc ExCnxp.sum 3 Formatter_init = Ok (d, fmt') ∧
            parenthesized d = true.
Proof.
  split; [reflexivity|]. split.
  - eexists _, _. vm_compute. reflexivity.
  - eexists _, _. split; vm_compute; reflexivity.
Qed.

(** ** [format_doc] and [format_parts] *)

Ltac preserves_step :=
  first
    [ apply preserves_ret
    | apply preserves_raise
    | apply preserves_name
    | apply preserves_operand
    | apply preserves_subscript
    | apply preserves_gather
    | apply preserves_mapM; intros ?
    | apply preserves_bind; [|intros ?] ].

Lemma preserves_format_doc t prec : preserves (format_doc t prec).
Proof.
  destruct t as [i l ts]. unfold format_doc. cbn [label_of args].
  destruct l; try (repeat preserves_step; fail);
    destruct ts as [|x [|y [|z [|w ts]]]]; repeat preserves_step.
Qed.

Lemma preserves_named_doc t : preserves (named_doc t).
Proof.
  unfold named_doc. repeat preserves_step. apply preserves_format_doc.
Qed.

Lemma named_doc_id t fmt e fmt' :
  named_doc t fmt = Ok (e, fmt') → ids fmt' !! id_of t = Some e.1.
Proof.
  unfold named_doc, bind.
  destruct (name_spec t fmt) as (n & fmt1 & -> & Hid & _).
  destruct (format_doc t 0 fmt1) as [[d fmt2]|] eqn:Hd; [|discriminate].
  cbn [ret]. intros [= <- <-]. cbn [fst].
  apply (preserves_format_doc t 0 _ _ _ Hd), Hid.
Qed.

(** The comprehension over [get_insts(tgt)] lists, in order, instructions
    that had no assignment when the comprehension began, each under the
    name it has afterwards. *)
Lemma unnamed_docs_spec insts :
  ∀ fmt ds fmt', unnamed_docs insts fmt = Ok (ds, fmt') →
    ids_extend fmt fmt' ∧
    ∃ chosen, chosen `sublist_of` insts ∧
      Forall (λ i, id_of i ∉ dom (ids fmt)) chosen ∧
      Forall2 (λ i (e : string * Doc), ids fmt' !! id_of i = Some e.1)
              chosen ds.
Proof.
  induction insts as [|i insts IH]; intros fmt ds fmt'; cbn [unnamed_docs].
  - intros [= <- <-]. split; [apply ids_extend_refl|].
    exists []. split; [constructor|]. split; constructor.
  - destruct (bool_decide (id_of i ∈ dom (ids fmt))) eqn:Hin.
    + intros Hrun. destruct (IH _ _ _ Hrun) as (Hext & chosen & Hsub & Hnot & Hall).
      split; [exact Hext|]. exists chosen.
      split; [apply sublist_cons, Hsub|]. split; assumption.
    + apply bool_decide_eq_false in Hin. unfold bind at 1.
      destruct (named_doc i fmt) as [[e fmt1]|] eqn:He; [|discriminate].
      unfold bind at 1.
      destruct (unnamed_docs insts fmt1) as [[ds' fmt2]|] eqn:Hrest;
        [|discriminate].
      cbn [ret]. intros [= <- <-].
      destruct (IH _ _ _ Hrest) as (Hext2 & chosen & Hsub & Hnot & Hall).
      destruct (preserves_named_doc i _ _ _ He) as [Hext1 _].
      split; [eapply ids_extend_trans; eassumption|].
      exists (i :: chosen). split; [apply sublist_skip, Hsub|]. split.
      * constructor; [exact Hin|]. eapply Forall_impl; [exact Hnot|].
        intros j Hj Hjin. apply Hj. apply elem_of_dom in Hjin as [n Hn].
        apply elem_of_dom. exists n. apply Hext1, Hn.
      * constructor; [|exact Hall]. apply Hext2. eapply named_doc_id, He.
Qed.

(** ** The line-continuation renderer *)

Module RenderFacts.
Import Render.

Section trace.
Variables (width : Z) (prefix suffix : string) (start_at : Z).

Abbreviation step := (step width prefix suffix).
Abbreviation run_from := (run_from width prefix suffix).

Abbreviation block := (block prefix suffix).
Abbreviation marked := (marked prefix suffix).

Lemma step_block st ev : block (step st ev).2.
Proof.
  destruct ev as [hp s|hp indent|hp indent|hp|]; unfold Render.step;
    cbn zeta; repeat (case_bool_decide || case_match); cbn [snd];
    try (constructor; assumption).
  all: replace (broken st) with 0%Z
         by (destruct (decide (broken st = 0%Z)); [congruence|tauto]);
       constructor.
Qed.

Lemma marked_nil : marked [].
Proof. intros [|a l1] c l2 Heq; discriminate Heq. Qed.

(** A chunk that is not the marker and not a newline may be put in front. *)
Lemma marked_cons_other c0 tr :
  c_site c0 ≠ OSuffix → c_site c0 ≠ ONewline → marked tr → marked (c0 :: tr).
Proof.
  intros Hs Hn Htr l1 c l2 Heq. destruct l1 as [|a l1]; cbn in Heq.
  - injection Heq as <- <-. split; intros; congruence.
  - injection Heq as <- Heq. destruct (Htr _ _ _ Heq) as [HN HS].
    split; [|exact HS]. intros Hc. destruct (HN Hc) as (Hstr & Hb & Hnb).
    split; [exact Hstr|]. split.
    + intros Hne. destruct (Hb Hne) as (c' & Hlast & Hc').
      exists c'. split; [|exact Hc'].
      destruct l1; [discriminate Hlast|exact Hlast].
    + intros Hz c' Hlast. destruct l1 as [|a' l1].
      * cbn in Hlast. injection Hlast as <-. exact Hs.
      * apply (Hnb Hz). exact Hlast.
Qed.

Lemma marked_block o tr : block o → marked tr → marked (o ++ tr).
Proof.
  intros Ho Htr. destruct Ho as [|b s|b s|b ind Hb|ind]; cbn [app].
  - exact Htr.
  - apply marked_cons_other; [discriminate..|exact Htr].
  - apply marked_cons_other; [discriminate..|exact Htr].
  - assert (Hrest : marked (mkChunk OIndent b ind :: tr))
      by (apply marked_cons_other; [discriminate..|exact Htr]).
    intros l1 c l2 Heq. destruct l1 as [|a1 l1]; cbn in Heq.
    { injection Heq as <- <-. cbn. split; [discriminate|].
      intros _. split; [exact Hb|]. eexists. split; reflexivity. }
    injection Heq as <- Heq. destruct l1 as [|a2 l1]; cbn in Heq.
    { injection Heq as <- <-. cbn. split; [|discriminate].
      intros _. split; [reflexivity|]. split; [|intros; contradiction].
      intros _. eexists. split; [reflexivity|]. split; reflexivity. }
    injection Heq as <- Heq. destruct (Hrest _ _ _ Heq) as [HN HS].
    split; [|exact HS]. intros Hc. destruct (HN Hc) as (Hstr & Hb' & Hnb).
    split; [exact Hstr|]. split.
    + intros Hne. destruct (Hb' Hne) as (c' & Hlast & Hc').
      exists c'. split; [|exact Hc'].
      destruct l1; [discriminate Hlast|exact Hlast].
    + intros Hz c' Hlast. destruct l1 as [|a' l1].
      * cbn in Heq. injection Heq as Hc0 _. rewrite <- Hc0 in Hc.
        discriminate Hc.
      * apply (Hnb Hz). exact Hlast.
  - assert (Hrest : marked (mkChunk OIndent 0 ind :: tr))
      by (apply marked_cons_other; [discriminate..|exact Htr]).
    intros l1 c l2 Heq. destruct l1 as [|a1 l1]; cbn in Heq.
    { injection Heq as <- <-. cbn. split; [|discriminate].
      intros _. split; [reflexivity|]. split; [intros; contradiction|].
      intros _ c' Hlast. discriminate Hlast. }
    injection Heq as <- Heq. destruct (Hrest _ _ _ Heq) as [HN HS].
    split; [|exact HS]. intros Hc. destruct (HN Hc) as (Hstr & Hb' & Hnb).
    split; [exact Hstr|]. split.
    + intros Hne. destruct (Hb' Hne) as (c' & Hlast & Hc').
      exists c'. split; [|exact Hc'].
      destruct l1; [discriminate Hlast|exact Hlast].
    + intros Hz c' Hlast. destruct l1 as [|a' l1].
      * cbn in Heq. injection Heq as Hc0 _. rewrite <- Hc0 in Hc.
        discriminate Hc.
      * apply (Hnb Hz). exact Hlast.
Qed.

Lemma run_from_marked st evs : marked (run_from st evs).
Proof.
  revert st. induction evs as [|ev evs IH]; intros st; cbn [Render.run_from].
  - apply marked_nil.
  - apply marked_block; [apply step_block|apply IH].
Qed.
End trace.

(** C8 (as amended).  For every event sequence: a newline written while
    the renderer counts an open broken group ([broken] not 0) comes right
    after the continuation marker; a newline written while it counts none
    does not, whatever was broken earlier; every newline is the line feed
    followed by the caller's prefix; and the marker is written only while a
    broken group is counted open, right before a newline. *)
Theorem line_continue_marks_open_broken_groups
    (width : Z) (prefix suffix : string) (start_at : Z)
    (evs : list Render.event) (l1 l2 : list Render.chunk) (c : Render.chunk) :
  Render.run width prefix suffix start_at evs = l1 ++ c :: l2 →
  (c_site c = ONewline →
     c_str c = String "010"%char prefix ∧
     (c_broken c ≠ 0%Z →
        ∃ c', last l1 = Some c' ∧ c_site c' = OSuffix ∧ c_str c' = suffix) ∧
     (c_broken c = 0%Z →
        ∀ c', last l1 = Some c' → c_site c' ≠ OSuffix)) ∧
  (c_site c = OSuffix →
     c_broken c ≠ 0%Z ∧ ∃ c', head l2 = Some c' ∧ c_site c' = ONewline).
Proof.
  intros Heq.
  exact (run_from_marked width prefix suffix _ evs l1 c l2 Heq).
Qed.

Lemma line_continue_marks_open_broken_groups_witness :
  Render.run 80 "" " \" 0 ExRender.broken_then_top
  = [mkChunk OSuffix 1 " \"] ++ mkChunk ONewline 1 (String "010"%char "")
    :: [mkChunk OIndent 1 "  "; mkChunk ONewline 0 (String "010"%char "");
        mkChunk OIndent 0 ""] ∧
  ∃ c', last [mkChunk OSuffix 1 " \"] = Some c' ∧ c_site c' = OSuffix.
Proof.
  assert (Heq : Render.run 80 "" " \" 0 ExRender.broken_then_top
    = [mkChunk OSuffix 1 " \"] ++ mkChunk ONewline 1 (String "010"%char "")
      :: [mkChunk OIndent 1 "  "; mkChunk ONewline 0 (String "010"%char "");
          mkChunk OIndent 0 ""]) by (vm_compute; reflexivity).
  split; [exact Heq|].
  destruct (line_continue_marks_open_broken_groups _ _ _ _ _ _ _ _ Heq)
    as [HN _].
  destruct (HN eq_refl) as (_ & Hb & _).
  destruct (Hb ltac:(discriminate)) as (c' & Hlast & Hsite & _). eauto.
Defined.

(** C8 as stated fails: after a broken group has been closed, a line
    outside of every group is written as a newline that no continuation
    marker precedes, although a break (with its marker) came before. *)
Lemma newline_after_closed_group_is_unmarked :
  ∃ l1 c l2,
    Render.run 80 "" " \" 0 ExRender.broken_then_top = l1 ++ c :: l2 ∧
    c_site c = ONewline ∧
    (∃ c0, c0 ∈ l1 ∧ c_site c0 = OSuffix) ∧
    (∃ c1, c1 ∈ l1 ∧ c_site c1 = ONewline) ∧
    ¬ (∃ c', last l1 = Some c' ∧ c_site c' = OSuffix).
Proof.
  exists [mkChunk OSuffix 1 " \"; mkChunk ONewline 1 (String "010"%char "");
          mkChunk OIndent 1 "  "],
         (mkChunk ONewline 0 (String "010"%char "")),
         [mkChunk OIndent 0 ""].
  split; [vm_compute; reflexivity|]. split; [reflexivity|].
  split; [eexists; split; [left|reflexivity]|].
  split; [eexists; split; [right; left|reflexivity]|].
  intros (c' & Hlast & Hsite). cbn in Hlast. injection Hlast as <-.
  discriminate Hsite.
Qed.

End RenderFacts.

(** ** [type_constraints] and [validate_model] *)

Lemma append_assoc (a b c : string) : (a +:+ b) +:+ c = a +:+ b +:+ c.
Proof.
  induction a as [|x a IH]; [reflexivity|].
  change (String x ((a +:+ b) +:+ c) = String x (a +:+ b +:+ c)).
  f_equal. exact IH.
Qed.

Lemma append_nil_r (a : string) : a +:+ "" = a.
Proof.
  induction a as [|x a IH]; [reflexivity|].
  change (String x (a +:+ "") = String x a). f_equal. exact IH.
Qed.

Lemma occurs_in_concat sep s l : s ∈ l → occurs_in s (String.concat sep l).
Proof.
  induction 1 as [s l|s x l Hin IH].
  - destruct l as [|y l]; cbn [String.concat].
    + exists "", "". change ("" +:+ s +:+ "") with (s +:+ "").
      rewrite append_nil_r. reflexivity.
    + exists "", (sep +:+ String.concat sep (y :: l)). reflexivity.
  - destruct l as [|y l]; [inversion Hin|].
    destruct IH as (before & after & Heq).
    change (String.concat sep (x :: y :: l))
      with (x +:+ sep +:+ String.concat sep (y :: l)).
    rewrite Heq. exists (x +:+ sep +:+ before), after.
    rewrite !append_assoc. reflexivity.
Qed.

Lemma occurs_in_append_l a s msg : occurs_in s msg → occurs_in s (a +:+ msg).
Proof.
  intros (before & after & ->). exists (a +:+ before), after.
  rewrite append_assoc. reflexivity.
Qed.

Lemma total_mapM {A B} (f : A → M B) xs :
  (∀ x, total (f x)) → total (mapM f xs).
Proof.
  intros Hf. induction xs as [|x xs IH]; intros fmt; cbn [mapM].
  - eexists _, _. reflexivity.
  - unfold bind. destruct (Hf x fmt) as (y & fmt1 & ->).
    destruct (IH fmt1) as (ys & fmt2 & ->). eexists _, _. reflexivity.
Qed.

Lemma mapM_Forall2 {A B} (f : A → M B) xs :
  ∀ fmt ys fmt', mapM f xs fmt = Ok (ys, fmt') →
    Forall2 (λ x y, ∃ f1 f2, f x f1 = Ok (y, f2)) xs ys.
Proof.
  induction xs as [|x xs IH]; intros fmt ys fmt'; cbn [mapM].
  - intros [= <- _]. constructor.
  - unfold bind. destruct (f x fmt) as [[y fmt1]|] eqn:Hy; [|discriminate].
    destruct (mapM f xs fmt1) as [[ys' fmt2]|] eqn:Hys; [|discriminate].
    intros [= <- _]. constructor; [eauto|]. eapply IH, Hys.
Qed.

Lemma elem_of_set_discard x r s :
  x ∈ set_discard r s ↔ x ∈ s ∧ id_of x ≠ id_of r.
Proof. unfold set_discard. rewrite list_elem_of_filter. tauto. Qed.

Lemma elem_of_set_of x rs : x ∈ set_of rs → x ∈ rs.
Proof.
  unfold set_of.
  enough (Hgen : ∀ s, x ∈ foldl (λ s r, set_add r s) s rs → x ∈ s ∨ x ∈ rs).
  { intros Hx. destruct (Hgen [] Hx) as [Hnil|?]; [inversion Hnil|assumption]. }
  induction rs as [|r rs IH]; intros s; cbn [foldl]; [auto|].
  intros Hx. destruct (IH _ Hx) as [Hs|Hrs]; [|right; right; exact Hrs].
  unfold set_add in Hs. case_bool_decide; [auto|].
  apply elem_of_app in Hs as [Hs|Hs]; [auto|].
  apply list_elem_of_singleton in Hs as ->. right. left.
Qed.

Lemma elem_of_discard_all {E : Environment} (t : TypeConstraints) x src_reps :
  ∀ reps, x ∈ foldl (λ reps r, set_discard (sets_rep t r) reps) reps src_reps →
    x ∈ reps ∧ ∀ s, s ∈ src_reps → id_of (sets_rep t s) ≠ id_of x.
Proof.
  induction src_reps as [|r rs IH]; intros reps; cbn [foldl].
  - intros Hx. split; [exact Hx|]. intros s Hs. inversion Hs.
  - intros Hx. destruct (IH _ Hx) as [Hin Hrs].
    apply elem_of_set_discard in Hin as [Hin Hne]. split; [exact Hin|].
    intros s Hs. apply elem_of_cons in Hs as [->|Hs]; [congruence|auto].
Qed.

Lemma elem_of_new_reps {E : Environment} (t : TypeConstraints) src_reps x :
  x ∈ new_reps t src_reps →
  x ∈ sets_reps t ∧ in_specifics t x = false ∧ constraint_not_BOOL t x = true ∧
  ∀ s, s ∈ src_reps → id_of (sets_rep t s) ≠ id_of x.
Proof.
  unfold new_reps. intros Hx. apply elem_of_discard_all in Hx as [Hx Hsrc].
  apply elem_of_set_of, list_elem_of_filter in Hx as [Hp Hx].
  apply andb_true_iff in Hp as [Hs Hb]. apply negb_true_iff in Hs. auto.
Qed.

(** Defaulting only removes elements of [reps]. *)
Lemma apply_defaults_subset {E : Environment} (t : TypeConstraints)
    reps defaultable t' reps' :
  apply_defaults t reps defaultable = Ok (t', reps') →
  ∀ x, x ∈ reps' → x ∈ reps.
Proof.
  unfold apply_defaults. destruct reps as [|r0 reps0]; [intros [= _ <-]; auto|].
  generalize (r0 :: reps0) as reps. clear r0 reps0. revert t.
  induction defaultable as [|term ds IH]; intros t reps; cbn [foldlM].
  - intros [= _ <-]. auto.
  - unfold rbind at 1. destruct (set_mem _ reps).
    + unfold rbind at 1. destruct (default_type _ t) as [t1|]; [|discriminate].
      intros Hrun x Hx. apply (IH _ _ Hrun) in Hx.
      apply elem_of_set_discard in Hx. tauto.
    + apply IH.
Qed.

Lemma NoDup_set_discard r s :
  NoDup (id_of <$> s) → NoDup (id_of <$> set_discard r s).
Proof.
  intros Hn. eapply sublist_NoDup; [exact Hn|].
  apply fmap_sublist, sublist_filter.
Qed.

Lemma NoDup_set_of rs : NoDup (id_of <$> set_of rs).
Proof.
  unfold set_of.
  enough (Hgen : ∀ s, NoDup (id_of <$> s) →
                      NoDup (id_of <$> foldl (λ s r, set_add r s) s rs)).
  { apply Hgen. constructor. }
  induction rs as [|r rs IH]; intros s Hs; cbn [foldl]; [exact Hs|].
  apply IH. unfold set_add. case_bool_decide as Hin; [exact Hs|].
  rewrite fmap_app. apply NoDup_app. split; [exact Hs|]. split.
  - intros i Hi Hi'. apply list_elem_of_singleton in Hi' as ->. contradiction.
  - apply NoDup_singleton.
Qed.

Lemma NoDup_new_reps {E : Environment} (t : TypeConstraints) src_reps :
  NoDup (id_of <$> new_reps t src_reps).
Proof.
  unfold new_reps. generalize (set_of (filter
    (λ r, negb (in_specifics t r) && constraint_not_BOOL t r = true)
    (sets_reps t))) (NoDup_set_of (filter
    (λ r, negb (in_specifics t r) && constraint_not_BOOL t r = true)
    (sets_reps t))).
  induction src_reps as [|r rs IH]; intros reps Hn; cbn [foldl]; [exact Hn|].
  apply IH, NoDup_set_discard, Hn.
Qed.

Lemma NoDup_apply_defaults {E : Environment} (t : TypeConstraints)
    reps defaultable t' reps' :
  apply_defaults t reps defaultable = Ok (t', reps') →
  NoDup (id_of <$> reps) → NoDup (id_of <$> reps').
Proof.
  unfold apply_defaults. destruct reps as [|r0 reps0]; [intros [= _ <-]; auto|].
  generalize (r0 :: reps0) as reps. clear r0 reps0. revert t.
  induction defaultable as [|term ds IH]; intros t reps; cbn [foldlM].
  - intros [= _ <-]. auto.
  - unfold rbind at 1. destruct (set_mem _ reps).
    + unfold rbind at 1. destruct (default_type _ t) as [t1|]; [|discriminate].
      intros Hrun Hn. apply (IH _ _ Hrun), NoDup_set_discard, Hn.
    + apply IH.
Qed.

Lemma NoDup_constraints_and_reps {E : Environment}
    (self : Transform TypeModel) t reps :
  constraints_and_reps self = Ok (t, reps) → NoDup (id_of <$> reps).
Proof.
  unfold constraints_and_reps.
  destruct (gather_constraints self) as [[[t0 src_reps] defaultable]|];
    [|discriminate].
  cbn [rbind]. intros Hdef.
  eapply NoDup_apply_defaults; [exact Hdef|apply NoDup_new_reps].
Qed.

Lemma name_dom t fmt n fmt' :
  name t fmt = Ok (n, fmt') → dom (ids fmt') = {[ id_of t ]} ∪ dom (ids fmt).
Proof.
  unfold name. destruct (ids fmt !! id_of t) as [m|] eqn:Hid.
  - intros [= <- <-]. apply elem_of_dom_2 in Hid. set_solver.
  - destruct (if _ && _ then _ else _) as [name0 fresh0].
    destruct (name_loop _ _ _ _ _) as [[m fresh1]|]; [|discriminate].
    intros [= <- <-]. cbn [ids]. apply dom_insert_L.
Qed.

Lemma operand_docs_shape xs :
  ∀ fmt docs fmt',
    NoDup (id_of <$> xs) →
    (∀ x, x ∈ xs → id_of x ∉ dom (ids fmt)) →
    mapM (λ term, operand term 0 None) xs fmt = Ok (docs, fmt') →
    Forall2 operand_shape xs docs.
Proof.
  induction xs as [|x xs IH]; intros fmt docs fmt' Hn Hfresh; cbn [mapM].
  - intros [= <- _]. constructor.
  - rewrite fmap_cons in Hn. apply NoDup_cons in Hn as [Hx Hn].
    unfold bind at 1.
    destruct (operand x 0 None fmt) as [[d fmt1]|] eqn:Hd; [|discriminate].
    unfold bind at 1.
    destruct (mapM _ xs fmt1) as [[ds fmt2]|] eqn:Hds; [|discriminate].
    intros [= <- _].
    assert (Hdom : operand_shape x d
                   ∧ dom (ids fmt1) ⊆ {[ id_of x ]} ∪ dom (ids fmt)).
    { revert Hd. unfold operand, operand_shape, bind at 1.
      rewrite bool_decide_eq_false_2 by (apply Hfresh; left). cbn [orb].
      destruct (L.isinstance_Instruction x).
      - unfold bind at 1.
        destruct (name x fmt) as [[n fmt1']|] eqn:Hname; [|discriminate].
        cbn [ret]. intros [= <- <-]. split; [eauto|].
        rewrite (name_dom _ _ _ _ Hname). reflexivity.
      - cbn [ret]. intros [= <- <-]. split; [reflexivity|]. set_solver. }
    destruct Hdom as [Hdx Hdom]. constructor; [exact Hdx|].
    apply (IH fmt1 ds fmt2 Hn); [|exact Hds].
    intros y Hy Hin. apply Hdom in Hin.
    apply elem_of_union in Hin as [Hin|Hin].
    + apply elem_of_singleton in Hin. apply Hx. rewrite <- Hin.
      apply list_elem_of_fmap. eauto.
    + apply (Hfresh y); [right; exact Hy|exact Hin].
Qed.

Lemma join_items_not_str {E : Environment} items :
  ∀ k d, d ∈ items → as_str d = None →
    ∃ msg, join_items k items = Raise (TypeError msg).
Proof.
  induction items as [|d0 items IH]; intros k d Hd Hnone; [inversion Hd|].
  cbn [join_items]. destruct (as_str d0) as [s|] eqn:Hs0; [|eauto].
  apply elem_of_cons in Hd as [->|Hd]; [congruence|].
  destruct (IH (S k) d Hd Hnone) as (msg & ->). cbn [rbind]. eauto.
Qed.

Lemma join_items_strs {E : Environment} items strs :
  Forall2 (λ d s, as_str d = Some s) items strs →
  ∀ k, join_items k items = Ok strs.
Proof.
  induction 1 as [|d s items strs Hd _ IH]; intros k; cbn [join_items];
    [reflexivity|].
  rewrite Hd, IH. reflexivity.
Qed.

Lemma join_items_raises {E : Environment} items :
  ∀ k e, join_items k items = Raise e → ∃ msg, e = TypeError msg.
Proof.
  induction items as [|d items IH]; intros k e; cbn [join_items];
    [discriminate|].
  destruct (as_str d) as [s|]; [|intros [= <-]; eauto].
  destruct (join_items (S k) items) as [ss|e'] eqn:Hj; cbn [rbind];
    [discriminate|].
  intros [= <-]. eapply IH, Hj.
Qed.

(** Whether [str.join] goes through on the operand documents of [xs] is
    decided by [xs] as a set: it does when text documents are strings and
    every term is an Instruction. *)
Lemma join_items_operands {E : Environment} xs docs :
  Forall2 operand_shape xs docs →
  ∀ k, (∃ strs, join_items k docs = Ok strs)
       ↔ (text_is_str = true ∧ Forall (λ x, L.isinstance_Instruction x = true) xs)
         ∨ xs = [].
Proof.
  induction 1 as [|x d xs docs Hd _ IH]; intros k; cbn [join_items].
  - split; [auto|eauto].
  - unfold operand_shape in Hd.
    destruct (L.isinstance_Instruction x) eqn:Hinst.
    + destruct Hd as [n ->]. cbn [as_str]. destruct text_is_str eqn:Hstr.
      * specialize (IH (S k)).
        destruct (join_items (S k) docs) as [ss|e]; cbn [rbind].
        -- split; [intros _; left|eauto]. split; [reflexivity|].
           constructor; [exact Hinst|].
           destruct (proj1 IH ltac:(eauto)) as [[_ Hall]| ->];
             [exact Hall|constructor].
        -- split; [intros [strs Heq]; discriminate Heq|].
           intros [[_ Hall]|Heq]; [|discriminate Heq].
           apply Forall_cons in Hall as [_ Hall].
           destruct (proj2 IH (or_introl (conj eq_refl Hall))) as [strs Heq].
           discriminate Heq.
      * split; [intros [strs Heq]; discriminate Heq|].
        intros [[Heq _]|Heq]; discriminate Heq.
    + subst d. cbn [as_str].
      split; [intros [strs Heq]; discriminate Heq|].
      intros [[_ Hall]|Heq]; [|discriminate Heq].
      apply Forall_cons in Hall as [Hx _]. congruence.
Qed.

Section typing_theorems.
Context {E : Environment}.
Variable iter_order : list term → list term.

Lemma ambiguous_docs_total reps :
  ∃ docs, ambiguous_docs iter_order reps = Ok docs ∧
    Forall2 (λ r d, ∃ f1 f2, operand r 0 None f1 = Ok (d, f2))
            (iter_order reps) docs.
Proof.
  unfold ambiguous_docs.
  destruct (total_mapM (λ term, operand term 0 None) (iter_order reps)
              (λ x, total_operand x 0 None) Formatter_init)
    as (docs & fmt' & Hrun).
  rewrite Hrun. exists docs. split; [reflexivity|].
  eapply mapM_Forall2, Hrun.
Qed.

Lemma ambiguous_docs_shape reps docs :
  iter_order reps ≡ₚ reps → NoDup (id_of <$> reps) →
  ambiguous_docs iter_order reps = Ok docs →
  Forall2 operand_shape (iter_order reps) docs.
Proof.
  intros Hperm Hn. unfold ambiguous_docs.
  destruct (mapM _ (iter_order reps) Formatter_init) as [[docs' fmt']|] eqn:Hrun;
    [|discriminate].
  intros [= <-]. eapply operand_docs_shape; [| |exact Hrun].
  - rewrite Hperm. exact Hn.
  - intros x _. cbn. rewrite dom_empty_L. apply not_elem_of_empty.
Qed.

(** Where every operand document is a string, the message is built as
    intended and names every term left in [reps]. *)
Lemma type_constraints_message_of_strings (self : Transform TypeModel)
    t reps docs strs :
  (∀ l, iter_order l ≡ₚ l) →
  constraints_and_reps self = Ok (t, reps) → reps ≠ [] →
  ambiguous_docs iter_order reps = Ok docs →
  Forall2 (λ d s, as_str d = Some s) docs strs →
  type_constraints iter_order self
  = Raise (TypingError ("Ambiguous type for " +:+ String.concat ", " strs)) ∧
  length strs = length reps ∧
  ∀ s, s ∈ strs →
       occurs_in s ("Ambiguous type for " +:+ String.concat ", " strs).
Proof.
  intros Hperm Hrun Hne Hdocs Hstrs. unfold type_constraints.
  rewrite Hrun. cbn [rbind]. destruct reps as [|r reps]; [contradiction|].
  rewrite Hdocs. cbn [rbind]. unfold str_join.
  rewrite (join_items_strs _ _ Hstrs). cbn [rbind].
  split; [reflexivity|]. split.
  - destruct (ambiguous_docs_total (r :: reps)) as (docs' & Hdocs' & Hall).
    rewrite Hdocs in Hdocs'. injection Hdocs' as <-.
    rewrite <- (Forall2_length _ _ _ Hstrs), <- (Forall2_length _ _ _ Hall).
    apply Permutation_length, Hperm.
  - intros s Hs. apply occurs_in_append_l, occurs_in_concat, Hs.
Qed.
End typing_theorems.

(** C2, where the code departs from it.  With nothing left in [reps],
    [type_constraints] returns the collector.  With a term left in [reps]
    that is not an Instruction, it does not raise [typing.Error]: the
    operand routine gives a suspended [Formatted] document for that term,
    [str.join] takes strings only, and the call raises [TypeError] while the
    message is being built. *)
Theorem type_constraints_join_raises_TypeError {E : Environment}
    (iter_order : list term → list term) (self : Transform TypeModel)
    (t : TypeConstraints) (reps : list term) :
  (∀ l, iter_order l ≡ₚ l) →
  constraints_and_reps self = Ok (t, reps) →
  (reps = [] → type_constraints iter_order self = Ok t) ∧
  (∀ r, r ∈ reps → L.isinstance_Instruction r = false →
        ∃ msg, type_constraints iter_order self = Raise (TypeError msg)).
Proof.
  intros Hperm Hrun. split.
  - intros ->. unfold type_constraints. rewrite Hrun. reflexivity.
  - intros r Hr Hinst. unfold type_constraints. rewrite Hrun. cbn [rbind].
    destruct (ambiguous_docs_total iter_order reps) as (docs & Hdocs & _).
    pose proof (ambiguous_docs_shape iter_order reps docs (Hperm reps)
                  (NoDup_constraints_and_reps _ _ _ Hrun) Hdocs) as Hall.
    destruct reps as [|r0 reps0]; [inversion Hr|].
    rewrite Hdocs. cbn [rbind]. unfold str_join.
    rewrite <- (Hperm (r0 :: reps0)) in Hr.
    apply list_elem_of_lookup in Hr as [k Hk].
    destruct (Forall2_lookup_l _ _ _ _ _ Hall Hk) as (d & Hd & Hfmt).
    unfold operand_shape in Hfmt. rewrite Hinst in Hfmt. subst d.
    destruct (join_items_not_str docs 0 (Formatted r 0)) as (msg & ->);
      [apply list_elem_of_lookup; eauto|reflexivity|].
    cbn [rbind]. eauto.
Qed.

Lemma type_constraints_join_raises_TypeError_witness :
  (∀ l, SimpleTyping.insertion_order l ≡ₚ l) ∧
  ∃ t,
    constraints_and_reps SimpleTyping.ambiguous = Ok (t, [SimpleTyping.p]) ∧
    L.isinstance_Instruction SimpleTyping.p = false ∧
    ∃ msg,
      type_constraints SimpleTyping.insertion_order SimpleTyping.ambiguous
      = Raise (TypeError msg).
Proof.
  assert (Hperm : ∀ l, SimpleTyping.insertion_order l ≡ₚ l)
    by (intros l; reflexivity).
  split; [exact Hperm|].
  destruct (constraints_and_reps (E := SimpleTyping.environment)
              SimpleTyping.ambiguous) as [[t reps]|e] eqn:Hrun.
  2:{ vm_compute in Hrun. discriminate Hrun. }
  assert (Hreps : reps = [SimpleTyping.p]).
  { vm_compute in Hrun. injection Hrun as _ <-. reflexivity. }
  subst reps. exists t. split; [reflexivity|]. split; [reflexivity|].
  destruct (type_constraints_join_raises_TypeError
              (E := SimpleTyping.environment) SimpleTyping.insertion_order
              SimpleTyping.ambiguous t [SimpleTyping.p] Hperm Hrun)
    as [_ Hraise].
  apply (Hraise SimpleTyping.p); [left|reflexivity].
Defined.

(** C3 as stated fails: the abstract type model is computed before the
    [try] block, so on a Transform whose model is not cached yet and whose
    source and target types do not unify, the [typing.Error] of the
    collector leaves [validate_model]. *)
Lemma validate_model_raises_collection_error :
  t_model SimpleTyping.mismatch = None ∧
  type_constraints SimpleTyping.insertion_order SimpleTyping.mismatch
  = Raise (TypingError "cannot unify") ∧
  validate_model SimpleTyping.insertion_order SimpleTyping.mismatch ∅
  = Raise (TypingError "cannot unify").
Proof.
  split; [reflexivity|]. split; vm_compute; reflexivity.
Qed.

(** ** More on the walks of the term graph *)

Lemma filter_split {A} (P : A → Prop) `{!∀ x, Decision (P x)}
    (l l1 l2 : list A) (c : A) :
  filter P l = l1 ++ c :: l2 →
  ∃ m1 m2, l = m1 ++ c :: m2 ∧ filter P m1 = l1 ∧ filter P m2 = l2.
Proof.
  revert l1. induction l as [|a l IH]; intros l1 Heq.
  - destruct l1; discriminate.
  - rewrite filter_cons in Heq. destruct (decide (P a)) as [Ha|Ha].
    + destruct l1 as [|b l1]; cbn [app] in Heq.
      * injection Heq as <- Hl. exists [], l.
        split; [reflexivity|]. split; [reflexivity|exact Hl].
      * injection Heq as <- Hl.
        destruct (IH l1 Hl) as (m1 & m2 & -> & H1 & H2).
        exists (a :: m1), m2. split; [reflexivity|]. split; [|exact H2].
        rewrite filter_cons_True by exact Ha. rewrite H1. reflexivity.
    + destruct (IH l1 Heq) as (m1 & m2 & -> & H1 & H2).
      exists (a :: m1), m2. split; [reflexivity|]. split; [|exact H2].
      rewrite filter_cons_False by exact Ha. exact H1.
Qed.

Lemma snoc_split {A} (X l1 l2 : list A) (t w : A) :
  X ++ [t] = l1 ++ w :: l2 →
  (l2 = [] ∧ w = t ∧ l1 = X) ∨ (∃ l2', l2 = l2' ++ [t] ∧ X = l1 ++ w :: l2').
Proof.
  intros Heq. destruct l2 as [|z l2 _] using rev_ind.
  - left. apply app_inj_tail in Heq as [-> ->]. auto.
  - right. exists l2.
    change (l1 ++ w :: l2 ++ [z]) with (l1 ++ (w :: l2) ++ [z]) in Heq.
    rewrite (assoc_L (++)) in Heq. apply app_inj_tail in Heq as [-> ->]. auto.
Qed.

Section subterms_post.
Variable roots : list term.
Hypothesis Hc : consistent roots.

Lemma post_inv_find S0 st u :
  post_inv roots S0 st → occurs roots u → id_of u ∈ st.2 →
  id_of u ∈ S0 ∨ u ∈ st.1.
Proof.
  intros Hinv Hu Hin. rewrite (pi_seen _ _ _ Hinv) in Hin.
  apply elem_of_union in Hin as [Hin|Hin]; [left; exact Hin|right].
  apply elem_of_list_to_set, list_elem_of_fmap in Hin as (w & Hid & Hw).
  assert (u = w) as ->; [|exact Hw].
  apply Hc; [exact Hu|apply (pi_occ _ _ _ Hinv), Hw|exact Hid].
Qed.

Lemma subterms_post t :
  occurs roots t → ∀ S0 acc S,
  down_closed roots S → post_inv roots S0 (acc, S) →
  post_inv roots S0 (acc ++ (L.subterms t S).1, (L.subterms t S).2).
Proof.
  induction t as [i l ts IH] using term_ind_args.
  intros Hocc S0 acc S Hdc Hinv. rewrite subterms_eq. cbn [id_of args].
  set (t := Node i l ts) in *.
  destruct (decide (i ∈ S)) as [Hseen|Hseen]; cbn [fst snd].
  { rewrite app_nil_r. exact Hinv. }
  set (step := λ (st : list term * gset ident) (a : term),
         let r := L.subterms a st.2 in (st.1 ++ r.1, r.2)).
  assert (Hloop : ∀ ts', Forall (λ a, a ∈ ts) ts' → ∀ st,
    down_closed roots st.2 → post_inv roots S0 (acc ++ st.1, st.2) →
    down_closed roots (foldl step st ts').2 ∧
    post_inv roots S0 (acc ++ (foldl step st ts').1, (foldl step st ts').2) ∧
    st.2 ⊆ (foldl step st ts').2 ∧
    (∀ a x, a ∈ ts' → subterm x a → id_of x ∈ (foldl step st ts').2)).
  { induction ts' as [|a ts' IHts]; intros Hsub st Hdc0 Hinv0; cbn [foldl].
    - split; [exact Hdc0|]. split; [exact Hinv0|]. split; [reflexivity|].
      intros a x Ha. inversion Ha.
    - apply Forall_cons in Hsub as [Ha Hsub]. rewrite Forall_forall in IH.
      assert (Hocca : occurs roots a).
      { eapply occurs_subterm; [exact Hocc|].
        eapply subterm_arg; [exact Ha|constructor]. }
      destruct (subterms_inv roots Hc a Hocca st.2 Hdc0)
        as (Hs1 & Hdc1 & _ & _ & Hcov1).
      pose proof (IH a Ha Hocca S0 (acc ++ st.1) st.2 Hdc0 Hinv0) as Hinv1.
      set (r := L.subterms a st.2) in *.
      change (step st a) with (st.1 ++ r.1, r.2).
      rewrite <- (assoc_L (++)) in Hinv1.
      destruct (IHts Hsub (st.1 ++ r.1, r.2) Hdc1 Hinv1)
        as (Hdc2 & Hinv2 & Hmono2 & Hcov2).
      cbn [fst snd] in Hmono2.
      split; [exact Hdc2|]. split; [exact Hinv2|]. split.
      + etrans; [|exact Hmono2]. rewrite Hs1. set_solver.
      + intros b x Hb Hx. apply elem_of_cons in Hb as [->|Hb].
        * apply Hmono2, Hcov1, Hx.
        * eapply Hcov2; eassumption. }
  destruct (Hloop ts (proj2 (Forall_forall _ _) (λ _ H, H)) ([], S) Hdc)
    as (_ & Hinv' & _ & Hcov).
  { cbn [fst snd]. rewrite app_nil_r. exact Hinv. }
  set (st := foldl step ([], S) ts) in *.
  split; cbn [fst snd].
  - pose proof (pi_seen _ _ _ Hinv') as Hs. cbn [fst snd] in Hs. rewrite Hs.
    rewrite (assoc_L (++)), (fmap_app _ (acc ++ st.1)), list_to_set_app_L.
    cbn. set_solver.
  - intros x Hx. rewrite (assoc_L (++)) in Hx.
    apply elem_of_app in Hx as [Hx|Hx].
    + apply (pi_occ _ _ _ Hinv'), Hx.
    + apply list_elem_of_singleton in Hx as ->. exact Hocc.
  - intros l1 w l2 Heq u Hu. rewrite (assoc_L (++)) in Heq.
    apply snoc_split in Heq as [(-> & -> & ->)|(l2' & -> & Heq)].
    + apply subterm_inv in Hu as [->|(a & Ha & Hu)].
      * right. apply elem_of_app. right. left.
      * assert (Houcc : occurs roots u).
        { eapply occurs_subterm; [exact Hocc|].
          eapply subterm_arg; eassumption. }
        destruct (post_inv_find _ _ u Hinv' Houcc) as [?|Hin].
        -- cbn [snd]. eapply Hcov; eassumption.
        -- left. assumption.
        -- right. apply elem_of_app. left. exact Hin.
    + eapply (pi_post _ _ _ Hinv'); eassumption.
Qed.
End subterms_post.

(** Started on a fresh [seen] set, the walk yields every object after all
    its proper descendants. *)
Lemma subterms_postorder roots t l1 w l2 u :
  consistent roots → occurs roots t →
  (L.subterms t ∅).1 = l1 ++ w :: l2 → strict_subterm u w → u ∈ l1.
Proof.
  intros Hc Hocc Heq Hu.
  assert (Hinv0 : post_inv roots ∅ ([], ∅)).
  { split; cbn [fst snd].
    - set_solver.
    - intros x Hx. inversion Hx.
    - intros [|? ?] ? ? Habs; discriminate. }
  assert (Hdc0 : down_closed roots ∅) by (intros ? ? _ Hin; set_solver).
  pose proof (subterms_post roots Hc t Hocc ∅ [] ∅ Hdc0 Hinv0) as Hinv.
  cbn [app] in Hinv.
  destruct (pi_post _ _ _ Hinv l1 w l2 Heq u (strict_subterm_subterm _ _ Hu))
    as [Hin|Hin]; [set_solver|].
  apply elem_of_app in Hin as [Hin|Hin]; [exact Hin|].
  apply list_elem_of_singleton in Hin as ->. exfalso.
  assert (Hw : occurs roots w).
  { apply (pi_occ _ _ _ Hinv). cbn [fst]. rewrite Heq.
    apply elem_of_app. right. left. }
  eapply consistent_acyclic; [exact Hc|exact Hw|exact Hu|reflexivity].
Qed.

(** X1.  [constant_defs] keeps the promise of its docstring, "terms are
    generated before any terms that reference them": in the yielded
    sequence a hoisted constant comes after every hoisted constant that it
    reaches, and none of those comes after it. *)
Theorem constant_defs_defined_before_use (tgt : term) (terms : list term)
    (l1 l2 : list term) (c u : term) :
  consistent [tgt] →
  constant_defs tgt terms = l1 ++ c :: l2 →
  strict_subterm u c → u ∈ constant_defs tgt terms →
  u ∈ l1 ∧ u ∉ l2.
Proof.
  intros Hc Heq Hu Hin.
  assert (Hocc : occurs [tgt] tgt).
  { exists tgt. split; [left|constructor]. }
  assert (Hl1 : u ∈ l1).
  { unfold constant_defs in Heq, Hin.
    apply filter_split in Heq as (m1 & m2 & Hwalk & <- & _).
    apply list_elem_of_filter in Hin as [HP _].
    apply list_elem_of_filter. split; [exact HP|].
    eapply subterms_postorder; eassumption. }
  split; [exact Hl1|]. intros Hl2.
  destruct (subterms_fresh [tgt] tgt Hc Hocc) as [Hn _].
  assert (Hnd : NoDup (id_of <$> constant_defs tgt terms)).
  { eapply sublist_NoDup; [exact Hn|]. apply fmap_sublist, sublist_filter. }
  rewrite Heq, fmap_app in Hnd. apply NoDup_app in Hnd as (_ & Hdisj & _).
  apply (Hdisj (id_of u)).
  - apply list_elem_of_fmap. exists u. auto.
  - apply list_elem_of_fmap. exists u. split; [reflexivity|]. right. exact Hl2.
Qed.

Lemma constant_defs_defined_before_use_witness :
  constant_defs ExShared.tgt [] = [ExShared.inner; ExShared.outer] ∧
  ExShared.inner ∈ [ExShared.inner] ∧ ExShared.inner ∉ @nil term.
Proof.
  split; [vm_compute; reflexivity|].
  apply (constant_defs_defined_before_use ExShared.tgt []
           [ExShared.inner] [] ExShared.outer ExShared.inner).
  - apply consistentb_sound. vm_compute. reflexivity.
  - vm_compute. reflexivity.
  - exists ExShared.inner. split; [left|constructor].
  - vm_compute. left.
Defined.

(** ** The keys of the counter of [count_uses] *)

Lemma operand_ids_app ps qs :
  operand_ids (ps ++ qs) = operand_ids ps ∪ operand_ids qs.
Proof.
  unfold operand_ids. rewrite fmap_app, join_app, fmap_app, list_to_set_app_L.
  reflexivity.
Qed.

Lemma operand_ids_cons_arg j l a ts :
  operand_ids [Node j l (a :: ts)] = {[ id_of a ]} ∪ operand_ids [Node j l ts].
Proof. unfold operand_ids. cbn. rewrite !app_nil_r. reflexivity. Qed.

Lemma elem_of_operand_ids i ps :
  i ∈ operand_ids ps ↔ ∃ p a, p ∈ ps ∧ a ∈ args p ∧ id_of a = i.
Proof.
  unfold operand_ids. rewrite elem_of_list_to_set, list_elem_of_fmap. split.
  - intros (a & -> & Ha). apply list_elem_of_join in Ha as (as' & Ha & Has).
    apply list_elem_of_fmap in Has as (p & -> & Hp). eauto.
  - intros (p & a & Hp & Ha & <-). exists a. split; [reflexivity|].
    apply list_elem_of_join. exists (args p). split; [exact Ha|].
    apply list_elem_of_fmap. eauto.
Qed.

(** Every expansion makes each of its operands a key, and nothing else
    becomes one. *)
Lemma count_uses_walk_log_dom v :
  ∀ st, ∃ new,
    (count_uses_walk_log v st).2 = st.2 ++ new ∧
    dom (count_uses_walk_log v st).1 = dom st.1 ∪ operand_ids (v :: new).
Proof.
  induction v as [j l ts IH] using term_ind_args. intros st.
  rewrite count_uses_walk_log_eq. cbn [args].
  change (Node j l ts :: ?n) with ([Node j l ts] ++ n).
  setoid_rewrite operand_ids_app.
  revert st. induction IH as [|a ts Ha _ IHts]; intros st; cbn [foldl].
  { exists []. rewrite app_nil_r. split; [reflexivity|].
    unfold operand_ids. cbn. set_solver. }
  set (st1 := if decide (id_of a ∈ dom st.1) then st
              else count_uses_walk_log a (st.1, st.2 ++ [a])).
  assert (H1 : ∃ new1, st1.2 = st.2 ++ new1 ∧
                       dom st1.1 = dom st.1 ∪ operand_ids new1).
  { subst st1. destruct (decide (id_of a ∈ dom st.1)).
    - exists []. rewrite app_nil_r. split; [reflexivity|].
      unfold operand_ids. cbn. set_solver.
    - destruct (Ha (st.1, st.2 ++ [a])) as (new & Hnew & Hdom).
      exists (a :: new). split.
      + rewrite Hnew. cbn [snd]. rewrite <- (assoc_L (++)). reflexivity.
      + rewrite Hdom. reflexivity. }
  destruct H1 as (new1 & Hnew1 & Hdom1).
  destruct (IHts (counter_incr (id_of a) st1.1, st1.2))
    as (new2 & Hnew2 & Hdom2).
  exists (new1 ++ new2). split.
  - rewrite Hnew2. cbn [snd]. rewrite Hnew1, (assoc_L (++)). reflexivity.
  - rewrite Hdom2. cbn [fst]. rewrite dom_counter_incr, Hdom1.
    rewrite operand_ids_cons_arg, operand_ids_app. set_solver.
Qed.

Lemma count_uses_dom root uses0 :
  dom (count_uses root uses0) =
  dom (default ∅ uses0) ∪ operand_ids (count_uses_log root uses0).2.
Proof.
  rewrite <- count_uses_log_erase. unfold count_uses_log.
  destruct (count_uses_walk_log_dom root (default ∅ uses0, [root]))
    as (new & Hnew & Hdom).
  rewrite Hdom, Hnew. reflexivity.
Qed.

Lemma subterm_operand p a t : subterm p t → a ∈ args p → strict_subterm a t.
Proof.
  intros Hp Ha. induction Hp as [t|p b t Hb Hp IH].
  - exists a. split; [exact Ha|constructor].
  - exists b. split; [exact Hb|]. apply strict_subterm_subterm, IH, Ha.
Qed.

(** The objects a call expands are under its root. *)
Lemma count_uses_log_subterm roots root uses0 x :
  consistent roots → occurs roots root →
  x ∈ (count_uses_log root uses0).2 → subterm x root.
Proof.
  intros Hc Hocc Hx.
  destruct (count_uses_log_inv roots root uses0 Hc Hocc) as [_ Hlog].
  eapply fresh_reach_subterm, Hlog, Hx.
Qed.

(** A call adds no key that is not a proper descendant of its root. *)
Lemma count_uses_new_key roots root uses0 i :
  consistent roots → occurs roots root →
  i ∈ dom (count_uses root uses0) →
  i ∈ dom (default ∅ uses0) ∨ ∃ x, strict_subterm x root ∧ id_of x = i.
Proof.
  intros Hc Hocc. rewrite count_uses_dom, elem_of_union.
  intros [Hi|Hi]; [left; exact Hi|right].
  apply elem_of_operand_ids in Hi as (p & a & Hp & Ha & <-).
  exists a. split; [|reflexivity].
  eapply subterm_operand; [|exact Ha].
  eapply count_uses_log_subterm; eassumption.
Qed.

Lemma count_uses_fresh_keys root i :
  consistent [root] →
  i ∈ dom (count_uses root None) ↔ ∃ x, strict_subterm x root ∧ id_of x = i.
Proof.
  intros Hc.
  assert (Hocc : occurs [root] root).
  { exists root. split; [left|constructor]. }
  split.
  - intros Hi.
    destruct (count_uses_new_key [root] root None i Hc Hocc Hi) as [Hi'|Hi'];
      [|exact Hi'].
    cbn [from_option id] in Hi'. set_solver.
  - intros (x & Hx & <-). rewrite count_uses_dom. apply elem_of_union. right.
    destruct (strict_subterm_parent x root Hx) as (p & Hp & Hxp).
    apply elem_of_operand_ids. exists p, x. split; [|auto].
    apply (count_uses_once_per_edge_aux root Hc), Hp.
Qed.

Lemma count_uses_root_not_key root :
  consistent [root] → id_of root ∉ dom (count_uses root None).
Proof.
  intros Hc Hin. apply (count_uses_fresh_keys root _ Hc) in Hin as (x & Hx & Hid).
  eapply (consistent_acyclic [root]); [exact Hc| |exact Hx|exact Hid].
  exists root. split; [left|constructor].
Qed.

(** X2.  On a fresh counter, the keys of the counter [count_uses] returns
    are exactly the proper descendants of the root, each with a count of
    at least one; the root itself is never counted. *)
Theorem count_uses_keys_are_descendants (root : term) :
  consistent [root] →
  (∀ i, i ∈ dom (count_uses root None) ↔
        ∃ x, strict_subterm x root ∧ id_of x = i) ∧
  (∀ x, strict_subterm x root →
        (1 ≤ counter_get (count_uses root None) (id_of x))%Z) ∧
  counter_get (count_uses root None) (id_of root) = 0%Z.
Proof.
  intros Hc. split; [intros i; apply count_uses_fresh_keys, Hc|].
  split; [intros x Hx; apply count_uses_fresh_descendant; assumption|].
  pose proof (count_uses_root_not_key root Hc) as Hnot.
  apply not_elem_of_dom in Hnot. unfold counter_get. rewrite Hnot. reflexivity.
Qed.

Lemma count_uses_keys_are_descendants_witness :
  counter_get (count_uses ExShared.tgt None) (id_of ExShared.tgt) = 0%Z ∧
  (1 ≤ counter_get (count_uses ExShared.tgt None) (id_of ExShared.k))%Z.
Proof.
  assert (Hc : consistent [ExShared.tgt]).
  { apply consistentb_sound. vm_compute. reflexivity. }
  destruct (count_uses_keys_are_descendants ExShared.tgt Hc) as (_ & H1 & H0).
  split; [exact H0|]. apply H1.
  exists ExShared.a. split; [left|].
  eapply subterm_arg; [left|]. eapply subterm_arg; [left|constructor].
Defined.

(** X3.  The root of the target is never a hoisted constant, unless an
    extra root reaches it: [constant_defs(tgt, terms)] does not yield
    [tgt]. *)
Theorem constant_defs_never_yields_root (tgt : term) (terms : list term) :
  consistent (tgt :: terms) →
  (∀ r, r ∈ terms → ¬ strict_subterm tgt r) →
  tgt ∉ constant_defs tgt terms.
Proof.
  intros Hc Hnot Hin. unfold constant_defs in Hin.
  apply list_elem_of_filter in Hin as [HP _].
  rewrite !andb_true_iff, Z.ltb_lt in HP. destruct HP as [[Hcnt _] _].
  assert (Htgt : occurs (tgt :: terms) tgt).
  { exists tgt. split; [left|constructor]. }
  assert (Hfold : ∀ ts u, (∀ r, r ∈ ts → r ∈ terms) →
    id_of tgt ∉ dom u →
    id_of tgt ∉ dom (foldl (λ uses t, count_uses t (Some uses)) u ts)).
  { induction ts as [|r ts IH]; intros u Hsub Hu; cbn [foldl]; [exact Hu|].
    apply IH; [intros r' Hr'; apply Hsub; right; exact Hr'|].
    assert (Hr : r ∈ terms) by (apply Hsub; left).
    assert (Hocc : occurs (tgt :: terms) r).
    { exists r. split; [right; exact Hr|constructor]. }
    intros Hkey.
    destruct (count_uses_new_key _ r (Some u) _ Hc Hocc Hkey)
      as [Hold|(x & Hx & Hid)]; [exact (Hu Hold)|].
    assert (x = tgt) as ->.
    { apply Hc; [|exact Htgt|exact Hid].
      eapply occurs_subterm; [exact Hocc|apply strict_subterm_subterm, Hx]. }
    exact (Hnot r Hr Hx). }
  specialize (Hfold terms (count_uses tgt None) (λ _ H, H)
                (count_uses_root_not_key tgt (consistent_head _ _ Hc))).
  apply not_elem_of_dom in Hfold. unfold counter_get in Hcnt.
  rewrite Hfold in Hcnt. cbn in Hcnt. lia.
Qed.

Lemma constant_defs_never_yields_root_witness :
  ExShared.outer ∉ constant_defs ExShared.outer [ExShared.inner].
Proof.
  apply constant_defs_never_yields_root.
  - apply consistentb_sound. vm_compute. reflexivity.
  - intros r Hr Hs. apply list_elem_of_singleton in Hr as ->.
    apply strict_subterm_size in Hs. vm_compute in Hs. lia.
Defined.

(** A call on a root whose operands are all keys already expands nothing
    but the root. *)
Lemma count_uses_walk_log_known v st :
  (∀ a, a ∈ args v → id_of a ∈ dom st.1) →
  (count_uses_walk_log v st).2 = st.2.
Proof.
  rewrite count_uses_walk_log_eq. generalize (args v). intros ts. revert st.
  induction ts as [|a ts IH]; intros st Hk; cbn [foldl]; [reflexivity|].
  destruct (decide (id_of a ∈ dom st.1)) as [_|Hn].
  - rewrite IH; [reflexivity|]. cbn [fst]. intros b Hb.
    rewrite dom_counter_incr. apply elem_of_union. right. apply Hk. right.
    exact Hb.
  - exfalso. apply Hn, Hk. left.
Qed.

(** X4.  [count_uses] does not descend below a key of the counter it is
    given: on a root all of whose operands are keys already, it adds one
    per operand edge of the root and nothing else.  So a second call on the
    same root counts the root's edges a second time. *)
Theorem count_uses_known_operands (root : term) (uses : gmap ident Z) :
  (∀ a, a ∈ args root → id_of a ∈ dom uses) →
  ∀ i, counter_get (count_uses root (Some uses)) i =
       (counter_get uses i + edges_into i [root])%Z.
Proof.
  intros Hk i. rewrite count_uses_log_edges. cbn [from_option id].
  unfold count_uses_log. rewrite count_uses_walk_log_known; [reflexivity|].
  exact Hk.
Qed.

Lemma count_uses_known_operands_witness :
  counter_get (count_uses Ex.add_mm (Some (count_uses Ex.add_mm None)))
              (id_of Ex.m) = 4%Z.
Proof.
  rewrite (count_uses_known_operands Ex.add_mm (count_uses Ex.add_mm None)).
  - vm_compute. reflexivity.
  - intros a Ha. apply elem_of_dom.
    apply elem_of_cons in Ha as [->|Ha];
      [|apply elem_of_cons in Ha as [->|Ha]; [|inversion Ha]];
      vm_compute; eauto.
Defined.

(** X5.  Extra roots only add to the hoisted constants: what
    [constant_defs] yields for a list of extra roots it also yields for a
    longer list. *)
Theorem constant_defs_more_roots (tgt : term) (terms more : list term)
    (c : term) :
  c ∈ constant_defs tgt terms → c ∈ constant_defs tgt (terms ++ more).
Proof.
  unfold constant_defs. rewrite !list_elem_of_filter, foldl_app.
  intros [HP Hin]. split; [|exact Hin].
  rewrite !andb_true_iff, Z.ltb_lt in *. destruct HP as [[Hcnt Hk] Hs].
  split; [split|]; [|exact Hk|exact Hs].
  eapply Z.lt_le_trans; [exact Hcnt|]. apply count_uses_fold_mono.
Qed.

Lemma constant_defs_more_roots_witness :
  ExShared.inner ∈ constant_defs ExShared.tgt ([] ++ [Ex.pre_ne]).
Proof.
  apply constant_defs_more_roots. vm_compute. left.
Defined.

(** ** Several walks over one [seen] set *)

Lemma subterms_chain_inv roots rs :
  consistent roots → (∀ r, r ∈ rs → r ∈ roots) →
  ∀ S, down_closed roots S →
  (subterms_chain rs S).2 = S ∪ list_to_set (id_of <$> (subterms_chain rs S).1) ∧
  down_closed roots (subterms_chain rs S).2 ∧
  NoDup (id_of <$> (subterms_chain rs S).1) ∧
  (∀ x, x ∈ (subterms_chain rs S).1 →
        (id_of x ∉ S) ∧ ∃ r, r ∈ rs ∧ subterm x r) ∧
  (∀ r x, r ∈ rs → subterm x r → id_of x ∈ (subterms_chain rs S).2).
Proof.
  intros Hc. induction rs as [|r rs IH]; intros Hsub S Hdc; cbn [subterms_chain].
  - cbn [fst snd]. split; [set_solver|]. split; [exact Hdc|].
    split; [constructor|]. split; [intros x Hx; inversion Hx|].
    intros r x Hr. inversion Hr.
  - assert (Hocc : occurs roots r).
    { exists r. split; [apply Hsub; left|constructor]. }
    destruct (subterms_inv roots Hc r Hocc S Hdc)
      as (Hs1 & Hdc1 & Hn1 & Hnew1 & Hcov1).
    set (a := L.subterms r S) in *.
    destruct (IH (λ r' Hr', Hsub r' ltac:(right; exact Hr')) a.2 Hdc1)
      as (Hs2 & Hdc2 & Hn2 & Hnew2 & Hcov2).
    set (b := subterms_chain rs a.2) in *. cbn [fst snd].
    split; [rewrite Hs2, Hs1, fmap_app, list_to_set_app_L; set_solver|].
    split; [exact Hdc2|]. split; [|split].
    + rewrite fmap_app. apply NoDup_app. split; [exact Hn1|].
      split; [|exact Hn2]. intros j Hj Hj'.
      apply list_elem_of_fmap in Hj' as (x & -> & Hx).
      destruct (Hnew2 x Hx) as [Hnin _]. apply Hnin. rewrite Hs1.
      apply elem_of_union. right. apply elem_of_list_to_set, Hj.
    + intros x Hx. apply elem_of_app in Hx as [Hx|Hx].
      * destruct (Hnew1 x Hx). split; [assumption|].
        exists r. split; [left|assumption].
      * destruct (Hnew2 x Hx) as [Hnin (r' & Hr' & Hxr)]. split.
        -- intros Hin. apply Hnin. rewrite Hs1. set_solver.
        -- exists r'. split; [right; exact Hr'|exact Hxr].
    + intros r' x Hr' Hx. apply elem_of_cons in Hr' as [->|Hr'].
      * rewrite Hs2. apply elem_of_union. left. apply Hcov1, Hx.
      * eapply Hcov2; eassumption.
Qed.

(** Started on a fresh [seen] set, the chained walks yield every object
    under the roots once. *)
Lemma subterms_chain_fresh rs :
  consistent rs →
  NoDup (id_of <$> (subterms_chain rs ∅).1) ∧
  (∀ x, x ∈ (subterms_chain rs ∅).1 ↔ occurs rs x).
Proof.
  intros Hc.
  destruct (subterms_chain_inv rs rs Hc (λ _ H, H) ∅)
    as (Hs & _ & Hn & Hnew & Hcov).
  { intros u w _ Hin. set_solver. }
  split; [exact Hn|]. intros x. split; [intros Hx; apply Hnew, Hx|].
  intros (r & Hr & Hx). pose proof (Hcov r x Hr Hx) as Hin. rewrite Hs in Hin.
  apply elem_of_union in Hin as [Hin|Hin]; [set_solver|].
  apply elem_of_list_to_set, list_elem_of_fmap in Hin as (w & Hid & Hw).
  assert (x = w) as ->; [|exact Hw].
  apply Hc; [exists r; auto|apply Hnew, Hw|exact Hid].
Qed.

(** ** More on [Formatter.name] and [Formatter.operand] *)

(** The loop stops at the first candidate that is not in use. *)
Lemma name_loop_first_unused prefix (names : gset string) :
  ∀ bound f n f',
    name_loop bound prefix names (prefix +:+ pretty f) (S f) = Some (n, f') →
    ∃ k, f ≤ k ∧ (∀ j, f ≤ j < k → prefix +:+ pretty j ∈ names) ∧
         (prefix +:+ pretty k ∉ names) ∧ n = prefix +:+ pretty k ∧ f' = S k.
Proof.
  induction bound as [|bound IH]; intros f n f'; cbn [name_loop];
    destruct (decide (prefix +:+ pretty f ∈ names)) as [Hin|Hnin].
  - discriminate.
  - intros [= <- <-]. exists f. split; [lia|]. split; [intros; lia|auto].
  - intros Hrun. destruct (IH _ _ _ Hrun) as (k & Hk & Hskip & Hfree & -> & ->).
    exists k. split; [lia|]. split; [|auto]. intros j Hj.
    destruct (decide (j = f)) as [->|]; [exact Hin|apply Hskip; lia].
  - intros [= <- <-]. exists f. split; [lia|]. split; [intros; lia|auto].
Qed.

(** X6.  What [name] chooses for a term without a name: the name the user
    gave an Input or Instruction if that is not in use, and otherwise the
    prefix ([C] for a Constant, [%] for the rest) with the first number from
    [fresh] on that gives a name not in use, [fresh] ending one above it.
    The name is new, and it is recorded for the term and as used. *)
Theorem name_choice (t : term) (fmt : Formatter) :
  ids fmt !! id_of t = None →
  let prefix := if L.isinstance_Constant t then "C" else "%" in
  let user := (L.isinstance_Input t || L.isinstance_Instruction t)
              && negb (String.eqb (L.name_attr t) "") in
  ∃ n fresh',
    name t fmt = Ok (n, {| ids := <[ id_of t := n ]> (ids fmt);
                           names := {[ n ]} ∪ names fmt;
                           fresh := fresh' |}) ∧
    (n ∉ names fmt) ∧
    if user && bool_decide (L.name_attr t ∉ names fmt)
    then n = L.name_attr t ∧ fresh' = fresh fmt
    else ∃ k, fresh fmt ≤ k ∧
              (∀ j, fresh fmt ≤ j < k → prefix +:+ pretty j ∈ names fmt) ∧
              n = prefix +:+ pretty k ∧ fresh' = S k.
Proof.
  intros Hid prefix user. unfold name. rewrite Hid. fold prefix user.
  destruct user.
  - destruct (name_loop_total prefix (names fmt) (L.name_attr t) (fresh fmt))
      as (n & fresh1 & Hloop & Hnin).
    rewrite Hloop. exists n, fresh1. split; [reflexivity|].
    split; [exact Hnin|]. revert Hloop. cbn [name_loop andb].
    destruct (decide (L.name_attr t ∈ names fmt)) as [Hin|Hfree].
    + rewrite bool_decide_eq_false_2 by (intros Hn; exact (Hn Hin)).
      intros Hloop.
      destruct (name_loop_first_unused _ _ _ _ _ _ Hloop)
        as (k & Hk & Hskip & _ & -> & ->).
      exists k. auto.
    + rewrite bool_decide_eq_true_2 by exact Hfree. intros [= <- <-]. auto.
  - destruct (name_loop_total prefix (names fmt)
                (prefix +:+ pretty (fresh fmt)) (S (fresh fmt)))
      as (n & fresh1 & Hloop & Hnin).
    rewrite Hloop. exists n, fresh1. split; [reflexivity|].
    split; [exact Hnin|]. cbn [andb].
    destruct (name_loop_first_unused _ _ _ _ _ _ Hloop)
      as (k & Hk & Hskip & _ & -> & ->).
    exists k. auto.
Qed.

Lemma name_choice_witness :
  ∃ n fresh',
    name Ex.C1_plus_1 Formatter_init
    = Ok (n, {| ids := <[ id_of Ex.C1_plus_1 := n ]> (ids Formatter_init);
                names := {[ n ]} ∪ names Formatter_init;
                fresh := fresh' |}) ∧
    (n ∉ names Formatter_init) ∧ n = "C0" ∧ fresh' = 1.
Proof.
  destruct (name_choice Ex.C1_plus_1 Formatter_init eq_refl)
    as (n & fresh' & Hrun & Hnew & Hsel).
  exists n, fresh'. split; [exact Hrun|]. split; [exact Hnew|].
  cbn in Hsel. destruct Hsel as (k & _ & Hskip & -> & ->).
  destruct k as [|k]; [split; reflexivity|].
  exfalso. specialize (Hskip 0 ltac:(lia)). set_solver.
Defined.

Lemma operand_cases t prec fmt d fmt' :
  operand t prec None fmt = Ok (d, fmt') →
  d = Formatted t prec ∨ ∃ n, d = text n.
Proof.
  unfold operand, bind. destruct (bool_decide _ || _).
  - destruct (name t fmt) as [[n fmt1]|]; [|discriminate].
    cbn [ret]. intros [= <- _]. eauto.
  - cbn [ret]. intros [= <- _]. auto.
Qed.

(** X7.  [operand] formats nothing: a term that has no name and is no
    Instruction is handed back as a suspended [Formatted] with the
    precedence, the Formatter untouched; a term with a name, or an
    Instruction, is referred to by its name, which is assigned at this
    point if need be; and a type, when given, is put in front. *)
Theorem operand_suspends_or_names (t : term) (prec : Z) (fmt : Formatter) :
  (ids fmt !! id_of t = None → L.isinstance_Instruction t = false →
   operand t prec None fmt = Ok (Formatted t prec, fmt)) ∧
  (is_Some (ids fmt !! id_of t) ∨ L.isinstance_Instruction t = true →
   ∃ n fmt', operand t prec None fmt = Ok (text n, fmt') ∧
             name t fmt = Ok (n, fmt') ∧
             ids fmt' !! id_of t = Some n) ∧
  (∀ ty, operand t prec (Some ty) fmt =
         match operand t prec None fmt with
         | Ok (d, fmt') => Ok (seq [text ty; text " "; d], fmt')
         | Raise e => Raise e
         end).
Proof.
  split; [|split].
  - intros Hid Hcls. unfold operand, bind.
    rewrite bool_decide_eq_false_2, Hcls; [reflexivity|].
    intros Hin. apply elem_of_dom in Hin as [n Hn]. congruence.
  - intros Hcase. unfold operand, bind.
    assert (bool_decide (id_of t ∈ dom (ids fmt))
            || L.isinstance_Instruction t = true) as ->.
    { apply orb_true_iff. destruct Hcase as [Hn|Hi]; [left|right; exact Hi].
      apply bool_decide_eq_true, elem_of_dom, Hn. }
    destruct (name_spec t fmt) as (n & fmt' & Hn & Hid & _).
    rewrite Hn. cbn [ret]. eauto.
  - intros ty. unfold operand, bind. destruct (bool_decide _ || _).
    + destruct (name t fmt) as [[n fmt1]|]; reflexivity.
    + reflexivity.
Qed.

Lemma operand_suspends_or_names_witness :
  operand Ex.C1_plus_1 8 None Formatter_init
  = Ok (Formatted Ex.C1_plus_1 8, Formatter_init).
Proof.
  apply (operand_suspends_or_names Ex.C1_plus_1 8 Formatter_init);
    reflexivity.
Defined.

(** ** More on the printers *)

Lemma raises_only_total {A} (P : exn → Prop) (m : M A) :
  total m → raises_only P m.
Proof.
  intros Ht fmt e He. destruct (Ht fmt) as (a & fmt' & Hok). congruence.
Qed.

Lemma raises_only_raise {A} (P : exn → Prop) e :
  P e → raises_only P (@raise A e).
Proof. intros HP fmt e' [= <-]. exact HP. Qed.

Lemma raises_only_bind {A B} (P : exn → Prop) (m : M A) (k : A → M B) :
  raises_only P m → (∀ a, raises_only P (k a)) → raises_only P (bind m k).
Proof.
  intros Hm Hk fmt e. unfold bind.
  destruct (m fmt) as [[a fmt1]|e'] eqn:Hmf.
  - apply Hk.
  - intros [= <-]. eapply Hm, Hmf.
Qed.

Lemma raises_only_subscript {V} (P : exn → Prop) (table : list (string * V))
    key :
  (dict_get table key = None → P (KeyError key)) →
  raises_only P (subscript table key).
Proof.
  intros HP. unfold subscript. destruct (dict_get table key).
  - apply raises_only_total. intros fmt. eexists _, _. reflexivity.
  - apply raises_only_raise, HP. reflexivity.
Qed.

Lemma total_ret {A} (a : A) : total (ret a).
Proof. intros fmt. eexists _, _. reflexivity. Qed.

Lemma total_bind {A B} (m : M A) (k : A → M B) :
  total m → (∀ a, total (k a)) → total (bind m k).
Proof.
  intros Hm Hk fmt. unfold bind. destruct (Hm fmt) as (a & fmt1 & ->).
  apply Hk.
Qed.

(** What [gather] raises. *)
Lemma gather_raises op_prec t fmt e :
  gather op_prec t fmt = Raise e → gather_exn op_prec t e.
Proof.
  revert fmt. induction t as [i l ts IH] using term_ind_args. intros fmt.
  rewrite gather_eq. cbn [label_of args].
  destruct l;
    try (intros He;
         match type of He with
         | operand ?t _ _ _ = _ =>
             destruct (total_operand t op_prec None fmt) as (d & f & Hd)
         end;
         rewrite Hd in He; discriminate He).
  unfold bind at 1, subscript.
  destruct (dict_get _bin_cnxp_prec code) as [p|] eqn:Hp.
  2:{ intros [= <-]. left. exists code, (Node i (BinaryCnxp code) ts).
      split; [reflexivity|]. split; [constructor|]. auto. }
  cbn [ret]. destruct (op_prec =? p)%Z eqn:Heq; cbn [negb].
  2:{ intros He.
      destruct (total_operand (Node i (BinaryCnxp code) ts) op_prec None fmt)
        as (d & f & Hd).
      rewrite Hd in He. discriminate He. }
  apply Z.eqb_eq in Heq. subst p.
  assert (Harity : length ts ≠ 2 →
    gather_exn op_prec (Node i (BinaryCnxp code) ts) AttributeError).
  { intros Hlen. right. split; [reflexivity|].
    exists (Node i (BinaryCnxp code) ts), code.
    split; [constructor|]. auto. }
  destruct ts as [|x [|y [|z ts]]];
    try (intros [= <-]; apply Harity; cbn; lia).
  apply Forall_cons in IH as [IHx IH]. apply Forall_cons in IH as [IHy _].
  unfold bind at 1.
  destruct (gather op_prec x fmt) as [[dx fmt1]|e1] eqn:Hx.
  2:{ intros [= <-]. apply IHx in Hx.
      destruct Hx as [(key & u & -> & Hu & Hl & Hk)|(-> & u & cu & Hu & Hrest)].
      - left. exists key, u. split; [reflexivity|].
        split; [apply visited_x; assumption|]. auto.
      - right. split; [reflexivity|]. exists u, cu.
        split; [apply visited_x; assumption|]. exact Hrest. }
  unfold bind at 1. destruct (in_lassoc code) eqn:Hl.
  { destruct (total_operand y op_prec None fmt1) as (dy & fmt2 & ->).
    intros He. discriminate He. }
  destruct (gather op_prec y fmt1) as [[dy fmt2]|e2] eqn:Hy;
    [intros He; discriminate He|].
  intros [= <-]. apply IHy in Hy.
  destruct Hy as [(key & u & -> & Hu & Hlu & Hk)|(-> & u & cu & Hu & Hrest)].
  - left. exists key, u. split; [reflexivity|].
    split; [apply visited_y; assumption|]. auto.
  - right. split; [reflexivity|]. exists u, cu.
    split; [apply visited_y; assumption|]. exact Hrest.
Qed.

Ltac total_step :=
  first
    [ apply total_ret
    | apply total_name
    | apply total_operand
    | apply total_mapM; intros ?
    | apply total_bind; [|intros ?] ].

Ltac arity_raise :=
  apply raises_only_raise; eexists;
  split; [reflexivity|split; [cbn; lia|reflexivity]].

Lemma format_doc_raises (t : term) (prec : Z) :
  raises_only (printer_exn t) (format_doc t prec).
Proof.
  destruct t as [i l ts].
  destruct l; unfold format_doc, printer_exn; cbn [label_of args];
    try (apply raises_only_total; repeat total_step; fail).
  - (* BinaryOperator *)
    destruct ts as [|x [|y [|z ts]]]; try arity_raise.
    apply raises_only_total; repeat total_step.
  - (* ConversionInst *)
    destruct ts as [|x [|y ts]]; try arity_raise.
    apply raises_only_total; repeat total_step.
  - (* IcmpInst *)
    destruct ts as [|x [|y [|z ts]]]; try arity_raise.
    apply raises_only_total; repeat total_step.
  - (* FcmpInst *)
    destruct ts as [|x [|y [|z ts]]]; try arity_raise.
    apply raises_only_total; repeat total_step.
  - (* SelectInst *)
    destruct ts as [|x [|y [|z [|w ts]]]]; try arity_raise.
    apply raises_only_total; repeat total_step.
  - (* BinaryCnxp *)
    intros fmt e. unfold bind at 1, subscript.
    destruct (dict_get _bin_cnxp_prec code) as [p|] eqn:Hp.
    2:{ intros [= <-]. reflexivity. }
    cbn [ret]. unfold bind at 1.
    destruct (gather p (Node i (BinaryCnxp code) ts) fmt)
      as [[body fmt1]|e1] eqn:Hg; [intros He; discriminate He|].
    intros [= <-]. eapply gather_raises, Hg.
  - (* UnaryCnxp *)
    destruct ts as [|x [|y ts]]; try arity_raise.
    apply raises_only_total; repeat total_step.
  - (* AndPred *)
    destruct ts; apply raises_only_total; repeat total_step.
  - (* OrPred *)
    destruct ts; apply raises_only_total; repeat total_step.
  - (* NotPred *)
    destruct ts as [|x [|y ts]]; try arity_raise.
    apply raises_only_total; repeat total_step.
  - (* Comparison *)
    destruct ts as [|x [|y [|z ts]]];
      try (apply raises_only_raise; right; split; [cbn; lia|reflexivity]).
    apply raises_only_bind; [apply raises_only_total, total_operand|].
    intros dx. apply raises_only_bind.
    { apply raises_only_subscript. intros Hnone. left. auto. }
    intros sym. apply raises_only_total; repeat total_step.
  - (* a class without a printer *)
    apply raises_only_raise. reflexivity.
Qed.

(** X8.  The exceptions of [format_doc] on a term, class by class.  A root
    whose class has no printer: [NotImplementedError] with the class name.
    A [BinaryCnxp] root: the [KeyError] of its own operator when that is not
    in the precedence table, else the [KeyError] of an expression that
    [gather] visits (an expression of the chain) whose operator is not in
    the table, or the [AttributeError] of a visited expression of the
    chain's precedence that does not have two operands.  A [Comparison]
    root with two operands: the [KeyError] of its operator when that is not
    in the table of comparison codes.  Any other root, and any other
    exception: only the [AttributeError] of a root that does not have the
    number of operands its printer reads.  So a root with the operands its
    printer reads raises nothing unless it is a [BinaryCnxp], a [Comparison]
    or of a class without a printer, whatever is below it. *)
Theorem format_doc_exceptions (t : term) (prec : Z) (fmt : Formatter)
    (e : exn) :
  format_doc t prec fmt = Raise e →
  printer_exn t e ∧
  match e with
  | NotImplementedError msg =>
      ∃ cls, label_of t = Unregistered cls ∧ msg = "Can't format " +:+ cls
  | KeyError key =>
      (∃ code u p, label_of t = BinaryCnxp code ∧
                   (u = t ∨ dict_get _bin_cnxp_prec code = Some p ∧
                            visited p t u) ∧
                   label_of u = BinaryCnxp key ∧
                   dict_get _bin_cnxp_prec key = None) ∨
      (label_of t = Comparison key ∧ dict_get _cmp_codes key = None)
  | AttributeError =>
      (∃ k, operands_read (label_of t) = Some k ∧ length (args t) ≠ k) ∨
      (∃ code p u, label_of t = BinaryCnxp code ∧
                   dict_get _bin_cnxp_prec code = Some p ∧ visited p t u ∧
                   operands_read (label_of u) = Some 2 ∧
                   length (args u) ≠ 2)
  | _ => False
  end.
Proof.
  intros Hrun. pose proof (format_doc_raises t prec fmt e Hrun) as Hexn.
  split; [exact Hexn|]. clear Hrun. unfold printer_exn in Hexn.
  destruct t as [i l ts]. cbn [label_of args] in *.
  destruct l; cbn [operands_read] in Hexn;
    try (destruct Hexn as (k & Hk & Hlen & ->);
         first [discriminate Hk
               |left; exists k; split; [exact Hk|exact Hlen]]).
  - (* BinaryCnxp *)
    destruct (dict_get _bin_cnxp_prec code) as [p|] eqn:Hp.
    + destruct Hexn as [(key & u & -> & Hu & Hl & Hk)
                       |(-> & u & cu & Hu & Hl & Hcu & Hlen)].
      * left. exists code, u, p. split; [reflexivity|].
        split; [right; auto|]. auto.
      * right. exists code, p, u. split; [reflexivity|].
        split; [exact Hp|]. split; [exact Hu|]. rewrite Hl. auto.
    + subst e. left. exists code, (Node i (BinaryCnxp code) ts), 0%Z.
      split; [reflexivity|]. split; [left; reflexivity|]. auto.
  - (* Comparison *)
    destruct Hexn as [(Hlen & Hnone & ->)|(Hlen & ->)].
    + right. auto.
    + left. exists 2. auto.
  - (* a class without a printer *)
    subst e. exists cls. auto.
Qed.

Lemma format_doc_exceptions_witness :
  dict_get _cmp_codes "lt" = None ∧
  printer_exn (Node 1 (Comparison "lt") [Ex.x; Ex.y]) (KeyError "lt").
Proof.
  split; [reflexivity|].
  apply (format_doc_exceptions (Node 1 (Comparison "lt") [Ex.x; Ex.y]) 0
           Formatter_init).
  vm_compute. reflexivity.
Defined.

(** X9.  The printers of the terms never rename: when [format_doc] returns
    on a term, every assignment of the Formatter it was given is still in
    place, and the naming state is sound if it was (every assigned name
    recorded as used, no name assigned to two terms).  The [Transform] case
    of the dispatch is not of this kind: it goes through [format_parts],
    which writes the source root's name over the entry of the target
    root. *)
Theorem term_printers_keep_assignments (t : term) (prec : Z)
    (fmt fmt' : Formatter) (d : Doc) :
  format_doc t prec fmt = Ok (d, fmt') →
  (∀ i n, ids fmt !! i = Some n → ids fmt' !! i = Some n) ∧
  (names_ok fmt → names_ok fmt').
Proof. intros Hrun. exact (preserves_format_doc t prec fmt d fmt' Hrun). Qed.

Lemma term_printers_keep_assignments_witness :
  ∃ d fmt', format_doc Ex.tgt_or0 0 Formatter_init = Ok (d, fmt') ∧
            names_ok fmt'.
Proof.
  destruct (format_doc Ex.tgt_or0 0 Formatter_init) as [[d fmt']|e] eqn:Hrun.
  2:{ vm_compute in Hrun. discriminate Hrun. }
  exists d, fmt'. split; [reflexivity|].
  apply (term_printers_keep_assignments _ _ _ _ _ Hrun), names_ok_init.
Defined.

(** X10.  An operator that is only left-associative ([-], [/], [<<], ...)
    keeps its right operand apart: the operand is suspended at the
    operator's precedence or referred to by name, and a suspended operand of
    that precedence comes out in parentheses when it is printed, as in
    [a - (b - c)].  Under the other operators a right operand of the same
    precedence is merged into the chain, as in [a + b + c]. *)
Theorem left_assoc_right_operand (i j : ident) (code cy : string) (x : term)
    (ys : list term) (p prec : Z) (fmt : Formatter) :
  dict_get _bin_cnxp_prec code = Some p →
  dict_get _bin_cnxp_prec cy = Some p →
  cnxp_ok (Node i (BinaryCnxp code) [x; Node j (BinaryCnxp cy) ys]) = true →
  ∃ dx dy fmt',
    format_doc (Node i (BinaryCnxp code) [x; Node j (BinaryCnxp cy) ys])
               prec fmt
    = Ok (nest 2 (group
            (let body := seq [dx; line; text code; text " "; dy] in
             if (p <=? prec)%Z || ((0 <? prec)%Z && (prec <? 8)%Z)
             then parens body else body)), fmt') ∧
    (if in_lassoc code
     then dy = Formatted (Node j (BinaryCnxp cy) ys) p ∨ ∃ n, dy = text n
     else ∃ a b, dy = seq [a; line; text cy; text " "; b]) ∧
    ∀ fmt0, ∃ d0 fmt1,
      format_doc (Node j (BinaryCnxp cy) ys) p fmt0 = Ok (d0, fmt1) ∧
      parenthesized d0 = true.
Proof.
  intros Hp Hpy Hok.
  destruct (cnxp_ok_BinaryCnxp _ _ _ Hok)
    as [_ (x' & y' & [= <- <-] & Hx & Hy)].
  destruct (cnxp_ok_BinaryCnxp _ _ _ Hy) as [_ (a & b & -> & _ & _)].
  set (y := Node j (BinaryCnxp cy) [a; b]) in *.
  assert (Hbody : ∃ dx dy fmt',
    gather p (Node i (BinaryCnxp code) [x; y]) fmt
    = Ok (seq [dx; line; text code; text " "; dy], fmt') ∧
    if in_lassoc code
    then dy = Formatted y p ∨ ∃ n, dy = text n
    else ∃ a b, dy = seq [a; line; text cy; text " "; b]).
  { rewrite gather_eq. cbn [label_of args]. unfold bind at 1, subscript.
    rewrite Hp. cbn [ret]. rewrite Z.eqb_refl. cbn [negb]. unfold bind at 1.
    destruct (total_gather p x Hx fmt) as (dx & fmt1 & ->).
    unfold bind. destruct (in_lassoc code).
    - destruct (total_operand y p None fmt1) as (dy & fmt2 & Hdy).
      rewrite Hdy. cbn [ret]. exists dx, dy, fmt2. split; [reflexivity|].
      eapply operand_cases, Hdy.
    - destruct (gather_chain j cy a b p fmt1 Hpy Hy) as (da & db & fmt2 & Hg).
      fold y in Hg. rewrite Hg. cbn [ret]. eexists _, _, _.
      split; [reflexivity|]. eauto. }
  destruct Hbody as (dx & dy & fmt' & Hg & Hdy).
  exists dx, dy, fmt'. split; [|split; [exact Hdy|]].
  - rewrite format_doc_BinaryCnxp. unfold bind at 1, subscript.
    rewrite Hp. cbn [ret]. unfold bind. rewrite Hg. reflexivity.
  - intros fmt0.
    destruct (gather_chain j cy a b p fmt0 Hpy Hy) as (da & db & fmt1 & Hg0).
    unfold y. rewrite format_doc_BinaryCnxp. unfold bind at 1, subscript.
    rewrite Hpy. cbn [ret]. unfold bind. rewrite Hg0. cbn [ret].
    eexists _, _. split; [reflexivity|].
    rewrite (proj2 (Z.leb_le p p)) by lia. reflexivity.
Qed.

Lemma left_assoc_right_operand_witness :
  ∃ dx fmt',
    format_doc (Node 9 (BinaryCnxp "-") [ExCnxp.c; ExCnxp.sum]) 0
               Formatter_init
    = Ok (nest 2 (group (seq [dx; line; text "-"; text " ";
                              Formatted ExCnxp.sum 8])), fmt').
Proof.
  destruct (left_assoc_right_operand 9 4 "-" "+" ExCnxp.c
              [ExCnxp.a; ExCnxp.b] 8 0 Formatter_init eq_refl eq_refl eq_refl)
    as (dx & dy & fmt' & Hrun & _ & _).
  vm_compute in Hrun. injection Hrun as <- <- <-.
  eexists _, _. vm_compute. reflexivity.
Defined.

(** X11.  The printers of the predicates put parentheses around the body
    exactly when the enclosing precedence is above their own: 2 for a
    conjunction, 1 for a disjunction, 3 for a comparison (whose operator has
    to be in the table of comparison codes). *)
Theorem predicate_parentheses (t : term) (prec p : Z) (fmt : Formatter) :
  match label_of t, args t with
  | AndPred, _ :: _ => p = 2%Z
  | OrPred, _ :: _ => p = 1%Z
  | Comparison op, [_; _] => p = 3%Z ∧ is_Some (dict_get _cmp_codes op)
  | _, _ => False
  end →
  ∃ d fmt', format_doc t prec fmt = Ok (d, fmt') ∧
            (parenthesized_group d = true ↔ (p < prec)%Z).
Proof.
  assert (Hjoin : ∀ (q : Z) (cs : list term) f ds f' sep,
    mapM (λ a, let* d := operand a q None in ret (nest 3 d)) cs f
    = Ok (ds, f') →
    parenthesized_group (group (seq (join sep ds))) = false).
  { intros q cs f ds f' sep Hrun. apply mapM_Forall2 in Hrun.
    destruct Hrun as [|c d cs' ds' (f1 & f2 & Hd) _]; [reflexivity|].
    assert (∃ d', d = nest 3 d') as [d' ->].
    { revert Hd. unfold bind.
      destruct (operand c q None f1) as [[d' f3]|]; [|discriminate].
      cbn [ret]. intros [= <- _]. eauto. }
    destruct ds' as [|d2 [|d3 ds']]; reflexivity. }
  destruct t as [i l ts]. cbn [label_of args].
  destruct l; try contradiction.
  - (* AndPred *)
    destruct ts as [|c cs]; [contradiction|]. intros ->.
    unfold format_doc. cbn [label_of args].
    destruct (total_mapM (λ a, let* d := operand a 2 None in ret (nest 3 d))
                (c :: cs) ltac:(intros ?; repeat total_step) fmt)
      as (ds & fmt' & Hds).
    unfold bind at 1. rewrite Hds. cbn [ret]. eexists _, _.
    split; [reflexivity|].
    destruct (2 <? prec)%Z eqn:Hlt.
    + cbn. apply Z.ltb_lt in Hlt. tauto.
    + rewrite (Hjoin _ _ _ _ _ _ Hds). apply Z.ltb_ge in Hlt.
      split; [discriminate|lia].
  - (* OrPred *)
    destruct ts as [|c cs]; [contradiction|]. intros ->.
    unfold format_doc. cbn [label_of args].
    destruct (total_mapM (λ a, let* d := operand a 1 None in ret (nest 3 d))
                (c :: cs) ltac:(intros ?; repeat total_step) fmt)
      as (ds & fmt' & Hds).
    unfold bind at 1. rewrite Hds. cbn [ret]. eexists _, _.
    split; [reflexivity|].
    destruct (1 <? prec)%Z eqn:Hlt.
    + cbn. apply Z.ltb_lt in Hlt. tauto.
    + rewrite (Hjoin _ _ _ _ _ _ Hds). apply Z.ltb_ge in Hlt.
      split; [discriminate|lia].
  - (* Comparison *)
    destruct ts as [|x [|y [|z ts]]]; try contradiction.
    intros [-> [sym Hsym]]. unfold format_doc. cbn [label_of args].
    unfold bind at 1.
    destruct (total_operand x 3 None fmt) as (dx & fmt1 & ->).
    unfold bind at 1, subscript. rewrite Hsym. cbn [ret]. unfold bind.
    destruct (total_operand y 3 None fmt1) as (dy & fmt2 & ->).
    eexists _, _. split; [reflexivity|].
    destruct (3 <? prec)%Z eqn:Hlt.
    + cbn. apply Z.ltb_lt in Hlt. tauto.
    + cbn. apply Z.ltb_ge in Hlt. split; [discriminate|lia].
Qed.

Lemma predicate_parentheses_witness :
  ∃ d fmt', format_doc ExCnxp.sum_eq 10 Formatter_init = Ok (d, fmt') ∧
            (parenthesized_group d = true ↔ (3 < 10)%Z).
Proof.
  apply (predicate_parentheses ExCnxp.sum_eq 10 3 Formatter_init).
  split; [reflexivity|]. vm_compute. eauto.
Defined.

(** ** More on the line-continuation renderer *)

Section renderer_facts.
Variables (width : Z) (prefix suffix : string) (start_at : Z).

Abbreviation rstep := (Render.step width prefix suffix).
Abbreviation rrun_from := (Render.run_from width prefix suffix).
Abbreviation rstate_after := (state_after width prefix suffix).

Lemma step_texts st ev :
  Render.c_str <$> filter (λ c, Render.c_site c = Render.OText) (rstep st ev).2
  = texts [ev].
Proof.
  destruct ev as [hp s|hp indent|hp indent|hp|]; unfold Render.step;
    cbn zeta; repeat (case_bool_decide || case_match); reflexivity.
Qed.

Lemma texts_cons ev evs : texts (ev :: evs) = texts [ev] ++ texts evs.
Proof. destruct ev; reflexivity. Qed.

(** X12.  Whatever the state and the groups, the renderer hands every text
    event to the sink as it is, in the order of the events, and writes
    nothing else from its text branch. *)
Theorem renderer_writes_texts_verbatim (st : Render.state)
    (evs : list Render.event) :
  Render.c_str <$> filter (λ c, Render.c_site c = Render.OText)
                          (rrun_from st evs)
  = texts evs.
Proof.
  revert st. induction evs as [|ev evs IH]; intros st; [reflexivity|].
  cbn [Render.run_from]. rewrite filter_app, fmap_app, IH, step_texts.
  symmetry. apply texts_cons.
Qed.

Lemma state_after_cons st ev evs :
  rstate_after st (ev :: evs) = rstate_after (rstep st ev).1 evs.
Proof. reflexivity. Qed.

Lemma step_fitting st ev :
  Render.fits st ≠ 0%Z →
  (rstep st ev).2 = one_line (Render.broken st) [ev] ∧
  Render.fits (rstep st ev).1
  = (match ev with
     | Render.GBegin _ => Render.fits st + 1
     | Render.GEnd => Render.fits st - 1
     | _ => Render.fits st
     end)%Z ∧
  Render.broken (rstep st ev).1 = Render.broken st ∧
  Render.hp_eol (rstep st ev).1 = Render.hp_eol st.
Proof.
  intros Hne. destruct ev as [hp s|hp indent|hp indent|hp|];
    unfold Render.step; cbn zeta;
    rewrite ?(bool_decide_eq_true_2 _ Hne); cbn [fst snd one_line]; auto.
Qed.

Lemma one_line_cons b ev evs :
  one_line b (ev :: evs) = one_line b [ev] ++ one_line b evs.
Proof. destruct ev; reflexivity. Qed.

(** X13.  Inside a group that fits nothing is broken: as long as the events
    do not close the group, the renderer writes every text as it is, one
    space for every line and nothing for a break, in the order of the
    events, and nothing else (no newline, marker or indentation); a nested
    group counts as fitting without a look at its end position, and only
    the count of fitting groups changes in the state. *)
Theorem fitting_group_stays_on_one_line (st : Render.state)
    (evs : list Render.event) (d d' : nat) :
  Render.fits st = (Z.of_nat d + 1)%Z →
  depth_after d evs = Some d' →
  rrun_from st evs = one_line (Render.broken st) evs ∧
  Render.fits (rstate_after st evs) = (Z.of_nat d' + 1)%Z ∧
  Render.broken (rstate_after st evs) = Render.broken st ∧
  Render.hp_eol (rstate_after st evs) = Render.hp_eol st.
Proof.
  revert st d. induction evs as [|ev evs IH]; intros st d Hfits Hdepth.
  { cbn in *. injection Hdepth as <-. auto. }
  assert (Hne : Render.fits st ≠ 0%Z) by lia.
  destruct (step_fitting st ev Hne) as (Hout & Hf & Hb & Hh).
  rewrite state_after_cons. cbn [Render.run_from].
  assert (Hnext : ∃ d1, depth_after d1 evs = Some d' ∧
                        Render.fits (rstep st ev).1 = (Z.of_nat d1 + 1)%Z).
  { destruct ev as [hp s|hp indent|hp indent|hp|];
      cbn [depth_after] in Hdepth.
    - exists d. split; [exact Hdepth|lia].
    - exists d. split; [exact Hdepth|lia].
    - exists d. split; [exact Hdepth|lia].
    - exists (S d). split; [exact Hdepth|lia].
    - destruct d as [|d0]; [discriminate|].
      exists d0. split; [exact Hdepth|lia]. }
  destruct Hnext as (d1 & Hd1 & Hf1).
  destruct (IH _ d1 Hf1 Hd1) as (Hall & Hf' & Hb' & Hh').
  split.
  { rewrite Hout, Hall, Hb. symmetry. apply one_line_cons. }
  split; [exact Hf'|]. split; congruence.
Qed.

(** X14.  The two counters follow the nesting of the groups: over any
    events that close no group that is not open, [fits] and [broken] stay
    non-negative and add up to the number of open groups, the fitting
    groups being the innermost.  So after balanced events from the start
    both are 0 again. *)
Theorem renderer_counters_follow_nesting (st : Render.state)
    (evs : list Render.event) (d d' : nat) :
  (0 ≤ Render.fits st)%Z → (0 ≤ Render.broken st)%Z →
  (Render.fits st + Render.broken st)%Z = Z.of_nat d →
  depth_after d evs = Some d' →
  (0 ≤ Render.fits (rstate_after st evs))%Z ∧
  (0 ≤ Render.broken (rstate_after st evs))%Z ∧
  (Render.fits (rstate_after st evs) + Render.broken (rstate_after st evs))%Z
  = Z.of_nat d'.
Proof.
  revert st d. induction evs as [|ev evs IH]; intros st d Hf Hb Hsum Hdepth.
  { cbn in *. injection Hdepth as <-. auto. }
  rewrite state_after_cons.
  destruct ev as [hp s|hp indent|hp indent|hp|]; cbn [depth_after] in Hdepth.
  - exact (IH st d Hf Hb Hsum Hdepth).
  - apply (IH _ d); [..|exact Hdepth]; unfold Render.step; cbn zeta;
      repeat case_bool_decide; cbn; lia.
  - apply (IH _ d); [..|exact Hdepth]; unfold Render.step; cbn zeta;
      repeat case_bool_decide; cbn; lia.
  - apply (IH _ (S d)); [..|exact Hdepth]; unfold Render.step; cbn zeta;
      repeat (case_bool_decide || case_match); cbn; lia.
  - destruct d as [|d0]; [discriminate|].
    apply (IH _ d0); [..|exact Hdepth]; unfold Render.step; cbn zeta;
      repeat case_bool_decide; cbn; lia.
Qed.

End renderer_facts.

Lemma fitting_group_stays_on_one_line_witness :
  Render.c_str <$>
    Render.run_from 80 "" " \" {| Render.fits := 1; Render.broken := 0;
                                   Render.hp_eol := 80 |}
      [Render.Text 0 "a"; Render.Line 1 2; Render.GBegin None;
       Render.Text 2 "b"; Render.Break 3 2; Render.Text 3 "c"; Render.GEnd]
  = ["a"; " "; "b"; "c"].
Proof.
  rewrite (proj1 (fitting_group_stays_on_one_line 80 "" " \"
                    {| Render.fits := 1; Render.broken := 0;
                       Render.hp_eol := 80 |}
                    [Render.Text 0 "a"; Render.Line 1 2; Render.GBegin None;
                     Render.Text 2 "b"; Render.Break 3 2; Render.Text 3 "c";
                     Render.GEnd] 0 0 eq_refl eq_refl)).
  reflexivity.
Defined.

Lemma renderer_counters_follow_nesting_witness :
  let st := state_after 80 "" " \" (Render.init 80 "" 0)
              [Render.GBegin None; Render.GBegin (Some 3%Z); Render.Line 3 2;
               Render.GEnd; Render.Line 9 2; Render.GEnd] in
  (0 ≤ Render.fits st)%Z ∧ (0 ≤ Render.broken st)%Z ∧
  (Render.fits st + Render.broken st)%Z = Z.of_nat 0.
Proof.
  apply (renderer_counters_follow_nesting 80 "" " \" _ _ 0 0);
    cbn; (lia || reflexivity).
Defined.


(** ** More on [format_parts] *)

Lemma get_insts_NoDup root :
  consistent [root] → NoDup (id_of <$> get_insts root).
Proof.
  intros Hc.
  assert (Hocc : occurs [root] root).
  { exists root. split; [left|constructor]. }
  assert (Hinv0 : insts_inv [root] ∅ ([], ∅)).
  { split; cbn [fst snd fmap list_fmap].
    - set_solver.
    - intros x Hx. inversion Hx.
    - constructor.
    - intros x Hx. inversion Hx.
    - intros [|? ?] ? ? Heq; inversion Heq. }
  destruct (get_insts_walk_inv [root] Hc root Hocc ∅ _ Hinv0) as (Hinv & _).
  { intros x _. apply not_elem_of_empty. }
  apply (ii_nodup _ _ _ Hinv).
Qed.

Lemma get_insts_not_Instruction t :
  L.isinstance_Instruction t = false → get_insts t = [].
Proof.
  intros Hcls. unfold get_insts. rewrite get_insts_walk_eq, Hcls.
  destruct (decide _); reflexivity.
Qed.

(** The stages of [format_parts], one after the other. *)
Lemma format_parts_lists_inv headers src tgt fmt p fmt' :
  format_parts_lists headers src tgt fmt = Ok (p, fmt') →
  ∃ fmt1 fmt2 fmt3 fmt4 fmt5 fmt6 listed n d,
    mapM named_doc (get_insts src) fmt = Ok (srci p, fmt1) ∧
    mapM named_doc (constant_defs tgt (snd <$> headers)) fmt1
    = Ok (cdefs p, fmt2) ∧
    mapM (λ ht : string * term,
            let* d := format_doc ht.2 0 in
            ret (seq [text ht.1; text " "; nest (len ht.1 + 1) d; line]))
         headers fmt2 = Ok (heads p, fmt3) ∧
    (if L.isinstance_Instruction tgt
     then (let* n := name src in set_id tgt n)
     else ret tt) fmt3 = Ok (tt, fmt4) ∧
    unnamed_docs (get_insts tgt) fmt4 = Ok (listed, fmt5) ∧
    name src fmt5 = Ok (n, fmt6) ∧
    format_doc tgt 0 fmt6 = Ok (d, fmt') ∧
    tgti p = listed ++ [(n, d)].
Proof.
  unfold format_parts_lists. unfold bind at 1.
  destruct (mapM named_doc (get_insts src) fmt) as [[srci0 fmt1]|] eqn:H1;
    [|discriminate].
  unfold bind at 1.
  destruct (mapM named_doc _ fmt1) as [[cdefs0 fmt2]|] eqn:H2; [|discriminate].
  unfold bind at 1.
  destruct (mapM _ headers fmt2) as [[heads0 fmt3]|] eqn:H3; [|discriminate].
  unfold bind at 1.
  match goal with
  | |- match ?m fmt3 with _ => _ end = _ → _ =>
      destruct (m fmt3) as [[[] fmt4]|] eqn:H4; [|discriminate]
  end.
  unfold bind at 1.
  destruct (unnamed_docs (get_insts tgt) fmt4) as [[listed fmt5]|] eqn:H5;
    [|discriminate].
  unfold bind at 1.
  destruct (name src fmt5) as [[n fmt6]|] eqn:H6; [|discriminate].
  unfold bind at 1.
  destruct (format_doc tgt 0 fmt6) as [[d fmt7]|] eqn:H7; [|discriminate].
  cbn [ret]. intros [= <- <-]. cbn [srci cdefs heads tgti].
  exists fmt1, fmt2, fmt3, fmt4, fmt5, fmt6, listed, n, d.
  repeat (split; [assumption || reflexivity|]). reflexivity.
Qed.

Lemma mapM_named_doc_ids xs :
  ∀ fmt es fmt', mapM named_doc xs fmt = Ok (es, fmt') →
    ids_extend fmt fmt' ∧ (names_ok fmt → names_ok fmt') ∧
    Forall2 (λ x (e : string * Doc), ids fmt' !! id_of x = Some e.1) xs es.
Proof.
  induction xs as [|x xs IH]; intros fmt es fmt'; cbn [mapM].
  - intros [= <- <-]. split; [apply ids_extend_refl|]. split; [auto|constructor].
  - unfold bind at 1.
    destruct (named_doc x fmt) as [[e fmt1]|] eqn:He; [|discriminate].
    unfold bind at 1.
    destruct (mapM named_doc xs fmt1) as [[es' fmt2]|] eqn:Hes; [|discriminate].
    cbn [ret]. intros [= <- <-].
    destruct (preserves_named_doc x _ _ _ He) as [Hext1 Hok1].
    destruct (IH _ _ _ Hes) as (Hext2 & Hok2 & Hall).
    split; [eapply ids_extend_trans; eassumption|]. split; [auto|].
    constructor; [|exact Hall]. apply Hext2. eapply named_doc_id, He.
Qed.

(** Distinct terms have distinct names in a sound naming state. *)
Lemma distinct_names fmt xs (es : list (string * Doc)) :
  names_ok fmt → NoDup (id_of <$> xs) →
  Forall2 (λ x e, ids fmt !! id_of x = Some e.1) xs es →
  NoDup (fst <$> es).
Proof.
  intros [_ Hinj] Hn Hall. induction Hall as [|x e xs es Hx Hall IH].
  - constructor.
  - rewrite fmap_cons in Hn. apply NoDup_cons in Hn as [Hnin Hn].
    rewrite fmap_cons. apply NoDup_cons. split; [|apply IH, Hn].
    intros Hin. apply list_elem_of_fmap in Hin as (e' & He' & Hin).
    apply list_elem_of_lookup in Hin as [k Hk].
    destruct (Forall2_lookup_r _ _ _ _ _ Hall Hk) as (x' & Hk' & Hx').
    apply Hnin. apply list_elem_of_fmap. exists x'.
    split; [|eapply list_elem_of_lookup_2, Hk'].
    eapply Hinj; [exact Hx|]. rewrite He'. exact Hx'.
Qed.

(** X15.  The declarations [format_parts] makes for the source, one for each
    Instruction of [get_insts(src)] in that order, and for the hoisted
    constants carry pairwise distinct names, when the Formatter it is
    given is sound (as a new one is). *)
Theorem format_parts_declares_distinct_names
    (headers : list (string * term)) (src tgt : term)
    (fmt fmt' : Formatter) (p : parts) :
  consistent [src; tgt] → names_ok fmt →
  format_parts_lists headers src tgt fmt = Ok (p, fmt') →
  length (srci p) = length (get_insts src) ∧
  length (cdefs p) = length (constant_defs tgt (snd <$> headers)) ∧
  NoDup (fst <$> (srci p ++ cdefs p)).
Proof.
  intros Hc Hok Hrun.
  destruct (format_parts_lists_inv _ _ _ _ _ _ Hrun)
    as (fmt1 & fmt2 & _ & _ & _ & _ & _ & _ & _ & Hsrci & Hcdefs & _).
  destruct (mapM_named_doc_ids _ _ _ _ Hsrci) as (Hext1 & Hok1 & Hall1).
  destruct (mapM_named_doc_ids _ _ _ _ Hcdefs) as (Hext2 & Hok2 & Hall2).
  split; [symmetry; eapply Forall2_length, Hall1|].
  split; [symmetry; eapply Forall2_length, Hall2|].
  apply (distinct_names fmt2
           (get_insts src ++ constant_defs tgt (snd <$> headers)));
    [auto| |].
  - assert (Hcs : consistent [src]) by (eapply consistent_head, Hc).
    assert (Hct : consistent [tgt]).
    { intros u w (r & Hr & Hu) (r' & Hr' & Hw).
      apply list_elem_of_singleton in Hr as ->.
      apply list_elem_of_singleton in Hr' as ->.
      apply Hc; exists tgt; (split; [right; left|assumption]). }
    assert (Hot : occurs [tgt] tgt).
    { exists tgt. split; [left|constructor]. }
    rewrite fmap_app. apply NoDup_app. split; [apply get_insts_NoDup, Hcs|].
    split.
    + intros j Hj Hj'.
      apply list_elem_of_fmap in Hj as (u & -> & Hu).
      apply list_elem_of_fmap in Hj' as (w & Hid & Hw).
      assert (Hui : L.isinstance_Instruction u = true ∧ subterm u src).
      { destruct (get_insts_walk_inv [src] Hcs src
                    ltac:(exists src; split; [left|constructor]) ∅ ([], ∅))
          as (_ & (new & Hnew & Hall) & _).
        - split; cbn [fst snd fmap list_fmap].
          + set_solver.
          + intros x Hx. inversion Hx.
          + constructor.
          + intros x Hx. inversion Hx.
          + intros [|? ?] ? ? Heq; inversion Heq.
        - intros x _. apply not_elem_of_empty.
        - fold (get_insts src) in Hnew. cbn [fst app] in Hnew.
          rewrite Hnew in Hu. rewrite Forall_forall in Hall.
          split; [eapply ireach_inst, Hall, Hu|eapply ireach_subterm, Hall, Hu]. }
      unfold constant_defs in Hw. apply list_elem_of_filter in Hw as [HP Hw].
      rewrite !andb_true_iff in HP. destruct HP as [[_ Hk] _].
      apply (subterms_fresh [tgt] tgt Hct Hot) in Hw.
      assert (u = w) as ->.
      { apply Hc; [exists src; split; [left|tauto]
                  |exists tgt; split; [right; left|exact Hw]|exact Hid]. }
      destruct Hui as [Hi _]. destruct w as [? [] ?]; discriminate.
    + eapply sublist_NoDup; [apply (subterms_fresh [tgt] tgt Hct Hot)|].
      apply fmap_sublist, sublist_filter.
  - apply Forall2_app; [|exact Hall2].
    eapply Forall2_impl; [exact Hall1|]. intros x e Hx. apply Hext2, Hx.
Qed.

Lemma format_parts_declares_distinct_names_witness :
  ∃ p fmt',
    format_parts_lists [] ExShared.tgt ExShared.tgt Formatter_init
    = Ok (p, fmt') ∧
    NoDup (fst <$> (srci p ++ cdefs p)).
Proof.
  destruct (format_parts_lists [] ExShared.tgt ExShared.tgt Formatter_init)
    as [[p fmt']|e] eqn:Hrun.
  2:{ vm_compute in Hrun. discriminate Hrun. }
  exists p, fmt'. split; [reflexivity|].
  apply (format_parts_declares_distinct_names [] ExShared.tgt ExShared.tgt
           Formatter_init fmt' p).
  - apply consistentb_sound. vm_compute. reflexivity.
  - apply names_ok_init.
  - exact Hrun.
Defined.

(** X16.  When the target root is no Instruction (an input or a constant
    expression), [format_parts] lists one target declaration and no more:
    the target's document under the name of the source root. *)
Theorem format_parts_plain_target
    (headers : list (string * term)) (src tgt : term)
    (fmt fmt' : Formatter) (p : parts) :
  L.isinstance_Instruction tgt = false →
  format_parts_lists headers src tgt fmt = Ok (p, fmt') →
  ∃ n d fmt0 fmt1,
    tgti p = [(n, d)] ∧
    name src fmt0 = Ok (n, fmt1) ∧
    format_doc tgt 0 fmt1 = Ok (d, fmt') ∧
    ids fmt' !! id_of src = Some n.
Proof.
  intros Hcls Hrun.
  destruct (format_parts_lists_inv _ _ _ _ _ _ Hrun)
    as (fmt1 & fmt2 & fmt3 & fmt4 & fmt5 & fmt6 & listed & n & d
        & _ & _ & _ & _ & Hlist & Hn & Hd & Htgti).
  rewrite (get_insts_not_Instruction tgt Hcls) in Hlist.
  cbn [unnamed_docs ret] in Hlist. injection Hlist as <- <-.
  exists n, d, fmt4, fmt6. split; [exact Htgti|]. split; [exact Hn|].
  split; [exact Hd|].
  destruct (name_spec src fmt4) as (n' & fmt'' & Hn' & Hid & _).
  rewrite Hn in Hn'. injection Hn' as <- <-.
  apply (preserves_format_doc tgt 0 _ _ _ Hd), Hid.
Qed.

Lemma format_parts_plain_target_witness :
  ∃ p fmt' d,
    format_parts_lists [] Ex.src_add0 Ex.x Formatter_init = Ok (p, fmt') ∧
    tgti p = [("%r", d)].
Proof.
  destruct (format_parts_lists [] Ex.src_add0 Ex.x Formatter_init)
    as [[p fmt']|e] eqn:Hrun.
  2:{ vm_compute in Hrun. discriminate Hrun. }
  destruct (format_parts_plain_target [] Ex.src_add0 Ex.x Formatter_init
              fmt' p eq_refl Hrun) as (n & d & fmt0 & fmt1 & Htgti & _).
  exists p, fmt', d. split; [reflexivity|]. rewrite Htgti.
  vm_compute in Hrun. injection Hrun as <- _. vm_compute in Htgti.
  injection Htgti as <- _. reflexivity.
Defined.

Lemma string_length_append s1 s2 :
  String.length (s1 +:+ s2) = String.length s1 + String.length s2.
Proof.
  induction s1 as [|a s1 IH]; [reflexivity|].
  change (S (String.length (s1 +:+ s2))
          = S (String.length s1 + String.length s2)).
  f_equal. exact IH.
Qed.

Lemma length_spaces n : String.length (spaces n) = Z.to_nat n.
Proof.
  unfold spaces. induction (Z.to_nat n) as [|k IH]; [reflexivity|].
  cbn [replicate String.concat]. destruct k as [|k]; [reflexivity|].
  cbn [replicate] in *. rewrite !string_length_append, IH. reflexivity.
Qed.

Lemma foldr_max_bound (ws : list Z) w :
  w ∈ ws → (w ≤ foldr Z.max 0 ws)%Z.
Proof.
  induction 1 as [w ws|w w' ws _ IH]; cbn [foldr]; lia.
Qed.

(** X17.  [format_parts] lines the declarations up: every name, padded with
    the spaces [fmt_decl] adds, is as wide as the longest name of the
    source, constant and target declarations, so every [=] stands in the
    same column. *)
Theorem format_parts_aligns_declarations (nm : string) (p : parts) :
  layout_parts nm p =
  seq [ (if String.eqb nm "" then seq []
         else seq [text "Name: "; text nm; line]);
        seq (heads p);
        text "  ";
        nest 2 (seq (join line (fmt_decl (name_width p) <$> srci p)));
        line; text "=>"; line;
        text "  ";
        nest 2 (seq (join line (fmt_decl (name_width p)
                                <$> (cdefs p ++ tgti p))));
        line ] ∧
  ∀ d, d ∈ srci p ++ cdefs p ++ tgti p →
       (len d.1 ≤ name_width p)%Z ∧
       len (d.1 +:+ spaces (name_width p - len d.1)) = name_width p.
Proof.
  split; [reflexivity|]. intros d Hd.
  assert (Hle : (len d.1 ≤ name_width p)%Z).
  { apply foldr_max_bound, list_elem_of_fmap. exists d. auto. }
  split; [exact Hle|]. unfold len in *.
  rewrite string_length_append, length_spaces. lia.
Qed.





Lemma mapM_Raise {A B} (f : A → M B) xs fmt e :
  mapM f xs fmt = Raise e → ∃ x fmt0, x ∈ xs ∧ f x fmt0 = Raise e.
Proof.
  revert fmt. induction xs as [|x xs IH]; intros fmt; cbn [mapM].
  - intros He. discriminate He.
  - unfold bind at 1. destruct (f x fmt) as [[y fmt1]|e1] eqn:Hx.
    + unfold bind at 1.
      destruct (mapM f xs fmt1) as [[ys fmt2]|e2] eqn:Hxs;
        [intros He; discriminate He|].
      intros [= <-]. destruct (IH _ Hxs) as (x' & fmt0 & Hin & He).
      exists x', fmt0. split; [right; exact Hin|exact He].
    + intros [= <-]. exists x, fmt. split; [left|exact Hx].
Qed.

Lemma named_doc_Raise t fmt e :
  named_doc t fmt = Raise e → ∃ fmt0, format_doc t 0 fmt0 = Raise e.
Proof.
  unfold named_doc, bind. destruct (total_name t fmt) as (n & fmt1 & ->).
  destruct (format_doc t 0 fmt1) as [[d fmt2]|e1] eqn:Hd;
    [intros He; discriminate He|].
  intros [= <-]. eauto.
Qed.

Lemma unnamed_docs_Raise insts fmt e :
  unnamed_docs insts fmt = Raise e →
  ∃ i fmt0, i ∈ insts ∧ format_doc i 0 fmt0 = Raise e.
Proof.
  revert fmt. induction insts as [|i insts IH]; intros fmt;
    cbn [unnamed_docs].
  - intros He. discriminate He.
  - destruct (bool_decide _).
    + intros He. destruct (IH _ He) as (j & f & Hj & Hf).
      exists j, f. split; [right; exact Hj|exact Hf].
    + unfold bind at 1.
      destruct (named_doc i fmt) as [[d fmt1]|e1] eqn:Hi.
      * unfold bind at 1.
        destruct (unnamed_docs insts fmt1) as [[ds fmt2]|e2] eqn:Hrest;
          [intros He; discriminate He|].
        intros [= <-]. destruct (IH _ Hrest) as (j & f & Hj & Hf).
        exists j, f. split; [right; exact Hj|exact Hf].
      * intros [= <-]. destruct (named_doc_Raise _ _ _ Hi) as (f & Hf).
        exists i, f. split; [left|exact Hf].
Qed.

(** X22.  [format_parts] fails only where a printer fails: an exception
    that leaves it is raised by [format_doc] on one of the terms it prints
    (an instruction of the source or of the target, a hoisted constant, a
    header term, the target root), and so is of the kind that the printer
    of that term raises.  Naming, the write to [fmt.ids] and the layout
    raise nothing. *)
Theorem format_parts_exceptions (nm : string)
    (headers : list (string * term)) (src tgt : term) (fmt : Formatter)
    (e : exn) :
  format_parts nm headers src tgt fmt = Raise e →
  ∃ t fmt0,
    (t ∈ get_insts src ∨ t ∈ constant_defs tgt (snd <$> headers) ∨
     t ∈ snd <$> headers ∨ t ∈ get_insts tgt ∨ t = tgt) ∧
    format_doc t 0 fmt0 = Raise e ∧
    printer_exn t e.
Proof.
  assert (Hfin : ∀ t fmt0,
    (t ∈ get_insts src ∨ t ∈ constant_defs tgt (snd <$> headers) ∨
     t ∈ snd <$> headers ∨ t ∈ get_insts tgt ∨ t = tgt) →
    format_doc t 0 fmt0 = Raise e →
    ∃ t fmt0,
      (t ∈ get_insts src ∨ t ∈ constant_defs tgt (snd <$> headers) ∨
       t ∈ snd <$> headers ∨ t ∈ get_insts tgt ∨ t = tgt) ∧
      format_doc t 0 fmt0 = Raise e ∧ printer_exn t e).
  { intros t fmt0 Ht He. exists t, fmt0. split; [exact Ht|].
    split; [exact He|]. eapply format_doc_raises, He. }
  unfold format_parts. unfold bind at 1.
  destruct (format_parts_lists headers src tgt fmt) as [[p fmt9]|e0] eqn:Hrun;
    [intros He; discriminate He|].
  intros [= <-]. revert Hrun. unfold format_parts_lists. unfold bind at 1.
  destruct (mapM named_doc (get_insts src) fmt) as [[srci0 fmt1]|e1] eqn:H1.
  2:{ intros [= <-]. apply mapM_Raise in H1 as (t & f & Ht & Hf).
      apply named_doc_Raise in Hf as (f' & Hf).
      eapply Hfin; [|exact Hf]. left. exact Ht. }
  unfold bind at 1.
  destruct (mapM named_doc _ fmt1) as [[cdefs0 fmt2]|e2] eqn:H2.
  2:{ intros [= <-]. apply mapM_Raise in H2 as (t & f & Ht & Hf).
      apply named_doc_Raise in Hf as (f' & Hf).
      eapply Hfin; [|exact Hf]. right. left. exact Ht. }
  unfold bind at 1.
  destruct (mapM _ headers fmt2) as [[heads0 fmt3]|e3] eqn:H3.
  2:{ intros [= <-]. apply mapM_Raise in H3 as (ht & f & Hht & Hf).
      revert Hf. unfold bind.
      destruct (format_doc ht.2 0 f) as [[d f']|e4] eqn:Hd;
        [intros He; discriminate He|].
      intros [= <-]. eapply Hfin; [|exact Hd]. right. right. left.
      apply list_elem_of_fmap. eauto. }
  unfold bind at 1.
  match goal with
  | |- match ?m fmt3 with _ => _ end = _ → _ =>
      assert (Hstage : ∃ fmt4, m fmt3 = Ok (tt, fmt4))
  end.
  { destruct (L.isinstance_Instruction tgt).
    - unfold bind. destruct (total_name src fmt3) as (n & f & ->).
      unfold set_id. eauto.
    - unfold ret. eauto. }
  destruct Hstage as (fmt4 & ->). unfold bind at 1.
  destruct (unnamed_docs (get_insts tgt) fmt4) as [[listed fmt5]|e5] eqn:H5.
  2:{ intros [= <-]. apply unnamed_docs_Raise in H5 as (t & f & Ht & Hf).
      eapply Hfin; [|exact Hf]. auto 6. }
  unfold bind at 1. destruct (total_name src fmt5) as (n & fmt6 & ->).
  unfold bind at 1.
  destruct (format_doc tgt 0 fmt6) as [[d fmt7]|e7] eqn:H7;
    [intros He; discriminate He|].
  intros [= <-]. eapply Hfin; [|exact H7]. auto 6.
Qed.

Lemma format_parts_exceptions_witness :
  ∃ t fmt0, format_doc t 0 fmt0 = Raise (NotImplementedError "Can't format Foo")
            ∧ label_of t = Unregistered "Foo".
Proof.
  destruct (format_parts_exceptions "" []
              (Node 1 (BinaryOperator "%r" "add" [] None) [Ex.x; Ex.y])
              (Node 2 (Unregistered "Foo") []) Formatter_init
              (NotImplementedError "Can't format Foo"))
    as (t & fmt0 & Hin & Hf & Ht); [vm_compute; reflexivity|].
  exists t, fmt0. split; [exact Hf|].
  unfold printer_exn in Ht. destruct t as [i l ts]. cbn [label_of] in *.
  destruct l; try (destruct Ht as (k & _ & _ & Habs); discriminate Habs).
  - destruct (dict_get _bin_cnxp_prec code).
    + destruct Ht as [(key & u & Habs & _)|(Habs & _)]; discriminate Habs.
    + discriminate Ht.
  - destruct Ht as [(_ & _ & Habs)|(_ & Habs)]; discriminate Habs.
  - injection Ht as Heq. f_equal. symmetry. exact Heq.
Defined.

(** ** More on the walks of a Transform *)

Lemma consistent_incl rs rs' :
  (∀ r, r ∈ rs' → r ∈ rs) → consistent rs → consistent rs'.
Proof.
  intros Hsub Hc u w (r & Hr & Hu) (r' & Hr' & Hw).
  apply Hc; [exists r|exists r']; auto.
Qed.

Lemma foldlM_app {A B} (f : A → B → result A) a xs ys :
  foldlM f a (xs ++ ys) = let+ a' := foldlM f a xs in foldlM f a' ys.
Proof.
  revert a. induction xs as [|x xs IH]; intros a; cbn [foldlM app rbind].
  - reflexivity.
  - destruct (f a x) as [a'|e]; cbn [rbind]; [apply IH|reflexivity].
Qed.

Section transform_walks.
Context {E : Environment}.

Lemma Transform_subterms_chain (self : Transform TypeModel) :
  Transform_subterms self = (subterms_chain (Transform_roots self) ∅).1.
Proof.
  unfold Transform_subterms, Transform_roots. cbn [subterms_chain].
  destruct (L.subterms (t_src self) ∅) as [a s1]. cbn [fst snd].
  destruct (L.subterms (t_tgt self) s1) as [b s2]. cbn [fst snd].
  destruct (t_pre self) as [pre|]; cbn [subterms_chain fst snd].
  - rewrite app_nil_r. reflexivity.
  - reflexivity.
Qed.

Lemma constraint_walk_chain (self : Transform TypeModel) :
  constraint_walk self =
  (subterms_chain (t_src self
                   :: match t_pre self with Some pre => [pre] | None => [] end
                   ++ [t_tgt self]) ∅).1.
Proof.
  unfold constraint_walk. cbn [subterms_chain].
  destruct (L.subterms (t_src self) ∅) as [a s1]. cbn [fst snd].
  destruct (t_pre self) as [pre|]; cbn [app subterms_chain fst snd].
  - destruct (L.subterms pre s1) as [b s2]. cbn [fst snd].
    destruct (L.subterms (t_tgt self) s2) as [c s3]. cbn [fst snd].
    rewrite app_nil_r. reflexivity.
  - destruct (L.subterms (t_tgt self) s1) as [c s3]. cbn [fst snd].
    rewrite app_nil_r. reflexivity.
Qed.

(** The walk of [Transform.subterms] yields every object under the roots
    once. *)
Lemma Transform_subterms_fresh (self : Transform TypeModel) :
  consistent (Transform_roots self) →
  NoDup (id_of <$> Transform_subterms self) ∧
  (∀ x, x ∈ Transform_subterms self ↔ occurs (Transform_roots self) x).
Proof.
  intros Hc. rewrite Transform_subterms_chain.
  apply subterms_chain_fresh, Hc.
Qed.

(** X18.  [Transform.subterms] does what its docstring says, "generate all
    terms in the transform, without repeats": it yields every object
    reachable from the source, the target or the precondition, and yields
    no object twice, also when the three share subterms. *)
Theorem Transform_subterms_no_repeats (self : Transform TypeModel) :
  consistent (Transform_roots self) →
  NoDup (id_of <$> Transform_subterms self) ∧
  NoDup (Transform_subterms self) ∧
  (∀ x, x ∈ Transform_subterms self ↔
        subterm x (t_src self) ∨ subterm x (t_tgt self) ∨
        ∃ pre, t_pre self = Some pre ∧ subterm x pre).
Proof.
  intros Hc. destruct (Transform_subterms_fresh self Hc) as [Hn Hmem].
  split; [exact Hn|]. split; [eapply NoDup_fmap_1, Hn|].
  intros x. rewrite Hmem. unfold occurs, Transform_roots. split.
  - intros (r & Hr & Hx). apply elem_of_cons in Hr as [->|Hr]; [auto|].
    apply elem_of_cons in Hr as [->|Hr]; [auto|].
    destruct (t_pre self) as [pre|]; [|inversion Hr].
    apply list_elem_of_singleton in Hr as ->. eauto.
  - intros [Hx|[Hx|(pre & Hpre & Hx)]].
    + exists (t_src self). split; [left|exact Hx].
    + exists (t_tgt self). split; [right; left|exact Hx].
    + exists pre. rewrite Hpre. split; [right; right; left|exact Hx].
Qed.

Lemma foldlM_collect_pair (xs : list term) :
  ∀ t acc r,
    foldlM (fun '(t, defaultable) term =>
              let+ t := collect term t in
              Ok (t, if L.isinstance_Comparison_or_FunPred term
                     then defaultable ++ args term
                     else defaultable))
           (t, acc) xs = Ok r →
    foldlM (fun t term => collect term t) t xs = Ok r.1 ∧
    r.2 = acc ++ mjoin (args <$> filter
            (λ x, L.isinstance_Comparison_or_FunPred x = true) xs).
Proof.
  induction xs as [|x xs IH]; intros t acc r; cbn [foldlM].
  - intros [= <-]. cbn. rewrite app_nil_r. auto.
  - unfold rbind at 1 2. destruct (collect x t) as [t1|]; [|discriminate].
    cbn [rbind]. intros Hrun. destruct (IH _ _ _ Hrun) as [Hc Hd].
    split; [exact Hc|]. rewrite Hd, filter_cons.
    destruct (L.isinstance_Comparison_or_FunPred x).
    + rewrite decide_True by reflexivity. rewrite fmap_cons. cbn.
      rewrite <- (assoc_L (++)). reflexivity.
    + rewrite decide_False by discriminate. reflexivity.
Qed.

(** What [type_constraints] has in hand when it comes to [t.eq_types]. *)
Lemma gather_constraints_inv (self : Transform TypeModel) t sr d :
  gather_constraints self = Ok (t, sr, d) →
  ∃ t1 t0,
    foldlM (fun t term => collect term t) new_constraints
           (L.subterms (t_src self) ∅).1 = Ok t1 ∧
    sr = sets_reps t1 ∧
    foldlM (fun t term => collect term t) new_constraints
           (constraint_walk self) = Ok t0 ∧
    eq_types (t_src self) (t_tgt self) t0 = Ok t ∧
    d = match t_pre self with
        | None => []
        | Some pre =>
            mjoin (args <$> filter
              (λ x, L.isinstance_Comparison_or_FunPred x = true)
              (L.subterms pre (L.subterms (t_src self) ∅).2).1)
        end.
Proof.
  unfold gather_constraints, constraint_walk.
  destruct (L.subterms (t_src self) ∅) as [a s1]. cbn [fst snd].
  unfold rbind at 1.
  destruct (foldlM _ new_constraints a) as [t1|] eqn:Hsrc; [|discriminate].
  destruct (t_pre self) as [pre|].
  - destruct (L.subterms pre s1) as [b s2] eqn:Hb. cbn [fst snd].
    unfold rbind at 1 2.
    destruct (foldlM _ (t1, []) b) as [[t2 d2]|] eqn:Hpre; [|discriminate].
    cbn [rbind].
    destruct (L.subterms (t_tgt self) s2) as [c s3]. unfold rbind at 1.
    destruct (foldlM _ t2 c) as [t3|] eqn:Htgt; [|discriminate].
    unfold rbind at 1.
    destruct (eq_types _ _ t3) as [t4|] eqn:Heq; [|discriminate].
    intros [= <- <- <-].
    destruct (foldlM_collect_pair _ _ _ _ Hpre) as [Hc Hd]. cbn [fst snd] in *.
    exists t1, t3. split; [reflexivity|]. split; [reflexivity|].
    split; [|split; [exact Heq|exact Hd]].
    rewrite foldlM_app, Hsrc. cbn [rbind]. rewrite foldlM_app, Hc.
    cbn [rbind]. exact Htgt.
  - cbn [rbind].
    destruct (L.subterms (t_tgt self) s1) as [c s3]. unfold rbind at 1.
    destruct (foldlM _ t1 c) as [t3|] eqn:Htgt; [|discriminate].
    unfold rbind at 1.
    destruct (eq_types _ _ t3) as [t4|] eqn:Heq; [|discriminate].
    intros [= <- <- <-].
    exists t1, t3. split; [reflexivity|]. split; [reflexivity|].
    split; [|split; [exact Heq|reflexivity]].
    rewrite foldlM_app, Hsrc. cbn [rbind app]. exact Htgt.
Qed.

(** X19.  [type_constraints] collects constraints from the terms that
    [validate_model] checks, and no others: the calls of
    [term.type_constraints(t)] it makes before [t.eq_types(src, tgt)] are
    on the terms of [Transform.subterms], each once, in another order
    (the precondition before the target). *)
Theorem type_constraints_visits_the_subterms (self : Transform TypeModel) :
  consistent (Transform_roots self) →
  constraint_walk self ≡ₚ Transform_subterms self ∧
  ∀ t sr d, gather_constraints self = Ok (t, sr, d) →
    ∃ t0, foldlM (fun t term => collect term t) new_constraints
                 (constraint_walk self) = Ok t0 ∧
          eq_types (t_src self) (t_tgt self) t0 = Ok t.
Proof.
  intros Hc. split.
  - destruct (Transform_subterms_fresh self Hc) as [Hn Hmem].
    assert (Hsame : ∀ r,
      r ∈ t_src self
          :: match t_pre self with Some pre => [pre] | None => [] end
          ++ [t_tgt self]
      ↔ r ∈ Transform_roots self).
    { intros r. unfold Transform_roots. destruct (t_pre self); cbn [app];
        rewrite ?elem_of_cons; rewrite ?elem_of_nil; tauto. }
    assert (Hc' : consistent (t_src self
      :: match t_pre self with Some pre => [pre] | None => [] end
      ++ [t_tgt self])).
    { eapply consistent_incl; [|exact Hc]. intros r. apply Hsame. }
    destruct (subterms_chain_fresh _ Hc') as [Hn' Hmem'].
    rewrite <- constraint_walk_chain in Hn', Hmem'.
    apply NoDup_Permutation.
    + eapply NoDup_fmap_1, Hn'.
    + eapply NoDup_fmap_1, Hn.
    + intros x. rewrite Hmem, Hmem'. unfold occurs.
      split; intros (r & Hr & Hx); exists r; (split; [apply Hsame, Hr|exact Hx]).
  - intros t sr d Hrun.
    destruct (gather_constraints_inv self t sr d Hrun)
      as (t1 & t0 & _ & _ & Hwalk & Heq & _).
    eauto.
Qed.

(** X20.  The terms [type_constraints] may default are the operands of the
    comparisons and predicate applications that the walk of the
    precondition yields, in that order; the variables fixed by the source
    are the representatives after the walk of the source.  Without a
    precondition there is nothing to default, and what is left in [reps] is
    every new representative. *)
Theorem type_constraints_defaultable (self : Transform TypeModel)
    (t : TypeConstraints) (sr d : list term) :
  gather_constraints self = Ok (t, sr, d) →
  d = match t_pre self with
      | None => []
      | Some pre =>
          mjoin (args <$> filter
            (λ x, L.isinstance_Comparison_or_FunPred x = true)
            (L.subterms pre (L.subterms (t_src self) ∅).2).1)
      end ∧
  (∃ t1, foldlM (fun t term => collect term t) new_constraints
                (L.subterms (t_src self) ∅).1 = Ok t1 ∧
         sr = sets_reps t1) ∧
  (t_pre self = None →
   constraints_and_reps self = Ok (t, new_reps t sr)).
Proof.
  intros Hrun.
  destruct (gather_constraints_inv self t sr d Hrun)
    as (t1 & t0 & Hsrc & Hsr & _ & _ & Hd).
  split; [exact Hd|]. split; [eauto|].
  intros Hpre. unfold constraints_and_reps. rewrite Hrun. cbn [rbind].
  rewrite Hpre in Hd. subst d. unfold apply_defaults.
  destruct (new_reps t sr); reflexivity.
Qed.

End transform_walks.

Lemma Transform_subterms_no_repeats_witness :
  NoDup (id_of <$> Transform_subterms (E := SimpleTyping.environment)
                     ExPre.with_pre) ∧
  length (Transform_subterms (E := SimpleTyping.environment) ExPre.with_pre)
  = 8.
Proof.
  split; [|vm_compute; reflexivity].
  apply (Transform_subterms_no_repeats (E := SimpleTyping.environment)).
  apply consistentb_sound. vm_compute. reflexivity.
Defined.

Lemma type_constraints_visits_the_subterms_witness :
  constraint_walk ExPre.with_pre
  ≡ₚ Transform_subterms (E := SimpleTyping.environment) ExPre.with_pre.
Proof.
  apply (type_constraints_visits_the_subterms (E := SimpleTyping.environment)).
  apply consistentb_sound. vm_compute. reflexivity.
Defined.

Lemma type_constraints_defaultable_witness :
  ∃ t sr,
    gather_constraints (E := SimpleTyping.environment) ExPre.with_pre
    = Ok (t, sr, [Ex.C1_plus_1; Ex.zero]).
Proof.
  destruct (gather_constraints (E := SimpleTyping.environment) ExPre.with_pre)
    as [[[t sr] d]|e] eqn:Hrun.
  2:{ vm_compute in Hrun. discriminate Hrun. }
  destruct (type_constraints_defaultable (E := SimpleTyping.environment)
              ExPre.with_pre t sr d Hrun) as (Hd & _).
  exists t, sr. rewrite Hd. vm_compute. reflexivity.
Defined.

(** ** The chain of the [BinaryCnxp] printer *)

Lemma operand_leaf t p fmt d fmt' :
  operand t p None fmt = Ok (d, fmt') →
  leaf_doc p fmt' t d ∧ ids_extend fmt fmt'.
Proof.
  intros Hrun. split; [|apply (preserves_operand t p None _ _ _ Hrun)].
  revert Hrun. unfold operand, bind.
  destruct (bool_decide (id_of t ∈ dom (ids fmt))) eqn:Hdom; cbn [orb].
  - destruct (name_spec t fmt) as (n & fmt1 & -> & Hid & _).
    cbn [ret]. intros [= <- <-]. right. eauto.
  - destruct (L.isinstance_Instruction t) eqn:Hcls.
    + destruct (name_spec t fmt) as (n & fmt1 & -> & Hid & _).
      cbn [ret]. intros [= <- <-]. right. eauto.
    + cbn [ret]. intros [= <- <-]. left. auto.
Qed.

Lemma leaf_doc_mono p f1 f2 leaf d :
  ids_extend f1 f2 → leaf_doc p f1 leaf d → leaf_doc p f2 leaf d.
Proof.
  intros Hext [Hs|(n & -> & Hn)]; [left; exact Hs|right].
  exists n. split; [reflexivity|apply Hext, Hn].
Qed.

Lemma chain_docs_leaf p f leaf d : leaf_doc p f leaf d → chain_docs d = [d].
Proof. intros [[-> _]|(n & -> & _)]; reflexivity. Qed.

(** The chain [gather] returns holds, in order, the documents of the
    operands it handed to [fmt.operand]. *)
Lemma gather_leaves p t :
  ∀ fmt d fmt', gather p t fmt = Ok (d, fmt') →
    Forall2 (leaf_doc p fmt') (chain_operands p t) (chain_docs d).
Proof.
  induction t as [i l ts IH] using term_ind_args. intros fmt d fmt'.
  assert (Hleaf : operand (Node i l ts) p None fmt = Ok (d, fmt') →
    Forall2 (leaf_doc p fmt') [Node i l ts] (chain_docs d)).
  { intros Hrun. apply operand_leaf in Hrun as [Hd _].
    rewrite (chain_docs_leaf _ _ _ _ Hd). constructor; [exact Hd|constructor]. }
  rewrite gather_eq. cbn [label_of args].
  destruct l; try exact Hleaf.
  cbn [chain_operands]. unfold bind at 1, subscript.
  destruct (dict_get _bin_cnxp_prec code) as [p'|]; [|intros He; discriminate He].
  cbn [ret]. destruct (negb (p =? p')%Z); [exact Hleaf|].
  destruct ts as [|x [|y [|z ts]]]; try (intros He; discriminate He).
  apply Forall_cons in IH as [IHx IH]. apply Forall_cons in IH as [IHy _].
  unfold bind at 1.
  destruct (gather p x fmt) as [[dx fmt1]|] eqn:Hx; [|intros He; discriminate He].
  unfold bind at 1.
  destruct ((if in_lassoc code then operand y p None else gather p y) fmt1)
    as [[dy fmt2]|] eqn:Hy; [|intros He; discriminate He].
  cbn [ret]. intros [= <- <-]. cbn [chain_docs].
  assert (Hext : ids_extend fmt1 fmt2).
  { destruct (in_lassoc code).
    - apply (preserves_operand y p None _ _ _ Hy).
    - apply (preserves_gather p y _ _ _ Hy). }
  apply Forall2_app.
  - eapply Forall2_impl; [apply (IHx _ _ _ Hx)|].
    intros leaf dl. apply leaf_doc_mono, Hext.
  - destruct (in_lassoc code).
    + apply operand_leaf in Hy as [Hd _].
      rewrite (chain_docs_leaf _ _ _ _ Hd). constructor; [exact Hd|constructor].
    + apply (IHy _ _ _ Hy).
Qed.

Lemma operand_unchanged t p ty fmt d fmt' :
  L.isinstance_Instruction t = false →
  operand t p ty fmt = Ok (d, fmt') → fmt' = fmt.
Proof.
  intros Hcls. unfold operand, bind. rewrite Hcls, orb_false_r.
  destruct (bool_decide (id_of t ∈ dom (ids fmt))) eqn:Hdom.
  - apply bool_decide_eq_true, elem_of_dom in Hdom as [n Hn].
    unfold name. rewrite Hn. destruct ty; cbn [ret]; intros [= _ <-]; reflexivity.
  - destruct ty; cbn [ret]; intros [= _ <-]; reflexivity.
Qed.

(** A chain without Instruction operands leaves the Formatter as it is. *)
Lemma gather_unchanged p t :
  ∀ fmt d fmt',
    Forall (λ leaf, L.isinstance_Instruction leaf = false)
           (chain_operands p t) →
    gather p t fmt = Ok (d, fmt') → fmt' = fmt.
Proof.
  induction t as [i l ts IH] using term_ind_args. intros fmt d fmt'.
  assert (Hleaf :
    Forall (λ leaf, L.isinstance_Instruction leaf = false) [Node i l ts] →
    operand (Node i l ts) p None fmt = Ok (d, fmt') → fmt' = fmt).
  { intros Hall. apply Forall_cons in Hall as [Hcls _].
    apply operand_unchanged, Hcls. }
  rewrite gather_eq. cbn [label_of args].
  destruct l; try exact Hleaf.
  cbn [chain_operands]. unfold bind at 1, subscript.
  destruct (dict_get _bin_cnxp_prec code) as [p'|];
    [|intros _ He; discriminate He].
  cbn [ret]. destruct (negb (p =? p')%Z); [exact Hleaf|].
  destruct ts as [|x [|y [|z ts]]]; try (intros _ He; discriminate He).
  apply Forall_cons in IH as [IHx IH]. apply Forall_cons in IH as [IHy _].
  intros Hall. apply Forall_app in Hall as [Hallx Hally].
  unfold bind at 1.
  destruct (gather p x fmt) as [[dx fmt1]|] eqn:Hx; [|intros He; discriminate He].
  apply (IHx _ _ _ Hallx) in Hx. subst fmt1.
  unfold bind at 1. destruct (in_lassoc code).
  - destruct (operand y p None fmt) as [[dy fmt2]|] eqn:Hy;
      [|intros He; discriminate He].
    apply Forall_cons in Hally as [Hcls _].
    apply (operand_unchanged _ _ _ _ _ _ Hcls) in Hy. subst fmt2.
    cbn [ret]. intros [= _ <-]. reflexivity.
  - destruct (gather p y fmt) as [[dy fmt2]|] eqn:Hy;
      [|intros He; discriminate He].
    apply (IHy _ _ _ Hally) in Hy. subst fmt2.
    cbn [ret]. intros [= _ <-]. reflexivity.
Qed.

Lemma cnxp_ok_chain p t :
  cnxp_ok t = true → Forall (λ leaf, cnxp_ok leaf = true) (chain_operands p t).
Proof.
  induction t as [i l ts IH] using term_ind_args. intros Hok.
  assert (Hleaf : Forall (λ leaf, cnxp_ok leaf = true) [Node i l ts]).
  { constructor; [exact Hok|constructor]. }
  destruct l; try exact Hleaf.
  cbn [chain_operands].
  destruct (dict_get _bin_cnxp_prec code) as [p'|]; [|constructor].
  destruct (negb (p =? p')%Z); [exact Hleaf|].
  apply cnxp_ok_BinaryCnxp in Hok as [_ (x & y & -> & Hx & Hy)].
  apply Forall_cons in IH as [IHx IH]. apply Forall_cons in IH as [IHy _].
  apply Forall_app. split; [apply IHx, Hx|].
  destruct (in_lassoc code); [|apply IHy, Hy].
  constructor; [exact Hy|constructor].
Qed.

(** The printer on a well-formed expression: the chain of [gather], in
    parentheses under the printer's test. *)
Lemma binary_cnxp_printed i code ts prec fmt :
  cnxp_ok (Node i (BinaryCnxp code) ts) = true →
  ∃ p body fmt',
    dict_get _bin_cnxp_prec code = Some p ∧
    gather p (Node i (BinaryCnxp code) ts) fmt = Ok (body, fmt') ∧
    format_doc (Node i (BinaryCnxp code) ts) prec fmt
    = Ok (nest 2 (group
            (if (p <=? prec)%Z || ((0 <? prec)%Z && (prec <? 8)%Z)
             then parens body else body)), fmt') ∧
    (parenthesized
       (nest 2 (group
          (if (p <=? prec)%Z || ((0 <? prec)%Z && (prec <? 8)%Z)
           then parens body else body))) = true
     ↔ (p ≤ prec ∨ 0 < prec < 8)%Z).
Proof.
  intros Hok.
  destruct (cnxp_ok_BinaryCnxp _ _ _ Hok) as [[p Hp] (x & y & -> & Hx & Hy)].
  destruct (gather_chain i code x y p fmt Hp Hok) as (dx & dy & fmt' & Hg).
  exists p, (seq [dx; line; text code; text " "; dy]), fmt'.
  split; [exact Hp|]. split; [exact Hg|]. split.
  - rewrite format_doc_BinaryCnxp. unfold bind at 1, subscript.
    rewrite Hp. cbn [ret]. unfold bind. rewrite Hg. reflexivity.
  - destruct ((p <=? prec)%Z || ((0 <? prec)%Z && (prec <? 8)%Z)) eqn:Hc.
    + cbn. split; [intros _|reflexivity].
      apply orb_true_iff in Hc as [Hc|Hc]; [left; lia|].
      apply andb_true_iff in Hc. right. lia.
    + cbn. split; [discriminate|]. intros Hcond.
      apply orb_false_iff in Hc as [Hc1 Hc2].
      apply andb_false_iff in Hc2. lia.
Qed.

(** C1 (as amended).  The [BinaryCnxp] printer returns on every well-formed
    expression, and it wraps the chain in parentheses exactly when the
    enclosing precedence is at least the operator's table precedence or lies
    strictly between 0 and 8; so there are none at precedence 0 and none at
    a precedence from 8 up to the operator's own.  The chain holds, in
    order, one document for each operand that [gather] reaches, left and
    right and at any depth: the operand suspended at the precedence of the
    operator around it unless it is an Instruction or has a name, in
    which case its name.  A suspended operand that is a binary connective
    expression is therefore printed at that precedence, and comes out in
    parentheses exactly when its own precedence is at most that of the
    operator around it, or that one is below 8: a multiplicative expression
    inside an additive one without, an additive expression inside a
    multiplicative one with parentheses. *)
Theorem binary_cnxp_parentheses
    (i : ident) (code : string) (ts : list term) (prec : Z) (fmt : Formatter) :
  cnxp_ok (Node i (BinaryCnxp code) ts) = true →
  ∃ op_prec d fmt',
    dict_get _bin_cnxp_prec code = Some op_prec ∧
    format_doc (Node i (BinaryCnxp code) ts) prec fmt = Ok (d, fmt') ∧
    (parenthesized d = true ↔ (op_prec ≤ prec ∨ 0 < prec < 8)%Z) ∧
    (∃ body,
       d = nest 2 (group
             (if (op_prec <=? prec)%Z || ((0 <? prec)%Z && (prec <? 8)%Z)
              then parens body else body)) ∧
       Forall2 (leaf_doc op_prec fmt')
               (chain_operands op_prec (Node i (BinaryCnxp code) ts))
               (chain_docs body)) ∧
    (Forall (λ leaf, L.isinstance_Instruction leaf = false)
            (chain_operands op_prec (Node i (BinaryCnxp code) ts)) →
     fmt' = fmt) ∧
    (∀ leaf j cx xs px,
       leaf ∈ chain_operands op_prec (Node i (BinaryCnxp code) ts) →
       leaf = Node j (BinaryCnxp cx) xs →
       dict_get _bin_cnxp_prec cx = Some px →
       ∀ fmt0, ∃ d0 fmt1,
         format_doc leaf op_prec fmt0 = Ok (d0, fmt1) ∧
         (parenthesized d0 = true ↔ (px ≤ op_prec ∨ 0 < op_prec < 8)%Z)) ∧
    (∀ j cx xs px y,
       ts = [Node j (BinaryCnxp cx) xs; y] →
       dict_get _bin_cnxp_prec cx = Some px → px ≠ op_prec →
       j ∉ dom (ids fmt) →
       ∃ rest, d = nest 2 (group (seq
                  (Formatted (Node j (BinaryCnxp cx) xs) op_prec :: rest)))
             ∨ d = nest 2 (group (parens (seq
                  (Formatted (Node j (BinaryCnxp cx) xs) op_prec :: rest))))).
Proof.
  intros Hok.
  destruct (binary_cnxp_printed i code ts prec fmt Hok)
    as (p & body & fmt' & Hp & Hg & Hd & Hiff).
  exists p. eexists _, fmt'. split; [exact Hp|]. split; [exact Hd|].
  split; [exact Hiff|]. split; [|split; [|split]].
  - exists body. split; [reflexivity|]. eapply gather_leaves, Hg.
  - intros Hall. eapply gather_unchanged; eassumption.
  - intros leaf j cx xs px Hin -> Hpx fmt0.
    pose proof (cnxp_ok_chain p _ Hok) as Hoks.
    rewrite Forall_forall in Hoks. specialize (Hoks _ Hin).
    destruct (binary_cnxp_printed j cx xs p fmt0 Hoks)
      as (p' & body0 & fmt1 & Hp' & _ & Hd0 & Hiff0).
    rewrite Hpx in Hp'. injection Hp' as <-.
    eexists _, fmt1. split; [exact Hd0|exact Hiff0].
  - intros j cx xs px y' -> Hpx Hne Hj.
    pose proof (gather_leaves p _ _ _ _ Hg) as Hleaves.
    revert Hleaves Hg. rewrite gather_eq. cbn [label_of args chain_operands].
    unfold bind at 1, subscript. rewrite Hp. cbn [ret].
    rewrite Z.eqb_refl. cbn [negb]. rewrite Hpx.
    destruct (p =? px)%Z eqn:Heq; [apply Z.eqb_eq in Heq; congruence|].
    cbn [negb app]. intros Hleaves. unfold bind at 1.
    destruct (gather p (Node j (BinaryCnxp cx) xs) fmt) as [[dx fmt1]|] eqn:Hx;
      [|intros He; discriminate He].
    assert (Hdx : dx = Formatted (Node j (BinaryCnxp cx) xs) p).
    { revert Hx. rewrite gather_eq. cbn [label_of args].
      unfold bind at 1, subscript. rewrite Hpx. cbn [ret]. rewrite Heq.
      cbn [negb]. unfold operand, bind.
      rewrite bool_decide_eq_false_2 by exact Hj.
      cbn [id_of orb L.isinstance_Instruction label_of ret].
      intros [= <- _]. reflexivity. }
    subst dx. unfold bind at 1.
    match goal with
    | |- match ?m fmt1 with _ => _ end = _ → _ =>
        destruct (m fmt1) as [[dy fmt2]|]; [|intros He; discriminate He]
    end.
    cbn [ret]. intros [= <- <-].
    exists [line; text code; text " "; dy].
    destruct (_ || _); [right|left]; reflexivity.
Qed.

Lemma binary_cnxp_parentheses_witness :
  cnxp_ok ExChain.prod_right = true ∧
  ∃ d fmt',
    format_doc ExChain.prod_right 0 Formatter_init = Ok (d, fmt') ∧
    (parenthesized d = true ↔ (9 ≤ 0 ∨ 0 < 0 < 8)%Z) ∧
    (∃ body, d = nest 2 (group body) ∧
             chain_docs body
             = [Formatted ExCnxp.c 9; Formatted ExCnxp.sum 9]) ∧
    ∀ fmt0, ∃ d0 fmt1,
      format_doc ExCnxp.sum 9 fmt0 = Ok (d0, fmt1) ∧
      (parenthesized d0 = true ↔ (8 ≤ 9 ∨ 0 < 9 < 8)%Z).
Proof.
  split; [reflexivity|].
  destruct (binary_cnxp_parentheses 9 "*" [ExCnxp.c; ExCnxp.sum] 0
              Formatter_init eq_refl)
    as (p & d & fmt' & Hp & Hd & Hiff & (body & Hbody & Hleaves) & _
        & Hleaf & _).
  injection Hp as <-.
  exists d, fmt'. split; [exact Hd|]. split; [exact Hiff|]. split.
  - exists body. split; [exact Hbody|].
    cbn [chain_operands ExCnxp.c ExCnxp.sum] in Hleaves.
    change (Forall2 (leaf_doc 9 fmt') [ExCnxp.c; ExCnxp.sum]
              (chain_docs body)) in Hleaves.
    assert (Hfresh : ids fmt' = ∅).
    { vm_compute in Hd. injection Hd as _ <-. reflexivity. }
    assert (Hdoc : ∀ leaf dl, leaf_doc 9 fmt' leaf dl → dl = Formatted leaf 9).
    { intros leaf dl [[-> _]|(n & _ & Hn)]; [reflexivity|].
      rewrite Hfresh, lookup_empty in Hn. discriminate Hn. }
    apply Forall2_cons_inv_l in Hleaves as (d1 & ds & H1 & Hrest & ->).
    apply Forall2_cons_inv_l in Hrest as (d2 & ds' & H2 & Hnil & ->).
    apply Forall2_nil_inv_l in Hnil as ->.
    rewrite (Hdoc _ _ H1), (Hdoc _ _ H2). reflexivity.
  - apply (Hleaf ExCnxp.sum 4 "+" [ExCnxp.a; ExCnxp.b] 8%Z);
      [|reflexivity|reflexivity].
    vm_compute. right. left.
Defined.

(** ** The target root in [format_parts] *)



(** ** What [validate_model] returns and what it lets through *)

Lemma foldlM_folds {A B} (f : A → B → result A) a l a' :
  foldlM f a l = Ok a' ↔ folds f a l a'.
Proof.
  split.
  - revert a. induction l as [|x l IH]; intros a; cbn [foldlM].
    + intros [= <-]. constructor.
    + destruct (f a x) as [a1|e] eqn:Hf; cbn [rbind]; [|discriminate].
      intros Hrest. econstructor; [exact Hf|apply IH, Hrest].
  - induction 1 as [a|a x a1 xs a2 Hf _ IH]; cbn [foldlM]; [reflexivity|].
    rewrite Hf. exact IH.
Qed.

Lemma foldlM_Raise {A B} (f : A → B → result A) a l e :
  foldlM f a l = Raise e ↔
  ∃ l1 x l2 a', l = l1 ++ x :: l2 ∧ folds f a l1 a' ∧ f a' x = Raise e.
Proof.
  split.
  - revert a. induction l as [|x l IH]; intros a; cbn [foldlM];
      [discriminate|].
    destruct (f a x) as [a1|e1] eqn:Hf; cbn [rbind].
    + intros Hrest. destruct (IH _ Hrest) as (l1 & y & l2 & a' & -> & Hl1 & Hy).
      exists (x :: l1), y, l2, a'. split; [reflexivity|].
      split; [econstructor; eassumption|exact Hy].
    + intros [= <-]. exists [], x, l, a. split; [reflexivity|].
      split; [constructor|exact Hf].
  - intros (l1 & x & l2 & a' & -> & Hl1 & Hx).
    induction Hl1 as [a|a y a1 ys a2 Hf _ IH]; cbn [foldlM app].
    + rewrite Hx. reflexivity.
    + rewrite Hf. exact (IH Hx).
Qed.

Section validate_model_facts.
Context {E : Environment}.
Variable iter_order : list term → list term.

Lemma validation_checks_Ok (self : Transform TypeModel) V V2 :
  validation_checks self V = Ok V2 ↔
  ∃ V1, validator_eq_types (t_src self) (t_tgt self) V = Ok V1 ∧
        checked V1 (Transform_subterms self) V2.
Proof.
  unfold validation_checks, checked.
  destruct (validator_eq_types (t_src self) (t_tgt self) V) as [V1|e];
    cbn [rbind].
  - rewrite foldlM_folds. split; [eauto|]. intros (V' & [= <-] & H). exact H.
  - split; [discriminate|]. intros (V' & Habs & _). discriminate Habs.
Qed.

Lemma validation_checks_Raise (self : Transform TypeModel) V e :
  validation_checks self V = Raise e ↔ validation_raises self V e.
Proof.
  unfold validation_checks, validation_raises, check_raises, checked.
  destruct (validator_eq_types (t_src self) (t_tgt self) V) as [V1|e1];
    cbn [rbind].
  - rewrite foldlM_Raise. split.
    + intros H. right. exists V1. split; [reflexivity|exact H].
    + intros [Habs|(V' & [= <-] & H)]; [discriminate Habs|exact H].
  - split.
    + intros [= <-]. left. reflexivity.
    + intros [[= <-]|(V' & Habs & _)]; [reflexivity|discriminate Habs].
Qed.

Lemma abstract_type_model_fields (self self' : Transform TypeModel) model :
  abstract_type_model iter_order self = Ok (model, self') →
  t_name self' = t_name self ∧ t_pre self' = t_pre self ∧
  t_src self' = t_src self ∧ t_tgt self' = t_tgt self ∧
  t_model self' = Some model.
Proof.
  unfold abstract_type_model. destruct (t_model self) as [m|] eqn:Hm.
  - intros [= <- <-]. auto.
  - destruct (type_constraints iter_order self) as [t|]; [|discriminate].
    cbn [rbind]. destruct (get_type_model t) as [m|]; [|discriminate].
    cbn [rbind]. intros [= <- <-]. auto.
Qed.

Lemma Transform_subterms_fields (self self' : Transform TypeModel) :
  t_pre self' = t_pre self → t_src self' = t_src self →
  t_tgt self' = t_tgt self →
  Transform_subterms self' = Transform_subterms self.
Proof.
  intros Hp Hs Ht. unfold Transform_subterms. rewrite Hp, Hs, Ht. reflexivity.
Qed.

(** C3 (as amended).  [validate_model] first obtains the abstract type
    model and builds the validator, outside of its [try] block: whatever
    either of them raises, a [typing.Error] of [type_constraints] included,
    leaves [validate_model].  Then it returns [true] exactly when the
    unification of source and target goes through and then the check of
    every term of [Transform.subterms], one after the other; it returns
    [false] exactly when the unification, or the first check that raises,
    raises a [typing.Error]; and it raises [e] exactly when that first
    exception is [e] and no [typing.Error].  The Transform comes back with
    its model cached, and the terms checked are all objects under the
    source, the target and the precondition, each once. *)
Theorem validate_model_contains_typing_errors
    (self : Transform TypeModel) (type_vector : TypeVector) :
  (∀ e, abstract_type_model iter_order self = Raise e ↔
        t_model self = None ∧
        (type_constraints iter_order self = Raise e ∨
         ∃ t, type_constraints iter_order self = Ok t ∧
              get_type_model t = Raise e)) ∧
  (consistent (Transform_roots self) →
   NoDup (Transform_subterms self) ∧
   ∀ x, x ∈ Transform_subterms self ↔ occurs (Transform_roots self) x) ∧
  match abstract_type_model iter_order self with
  | Raise e => validate_model iter_order self type_vector = Raise e
  | Ok (model, self') =>
      (t_name self' = t_name self ∧ t_pre self' = t_pre self ∧
       t_src self' = t_src self ∧ t_tgt self' = t_tgt self ∧
       t_model self' = Some model) ∧
      match new_validator model type_vector with
      | Raise e => validate_model iter_order self type_vector = Raise e
      | Ok V =>
          (validate_model iter_order self type_vector = Ok (true, self') ↔
           ∃ V1 V2,
             validator_eq_types (t_src self) (t_tgt self) V = Ok V1 ∧
             checked V1 (Transform_subterms self) V2) ∧
          (validate_model iter_order self type_vector = Ok (false, self') ↔
           ∃ msg, validation_raises self V (TypingError msg)) ∧
          (∀ e, validate_model iter_order self type_vector = Raise e ↔
                validation_raises self V e ∧ ∀ msg, e ≠ TypingError msg) ∧
          (∀ b s, validate_model iter_order self type_vector = Ok (b, s) →
                  s = self')
      end
  end.
Proof.
  split.
  { intros e. unfold abstract_type_model.
    destruct (t_model self) as [m|].
    - split; [discriminate|]. intros [Habs _]. discriminate Habs.
    - destruct (type_constraints iter_order self) as [t|e1]; cbn [rbind].
      + destruct (get_type_model t) as [m|e2] eqn:Hg; cbn [rbind].
        * split; [discriminate|].
          intros [_ [Habs|(t' & [= <-] & Habs)]]; [discriminate Habs|].
          rewrite Hg in Habs. discriminate Habs.
        * split.
          -- intros [= <-]. split; [reflexivity|]. right. eauto.
          -- intros [_ [Habs|(t' & [= <-] & Habs)]]; [discriminate Habs|].
             rewrite Hg in Habs. injection Habs as <-. reflexivity.
      + split.
        * intros [= <-]. split; [reflexivity|]. left. reflexivity.
        * intros [_ [[= <-]|(t' & Habs & _)]];
            [reflexivity|discriminate Habs]. }
  split.
  { intros Hc. destruct (Transform_subterms_fresh self Hc) as [Hn Hmem].
    split; [eapply NoDup_fmap_1, Hn|exact Hmem]. }
  unfold validate_model.
  destruct (abstract_type_model iter_order self) as [[model self']|e]
    eqn:Hmodel; cbn [rbind]; [|reflexivity].
  pose proof (abstract_type_model_fields _ _ _ Hmodel) as Hfields.
  split; [exact Hfields|].
  destruct Hfields as (_ & Hp & Hs & Ht & _).
  destruct (new_validator model type_vector) as [V|e]; cbn [rbind];
    [|reflexivity].
  pose proof (validation_checks_Ok self' V) as HOk.
  pose proof (validation_checks_Raise self' V) as HRaise.
  unfold validation_raises in *.
  rewrite (Transform_subterms_fields _ _ Hp Hs Ht), Hs, Ht in HOk, HRaise.
  destruct (validation_checks self' V) as [V2|e] eqn:Hchecks.
  - split.
    { split; [intros _|reflexivity].
      destruct (proj1 (HOk V2) eq_refl) as (V1 & H1 & H2). eauto. }
    split.
    { split; [discriminate|]. intros [msg H].
      apply HRaise in H. discriminate H. }
    split.
    { intros e. split; [discriminate|]. intros [H _].
      apply HRaise in H. discriminate H. }
    intros b s [= <- <-]. reflexivity.
  - assert (He : ∀ e', validator_eq_types (t_src self) (t_tgt self) V
                       = Raise e' ∨
                       (∃ V1, validator_eq_types (t_src self) (t_tgt self) V
                              = Ok V1 ∧
                              check_raises V1 (Transform_subterms self) e')
                       → e' = e).
    { intros e' H. apply HRaise in H. congruence. }
    assert (Hself : validator_eq_types (t_src self) (t_tgt self) V = Raise e ∨
                    (∃ V1, validator_eq_types (t_src self) (t_tgt self) V
                           = Ok V1 ∧
                           check_raises V1 (Transform_subterms self) e)).
    { apply HRaise. reflexivity. }
    assert (HnoOk : ¬ ∃ V1 V2,
              validator_eq_types (t_src self) (t_tgt self) V = Ok V1 ∧
              checked V1 (Transform_subterms self) V2).
    { intros (V1 & V2 & H1 & H2).
      assert (Habs : Raise e = Ok V2) by (apply HOk; eauto).
      discriminate Habs. }
    destruct e as [m|k| |m|m|].
    all: try (split; [split; [discriminate|intros H; destruct (HnoOk H)]|];
              split; [split; [discriminate|];
                      intros [msg H]; apply He in H; discriminate H|];
              split; [|discriminate];
              intros e'; split;
              [intros [= <-]; split; [exact Hself|discriminate]
              |intros [H _]; apply He in H; rewrite H; reflexivity]).
    split; [split; [discriminate|intros H; destruct (HnoOk H)]|].
    split; [split; [intros _; exists m; exact Hself|reflexivity]|].
    split.
    + intros e'. split; [discriminate|]. intros [H Hne].
      apply He in H. destruct (Hne m H).
    + intros b s [= <- <-]. reflexivity.
Qed.

End validate_model_facts.

Lemma validate_model_contains_typing_errors_witness :
  ∃ self' V V1 V2,
    validate_model (E := SimpleTyping.environment)
      SimpleTyping.insertion_order SimpleTyping.well_typed
      ({[ 21 := "i8" ]} : SimpleTyping.vector) = Ok (true, self') ∧
    SimpleTyping.same_type Ex.src_add0 Ex.tgt_or0 V = Ok V1 ∧
    checked (E := SimpleTyping.environment) V1
      [Ex.x; Ex.zero; Ex.src_add0; Ex.tgt_or0] V2.
Proof.
  pose proof (validate_model_contains_typing_errors
                (E := SimpleTyping.environment) SimpleTyping.insertion_order
                SimpleTyping.well_typed
                ({[ 21 := "i8" ]} : SimpleTyping.vector)) as (_ & _ & H).
  destruct (abstract_type_model (E := SimpleTyping.environment)
              SimpleTyping.insertion_order SimpleTyping.well_typed)
    as [[model self']|e] eqn:Hmodel.
  2:{ vm_compute in Hmodel. discriminate Hmodel. }
  destruct H as (_ & Htrue & _).
  assert (Hrun : validate_model (E := SimpleTyping.environment)
            SimpleTyping.insertion_order SimpleTyping.well_typed
            ({[ 21 := "i8" ]} : SimpleTyping.vector) = Ok (true, self')).
  { unfold validate_model. rewrite Hmodel. cbn [rbind].
    vm_compute in Hmodel. injection Hmodel as <- <-. vm_compute.
    reflexivity. }
  destruct (proj1 Htrue Hrun) as (V1 & V2 & H1 & H2).
  exists self', (model, {[ 21 := "i8" ]}), V1, V2.
  split; [exact Hrun|]. split; [exact H1|].
  assert (Hl : Transform_subterms (E := SimpleTyping.environment)
                 SimpleTyping.well_typed
               = [Ex.x; Ex.zero; Ex.src_add0; Ex.tgt_or0])
    by (vm_compute; reflexivity).
  rewrite <- Hl. exact H2.
Defined.

(** ** Two runs of [type_constraints] *)

Lemma same_outcome_bind {A1 A2 B1 B2} (R : A1 → A2 → Prop)
    (R' : B1 → B2 → Prop) m1 m2 (k1 : A1 → result B1) (k2 : A2 → result B2) :
  same_outcome R m1 m2 →
  (∀ a1 a2, R a1 a2 → same_outcome R' (k1 a1) (k2 a2)) →
  same_outcome R' (rbind m1 k1) (rbind m2 k2).
Proof.
  destruct m1 as [a1|e1], m2 as [a2|e2]; cbn [same_outcome rbind];
    try contradiction; auto.
Qed.

Lemma foldlM_same_outcome {A1 A2 B} (R : A1 → A2 → Prop)
    (f1 : A1 → B → result A1) (f2 : A2 → B → result A2) :
  (∀ a1 a2 x, R a1 a2 → same_outcome R (f1 a1 x) (f2 a2 x)) →
  ∀ xs a1 a2, R a1 a2 → same_outcome R (foldlM f1 a1 xs) (foldlM f2 a2 xs).
Proof.
  intros Hf. induction xs as [|x xs IH]; intros a1 a2 HR; cbn [foldlM].
  - exact HR.
  - eapply same_outcome_bind; [apply Hf, HR|]. intros b1 b2 Hb. apply IH, Hb.
Qed.

Lemma set_of_NoDup rs : NoDup (id_of <$> rs) → set_of rs = rs.
Proof.
  unfold set_of.
  enough (Hgen : ∀ s, NoDup (id_of <$> (s ++ rs)) →
                      foldl (λ s r, set_add r s) s rs = s ++ rs).
  { intros Hn. apply (Hgen []), Hn. }
  induction rs as [|r rs IH]; intros s Hn; cbn [foldl].
  - rewrite app_nil_r. reflexivity.
  - assert (Hr : id_of r ∉ id_of <$> s).
    { rewrite fmap_app in Hn. apply NoDup_app in Hn as (_ & Hdisj & _).
      intros Hin. apply (Hdisj _ Hin). left. }
    unfold set_add at 2. rewrite (bool_decide_eq_false_2 _ Hr).
    rewrite IH; [|rewrite <- (assoc_L (++)); exact Hn].
    rewrite <- (assoc_L (++)). reflexivity.
Qed.

Lemma elem_of_discard_all_iff {E : Environment} (t : TypeConstraints)
    x src_reps :
  ∀ reps, x ∈ foldl (λ reps r, set_discard (sets_rep t r) reps) reps src_reps
    ↔ x ∈ reps ∧ ∀ s, s ∈ src_reps → id_of (sets_rep t s) ≠ id_of x.
Proof.
  induction src_reps as [|r rs IH]; intros reps; cbn [foldl].
  - split; [|tauto]. intros Hx. split; [exact Hx|]. intros s Hs. inversion Hs.
  - rewrite IH, elem_of_set_discard. split.
    + intros [[Hin Hne] Hrs]. split; [exact Hin|]. intros s Hs.
      apply elem_of_cons in Hs as [->|Hs]; [congruence|auto].
    + intros [Hin Hall]. split; [split; [exact Hin|]|].
      * intros Heq. apply (Hall r); [left|congruence].
      * intros s Hs. apply Hall. right. exact Hs.
Qed.

Lemma elem_of_new_reps_iff {E : Environment} (t : TypeConstraints)
    src_reps x :
  NoDup (id_of <$> sets_reps t) →
  x ∈ new_reps t src_reps ↔
  x ∈ sets_reps t ∧ in_specifics t x = false ∧
  constraint_not_BOOL t x = true ∧
  ∀ s, s ∈ src_reps → id_of (sets_rep t s) ≠ id_of x.
Proof.
  intros Hn. unfold new_reps. rewrite elem_of_discard_all_iff.
  rewrite set_of_NoDup.
  2:{ eapply sublist_NoDup; [exact Hn|]. apply fmap_sublist, sublist_filter. }
  rewrite list_elem_of_filter, andb_true_iff, negb_true_iff. tauto.
Qed.

(** With type variables left in [reps] the run raises: a [typing.Error]
    if [str.join] takes every operand document, a [TypeError] of [str.join]
    if it does not. *)
Lemma ambiguity_raises {E : Environment} (order : list term → list term)
    (r : term) (reps : list term) {A} :
  order (r :: reps) ≡ₚ r :: reps → NoDup (id_of <$> r :: reps) →
  ∃ e, (let+ docs := ambiguous_docs order (r :: reps) in
        let+ joined := str_join ", " docs in
        Raise (TypingError ("Ambiguous type for " +:+ joined)) : result A)
       = Raise e ∧
       (exn_class e = "typing.Error" ↔
        text_is_str = true ∧
        Forall (λ x, L.isinstance_Instruction x = true) (r :: reps)) ∧
       (exn_class e = "typing.Error" ∨ exn_class e = "TypeError").
Proof.
  intros Hp Hn. set (rs := r :: reps) in *.
  destruct (ambiguous_docs_total order rs) as (d & Hd & _).
  pose proof (join_items_operands _ _
                (ambiguous_docs_shape order rs d Hp Hn Hd) 0) as Hj.
  assert (Hord : (text_is_str = true
                  ∧ Forall (λ x, L.isinstance_Instruction x = true) (order rs)
                  ∨ order rs = [])
                 ↔ (text_is_str = true
                    ∧ Forall (λ x, L.isinstance_Instruction x = true) rs)).
  { split.
    - intros [[Hstr Hall]|Heq].
      + split; [exact Hstr|]. rewrite Forall_forall in Hall |- *.
        intros x Hx. apply Hall. rewrite Hp. exact Hx.
      + rewrite Heq in Hp. symmetry in Hp.
        apply Permutation_nil_r in Hp. discriminate Hp.
    - intros [Hstr Hall]. left. split; [exact Hstr|].
      rewrite Forall_forall in Hall |- *.
      intros x Hx. apply Hall. rewrite <- Hp. exact Hx. }
  rewrite Hord in Hj. rewrite Hd. cbn [rbind]. unfold str_join.
  destruct (join_items 0 d) as [strs|e] eqn:Hjoin; cbn [rbind].
  - eexists. split; [reflexivity|]. cbn [exn_class]. split; [|auto].
    split; [intros _; apply Hj; eauto|reflexivity].
  - destruct (join_items_raises _ _ _ Hjoin) as [msg ->].
    eexists. split; [reflexivity|]. cbn [exn_class]. split; [|auto].
    split; [discriminate|]. intros Hc. apply Hj in Hc as [strs Hs].
    discriminate Hs.
Qed.

Section two_runs.
Variables (E1 E2 : Environment).
Variable R : @TypeConstraints E1 → @TypeConstraints E2 → Prop.
Variables order1 order2 : list term → list term.

(** What is taken of [typing.py] and [pretty.py], which are not among the
    sources: the collectors of the two runs start alike, and a method
    called with the same arguments on collectors that are alike leaves them
    alike or raises in both runs; collectors that are alike hold
    structurally equivalent partitions. *)
Hypothesis Hnew : R (@new_constraints E1) (@new_constraints E2).
Hypothesis Hcollect : ∀ x t1 t2, R t1 t2 →
  same_outcome R (@collect E1 x t1) (@collect E2 x t2).
Hypothesis Heq_types : ∀ a b t1 t2, R t1 t2 →
  same_outcome R (@eq_types E1 a b t1) (@eq_types E2 a b t2).
Hypothesis Hdefault : ∀ r t1 t2, R t1 t2 →
  same_outcome R (@default_type E1 r t1) (@default_type E2 r t2).
Hypothesis Hobserve : ∀ t1 t2, R t1 t2 → same_partition E1 E2 t1 t2.
Hypothesis Htext : @text_is_str E1 = @text_is_str E2.
(** Either run iterates its sets in an order of its own. *)
Hypothesis Horder1 : ∀ l, order1 l ≡ₚ l.
Hypothesis Horder2 : ∀ l, order2 l ≡ₚ l.

Lemma new_reps_two_runs t1 t2 sr1 sr2 :
  R t1 t2 → sr1 ≡ₚ sr2 →
  @new_reps E1 t1 sr1 ≡ₚ @new_reps E2 t2 sr2.
Proof.
  intros HR Hsr. destruct (Hobserve _ _ HR) as (Hrep & Hreps & Hn & Hsp & Hb).
  assert (Hn2 : NoDup (id_of <$> @sets_reps E2 t2)) by (rewrite <- Hreps; exact Hn).
  apply NoDup_Permutation.
  - eapply NoDup_fmap_1, NoDup_new_reps.
  - eapply NoDup_fmap_1, NoDup_new_reps.
  - intros x. rewrite (elem_of_new_reps_iff (E := E1)) by exact Hn.
    rewrite (elem_of_new_reps_iff (E := E2)) by exact Hn2.
    rewrite Hreps, Hsp, Hb.
    assert (Hall : (∀ s, s ∈ sr1 → id_of (@sets_rep E1 t1 s) ≠ id_of x) ↔
                   (∀ s, s ∈ sr2 → id_of (@sets_rep E2 t2 s) ≠ id_of x)).
    { split; intros H s Hs.
      - rewrite <- Hrep. apply H. rewrite Hsr. exact Hs.
      - rewrite Hrep. apply H. rewrite <- Hsr. exact Hs. }
    rewrite Hall. reflexivity.
Qed.

Lemma set_mem_Permutation r l1 l2 : l1 ≡ₚ l2 → set_mem r l1 = set_mem r l2.
Proof.
  intros Hp. unfold set_mem. apply bool_decide_ext. rewrite Hp. reflexivity.
Qed.

Lemma set_discard_Permutation r l1 l2 :
  l1 ≡ₚ l2 → set_discard r l1 ≡ₚ set_discard r l2.
Proof. intros Hp. unfold set_discard. rewrite Hp. reflexivity. Qed.

Lemma apply_defaults_two_runs t1 t2 reps1 reps2 defaultable :
  R t1 t2 → reps1 ≡ₚ reps2 →
  same_outcome (alike2 E1 E2 R) (@apply_defaults E1 t1 reps1 defaultable)
                      (@apply_defaults E2 t2 reps2 defaultable).
Proof.
  intros HR Hp. unfold apply_defaults.
  destruct reps1 as [|r1 reps1], reps2 as [|r2 reps2].
  - split; [exact HR|reflexivity].
  - apply Permutation_nil_l in Hp. discriminate Hp.
  - apply Permutation_nil_r in Hp. discriminate Hp.
  - apply (foldlM_same_outcome (alike2 E1 E2 R)); [|split; assumption].
    intros [u1 l1] [u2 l2] term [Hu Hl]. cbn [fst snd] in Hu, Hl.
    destruct (Hobserve _ _ Hu) as (Hrep & _).
    rewrite <- Hrep, (set_mem_Permutation _ _ _ Hl).
    destruct (set_mem (@sets_rep E1 u1 term) l2).
    + eapply same_outcome_bind; [apply Hdefault, Hu|].
      intros v1 v2 Hv. split; [exact Hv|].
      apply set_discard_Permutation, Hl.
    + split; assumption.
Qed.

Lemma gather_constraints_two_runs
    (self1 : Transform (@TypeModel E1)) (self2 : Transform (@TypeModel E2)) :
  same_transform self1 self2 →
  same_outcome (alike3 E1 E2 R) (@gather_constraints E1 self1)
                      (@gather_constraints E2 self2).
Proof.
  intros (_ & Hpre & Hsrc & Htgt). unfold gather_constraints.
  rewrite <- Hpre, <- Hsrc, <- Htgt.
  destruct (L.subterms (t_src self1) ∅) as [from_src seen1].
  eapply same_outcome_bind.
  { apply (foldlM_same_outcome R); [|exact Hnew].
    intros a1 a2 x Ha. apply Hcollect, Ha. }
  intros u1 u2 Hu.
  destruct (Hobserve _ _ Hu) as (_ & Hreps & _).
  eapply (same_outcome_bind
            (λ a1 a2, R a1.1.1 a2.1.1 ∧ a1.1.2 = a2.1.2 ∧ a1.2 = a2.2)).
  { destruct (t_pre self1) as [pre|].
    - destruct (L.subterms pre seen1) as [from_pre seen2].
      eapply (same_outcome_bind (λ a1 a2, R a1.1 a2.1 ∧ a1.2 = a2.2)).
      + apply (foldlM_same_outcome (λ a1 a2, R a1.1 a2.1 ∧ a1.2 = a2.2));
          [|split; [exact Hu|reflexivity]].
        intros [v1 d1] [v2 d2] x [Hv Hd]. cbn [fst snd] in Hv, Hd. subst d2.
        eapply same_outcome_bind; [apply Hcollect, Hv|].
        intros w1 w2 Hw. split; [exact Hw|reflexivity].
      + intros [v1 d1] [v2 d2] [Hv Hd]. cbn [fst snd] in Hv, Hd. subst d2.
        split; [exact Hv|]. split; reflexivity.
    - split; [exact Hu|]. split; reflexivity. }
  intros [[v1 d1] s1] [[v2 d2] s2] (Hv & Hd & Hs).
  cbn [fst snd] in Hv, Hd, Hs. subst d2 s2.
  destruct (L.subterms (t_tgt self1) s1) as [from_tgt seen3].
  eapply same_outcome_bind.
  { apply (foldlM_same_outcome R); [|exact Hv].
    intros a1 a2 x Ha. apply Hcollect, Ha. }
  intros w1 w2 Hw.
  eapply same_outcome_bind; [apply Heq_types, Hw|].
  intros z1 z2 Hz. split; [exact Hz|]. split; [exact Hreps|reflexivity].
Qed.

Lemma constraints_and_reps_two_runs
    (self1 : Transform (@TypeModel E1)) (self2 : Transform (@TypeModel E2)) :
  same_transform self1 self2 →
  same_outcome (alike2 E1 E2 R) (@constraints_and_reps E1 self1)
                      (@constraints_and_reps E2 self2).
Proof.
  intros Hsame. unfold constraints_and_reps.
  eapply same_outcome_bind; [apply gather_constraints_two_runs, Hsame|].
  intros [[u1 sr1] d1] [[u2 sr2] d2] (Hu & Hsr & Hd).
  cbn [fst snd] in Hu, Hsr, Hd. subst d2.
  apply apply_defaults_two_runs; [exact Hu|].
  apply new_reps_two_runs; assumption.
Qed.

Lemma same_classes_of_partition t1 t2 :
  same_partition E1 E2 t1 t2 → same_classes E1 E2 t1 t2.
Proof. intros (Hrep & _) x y. rewrite !Hrep. reflexivity. Qed.

(** C9.  Two runs of [type_constraints] on one Transform end alike, whatever
    the order in which either run has [sets.reps()] yield the
    representatives and iterates the set [reps], and whatever else differs
    between the collectors of the two runs that the calls of [transform.py]
    cannot see: both return, and the two collectors are alike and hold
    structurally equivalent partitions (the same classes, the same
    representatives, the same constraints on them), or both raise an
    exception of the same class; and one run gets to the ambiguous-type
    error exactly when the other does. *)
Theorem type_constraints_deterministic
    (self1 : Transform (@TypeModel E1)) (self2 : Transform (@TypeModel E2)) :
  same_transform self1 self2 →
  same_outcome (λ t1 t2, R t1 t2 ∧ same_partition E1 E2 t1 t2 ∧
                         same_classes E1 E2 t1 t2)
    (@type_constraints E1 order1 self1)
    (@type_constraints E2 order2 self2) ∧
  (@ambiguous E1 self1 ↔ @ambiguous E2 self2) ∧
  (@ambiguous E1 self1 →
   ∃ e1 e2, @type_constraints E1 order1 self1 = Raise e1 ∧
            @type_constraints E2 order2 self2 = Raise e2 ∧
            exn_class e1 = exn_class e2).
Proof.
  intros Hsame.
  pose proof (constraints_and_reps_two_runs _ _ Hsame) as Hruns.
  unfold type_constraints, ambiguous.
  destruct (@constraints_and_reps E1 self1) as [[t1 reps1]|e1] eqn:Hrun1;
    destruct (@constraints_and_reps E2 self2) as [[t2 reps2]|e2] eqn:Hrun2;
    cbn [same_outcome] in Hruns; try contradiction; cbn [rbind].
  2:{ split; [exact Hruns|]. split.
      - split; intros (t & reps & Habs & _); discriminate Habs.
      - intros (t & reps & Habs & _). discriminate Habs. }
  destruct Hruns as [HR Hp]. cbn [fst snd] in HR, Hp.
  pose proof (NoDup_constraints_and_reps _ _ _ Hrun1) as Hn1.
  pose proof (NoDup_constraints_and_reps _ _ _ Hrun2) as Hn2.
  destruct reps1 as [|r1 reps1], reps2 as [|r2 reps2].
  - split.
    { split; [exact HR|]. split; [apply Hobserve, HR|].
      apply same_classes_of_partition, Hobserve, HR. }
    split.
    + split; intros (t & reps & [= _ <-] & Hne); contradiction.
    + intros (t & reps & [= _ <-] & Hne). contradiction.
  - apply Permutation_nil_l in Hp. discriminate Hp.
  - apply Permutation_nil_r in Hp. discriminate Hp.
  - destruct (ambiguity_raises (E := E1) order1 r1 reps1 (Horder1 _) Hn1
                (A := @TypeConstraints E1))
      as (x1 & Hx1 & Hc1 & Hd1).
    destruct (ambiguity_raises (E := E2) order2 r2 reps2 (Horder2 _) Hn2
                (A := @TypeConstraints E2))
      as (x2 & Hx2 & Hc2 & Hd2).
    rewrite Hx1, Hx2. cbn [same_outcome].
    assert (Hcls : exn_class x1 = exn_class x2).
    { assert (Hiff : exn_class x1 = "typing.Error" ↔
                     exn_class x2 = "typing.Error").
      { rewrite Hc1, Hc2, Htext, Hp. reflexivity. }
      destruct Hd1 as [H1|H1], Hd2 as [H2|H2]; try congruence.
      - apply Hiff in H1. congruence.
      - apply Hiff in H2. congruence. }
    split; [exact Hcls|]. split.
    + split; intros _; eexists _, _; (split; [reflexivity|discriminate]).
    + intros _. exists x1, x2. auto.
Qed.

End two_runs.

Lemma type_constraints_deterministic_witness :
  ∃ t1 t2,
    @type_constraints SimpleTyping.environment SimpleTyping.insertion_order
                      ExRuns.defaulted = Ok t1 ∧
    @type_constraints ExRuns.reversed reverse ExRuns.defaulted = Ok t2 ∧
    same_partition SimpleTyping.environment ExRuns.reversed t1 t2 ∧
    same_classes SimpleTyping.environment ExRuns.reversed t1 t2 ∧
    length (@sets_reps SimpleTyping.environment t1) = 3 ∧
    @sets_reps ExRuns.reversed t2
    = reverse (@sets_reps SimpleTyping.environment t1) ∧
    bool_decide (id_of ExRuns.C2 ∈ SimpleTyping.specifics t1) = true.
Proof.
  destruct (type_constraints_deterministic SimpleTyping.environment
              ExRuns.reversed eq SimpleTyping.insertion_order reverse)
    with (self1 := ExRuns.defaulted) (self2 := ExRuns.defaulted)
    as (Hout & _).
  - reflexivity.
  - intros x t1 t2 ->. reflexivity.
  - intros a b t1 t2 ->. cbn.
    destruct (SimpleTyping.unify_roots a b t2); reflexivity.
  - intros r t1 t2 ->. reflexivity.
  - intros t1 t2 ->. split; [reflexivity|]. split.
    { symmetry. apply reverse_Permutation. }
    split; [exact (NoDup_set_of _)|]. split; reflexivity.
  - reflexivity.
  - intros l. reflexivity.
  - intros l. apply reverse_Permutation.
  - repeat split.
  - destruct (@type_constraints SimpleTyping.environment
                SimpleTyping.insertion_order ExRuns.defaulted)
      as [t1|e1] eqn:H1.
    2:{ vm_compute in H1. discriminate H1. }
    destruct (@type_constraints ExRuns.reversed reverse ExRuns.defaulted)
      as [t2|e2] eqn:H2.
    2:{ vm_compute in H2. discriminate H2. }
    destruct Hout as (Heq & Hpart & Hcls). subst t2.
    exists t1, t1. split; [reflexivity|]. split; [reflexivity|].
    split; [exact Hpart|]. split; [exact Hcls|].
    vm_compute in H1. injection H1 as <-.
    split; [vm_compute; reflexivity|]. split; vm_compute; reflexivity.
Defined.
